(** * Clerk-Bot: the DOM scanner, the action executor, the question gate
    and the session relay, as executable Rocq models.

    Sources embedded here:
    - [extension/lib/content/dom-scanner.ts]  (modules [Dom], [Scanner])
    - [extension/lib/content/overlay-ui.ts]   (module [Overlay])
    - the background service worker            (module [Relay])

    Conventions of the model:
    - JavaScript strings are Rocq strings, one Rocq character per UTF-16
      code unit, for text whose code units are below 256; the string
      helpers follow the ECMAScript built-ins on such text.
    - The page is a tree of text and element nodes. An element object is
      named by its position in the tree. A native click has the effect
      the HTML standard gives it on the controls: none on a disabled
      control, a toggle on a checkbox, and on a radio button the check of
      the button and the uncheck of the rest of its group. The page's own
      scripts, the default action of buttons, links and labels, and
      layout changes are not modelled.
    - Every function that touches the page or the network takes the state
      and returns the new one, together with a trace of what it did.
    - A message handler of the background worker is suspended at each of
      its [await]s; module [Relay] gives each handler as one run with no
      other handler in between, module [Async] gives the ACTIVATE handler
      piece by piece, so that the pieces of two handlers can alternate. *)

From Stdlib Require Import ZArith Ascii String.
From stdpp Require Import base option list strings pretty gmap.

Local Open Scope string_scope.
Set Warnings "-register-all".

(** ** ECMAScript string built-ins used by the sources *)
Module Js.

(** [c.toLowerCase()] on one code unit below 256: [A-Z] is shifted to
    [a-z], and the capital letters of Latin-1 (U+00C0 to U+00DE, without
    the multiplication sign U+00D7) to their small forms. *)
Definition lower_char (c : ascii) : ascii :=
  let n := nat_of_ascii c in
  if (65 <=? n)%nat && (n <=? 90)%nat then ascii_of_nat (n + 32)
  else if (192 <=? n)%nat && (n <=? 222)%nat && negb (n =? 215)%nat then ascii_of_nat (n + 32)
  else c.

Definition is_upper (c : ascii) : bool :=
  let n := nat_of_ascii c in (65 <=? n)%nat && (n <=? 90)%nat.

Definition is_lower (c : ascii) : bool :=
  let n := nat_of_ascii c in (97 <=? n)%nat && (n <=? 122)%nat.

(** White space and line terminators stripped by [String.prototype.trim],
    among the code units below 256: TAB, LF, VT, FF, CR, SPACE and the
    no-break space U+00A0. *)
Definition is_space (c : ascii) : bool :=
  let n := nat_of_ascii c in
  ((9 <=? n)%nat && (n <=? 13)%nat) || (n =? 32)%nat || (n =? 160)%nat.

Fixpoint toLowerCase (s : string) : string :=
  match s with
  | EmptyString => EmptyString
  | String c s' => String (lower_char c) (toLowerCase s')
  end.

Fixpoint trimStart (s : string) : string :=
  match s with
  | EmptyString => EmptyString
  | String c s' => if is_space c then trimStart s' else s
  end.

(** [trimEnd] keeps a character when it is not white space or when
    something survives to its right. *)
Fixpoint trimEnd (s : string) : string :=
  match s with
  | EmptyString => EmptyString
  | String c s' =>
      match trimEnd s' with
      | EmptyString => if is_space c then EmptyString else String c EmptyString
      | t => String c t
      end
  end.

Definition trim (s : string) : string := trimEnd (trimStart s).

(** [s.startsWith(p)] *)
Fixpoint startsWith (s p : string) : bool :=
  match p, s with
  | EmptyString, _ => true
  | String _ _, EmptyString => false
  | String b p', String a s' => if decide (a = b) then startsWith s' p' else false
  end.

(** [s.includes(sub)]: [sub] occurs in [s] as a contiguous run. *)
Fixpoint includes (s sub : string) : bool :=
  startsWith s sub ||
  match s with
  | EmptyString => false
  | String _ s' => includes s' sub
  end.

(** [xs.join(sep)] *)
Fixpoint join (sep : string) (xs : list string) : string :=
  match xs with
  | [] => ""
  | [x] => x
  | x :: xs' => x ++ sep ++ join sep xs'
  end.

(** [xs.includes(x)] on an array of strings. *)
Definition array_includes (xs : list string) (x : string) : bool :=
  bool_decide (x ∈ xs).

(** A string is truthy when it is not empty. *)
Definition truthy (s : string) : bool :=
  match s with EmptyString => false | _ => true end.

(** [a || b] on strings. *)
Definition or_else (a b : string) : string := if truthy a then a else b.

(** [s.replace(/[_-]/g, ' ')] *)
Fixpoint replace_sep (s : string) : string :=
  match s with
  | EmptyString => EmptyString
  | String c s' =>
      String (if decide (c = "_"%char) then " "%char
              else if decide (c = "-"%char) then " "%char else c)
             (replace_sep s')
  end.

(** [s.replace(/([a-z])([A-Z])/g, '$1 $2')]: matches do not overlap, the
    scan resumes after the upper-case letter of a match. *)
Fixpoint replace_camel (s : string) : string :=
  match s with
  | EmptyString => EmptyString
  | String a s' =>
      match s' with
      | EmptyString => String a EmptyString
      | String b s'' =>
          if is_lower a && is_upper b
          then String a (String " " (String b (replace_camel s'')))
          else String a (replace_camel s')
      end
  end.

(** *** [ToNumber] on a string, as far as the sources depend on it

    An assignment to a property of IDL type [double] converts the value
    with [ToNumber] and throws a [TypeError] unless the result is finite.
    [isFinite v] tells whether [ToNumber] of the string [v] is finite, as
    the global [isFinite] does. *)

Definition is_digit (c : ascii) : bool :=
  let n := nat_of_ascii c in (48 <=? n)%nat && (n <=? 57)%nat.

(** The value of a digit in a base up to 16. *)
Definition digit_in (base : Z) (c : ascii) : option Z :=
  let n := Z.of_nat (nat_of_ascii c) in
  let v := if (48 <=? n)%Z && (n <=? 57)%Z then Some (n - 48)%Z
           else if (97 <=? n)%Z && (n <=? 102)%Z then Some (n - 87)%Z
           else if (65 <=? n)%Z && (n <=? 70)%Z then Some (n - 55)%Z
           else None in
  match v with
  | Some k => if (k <? base)%Z then Some k else None
  | None => None
  end.

(** The number a string of digits of a base denotes; [None] if a
    character is no digit of the base. *)
Fixpoint digits_value (base : Z) (s : string) (acc : Z) : option Z :=
  match s with
  | EmptyString => Some acc
  | String c s' =>
      match digit_in base c with
      | Some k => digits_value base s' (acc * base + k)%Z
      | None => None
      end
  end.

(** The longest prefix of decimal digits, and what follows it. *)
Fixpoint span_digits (s : string) : string * string :=
  match s with
  | EmptyString => (EmptyString, EmptyString)
  | String c s' =>
      if is_digit c then let '(ds, r) := span_digits s' in (String c ds, r)
      else (EmptyString, s)
  end.

(** [ExponentPart] or nothing: [e] or [E], an optional sign, digits. *)
Definition exponent_part (s : string) : option Z :=
  match s with
  | EmptyString => Some 0%Z
  | String c s' =>
      if bool_decide (c = "e"%char) || bool_decide (c = "E"%char) then
        let '(neg, ds) :=
          match s' with
          | String "-" r => (true, r)
          | String "+" r => (false, r)
          | _ => (false, s')
          end in
        match ds with
        | EmptyString => None
        | _ => (fun x => if neg : bool then (- x)%Z else x) <$> digits_value 10 ds 0
        end
      else None
  end.

(** [StrUnsignedDecimalLiteral] other than [Infinity], as mantissa and
    power of ten: digits with an optional fraction, or a fraction alone,
    and an optional exponent. *)
Definition unsigned_decimal (s : string) : option (Z * Z) :=
  let '(ip, r1) := span_digits s in
  let '(dot, fp, r2) :=
    match r1 with
    | String "." r => let '(fp, r2) := span_digits r in (true, fp, r2)
    | _ => (false, EmptyString, r1)
    end in
  if truthy ip || (dot && truthy fp) then
    match digits_value 10 (ip ++ fp) 0, exponent_part r2 with
    | Some m, Some x => Some (m, (x - Z.of_nat (String.length fp))%Z)
    | _, _ => None
    end
  else None.

(** Magnitudes from [2^1024 - 2^970] on round to an infinity. *)
Definition overflow_bound : Z := (2 ^ 1024 - 2 ^ 970)%Z.

Definition finite_magnitude (m x : Z) : bool :=
  if (0 <=? x)%Z then (m * 10 ^ x <? overflow_bound)%Z
  else (m <? overflow_bound * 10 ^ (- x))%Z.

Definition isFinite (v : string) : bool :=
  let s := trim v in
  match s with
  | EmptyString => true
  | String "0" (String c r) =>
      let base := if bool_decide (c = "x"%char) || bool_decide (c = "X"%char) then Some 16%Z
                  else if bool_decide (c = "o"%char) || bool_decide (c = "O"%char) then Some 8%Z
                  else if bool_decide (c = "b"%char) || bool_decide (c = "B"%char) then Some 2%Z
                  else None in
      match base with
      | Some b =>
          match r, digits_value b r 0 with
          | String _ _, Some m => (m <? overflow_bound)%Z
          | _, _ => false
          end
      | None =>
          match unsigned_decimal s with
          | Some (m, x) => finite_magnitude m x
          | None => false
          end
      end
  | _ =>
      let u := match s with
               | String "+" r => r
               | String "-" r => r
               | _ => s
               end in
      if bool_decide (u = "Infinity") then false
      else match unsigned_decimal u with
           | Some (m, x) => finite_magnitude m x
           | None => false
           end
  end.

(** The double-quote character of a template literal. *)
Definition dquote : string := String (ascii_of_nat 34) EmptyString.

(** Template pieces [`f${i}`], [`b${i}`]. *)
Definition num (i : nat) : string := pretty i.

End Js.

(** ** The page: a DOM tree whose elements carry the properties the
       scanner and the executor read or write *)
Module Dom.

(** An [<option>] of a select, through its [text] and [value] properties. *)
Record OptionElement := mkOption { opt_text : string; opt_value : string }.

(** What [isVisible] reads: [el.offsetParent === null], [el.style.position],
    the computed [display], [visibility] and [opacity], and the size of
    [getBoundingClientRect()]. Only the comparison of the sizes with 0 is
    used, so they are kept as integers. *)
Record Layout := mkLayout {
  offsetParent_null : bool;
  style_position : string;
  css_display : string;
  css_visibility : string;
  css_opacity : string;
  rect_width : Z;
  rect_height : Z
}.

(** An element. [attrs] holds the content attributes ([id], [name],
    [placeholder], [required], [class], [for], [role], [title], [aria-*]);
    [el_type] is the [type] property of an input or a button; [el_value]
    and [el_checked] are the live value and checkedness of a control;
    [options] and [selectedIndex] those of a select ([None] stands for
    [-1]). *)
Record Element := mkElement {
  tagName : string;
  attrs : list (string * string);
  el_type : string;
  el_value : string;
  el_checked : bool;
  options : list OptionElement;
  selectedIndex : option nat;
  layout : Layout
}.

Inductive Node :=
| TextNode (data : string)
| ElementNode (el : Element) (children : list Node).

(** An element object is named by its position in the tree: the child
    indices that lead to it from the root. *)
Definition Path := list nat.

(** The view of an element object that the code works with. *)
Record HTMLElement := mkHTMLElement {
  path : Path;
  self : Element;
  childNodes : list Node
}.

Record Document := mkDocument {
  location_href : string;
  title : string;
  root : Node
}.

(** [el.getAttribute(k)] *)
Fixpoint getAttribute_in (l : list (string * string)) (k : string) : option string :=
  match l with
  | [] => None
  | (k', v) :: l' => if decide (k' = k) then Some v else getAttribute_in l' k
  end.

Definition getAttribute (e : Element) (k : string) : option string :=
  getAttribute_in (attrs e) k.

(** Reflected properties: the attribute's value, or the empty string. *)
Definition reflect (e : Element) (k : string) : string :=
  default "" (getAttribute e k).

Definition el_id (e : Element) : string := reflect e "id".
Definition el_name (e : Element) : string := reflect e "name".
Definition el_required (e : Element) : bool := bool_decide (is_Some (getAttribute e "required")).

(** [el instanceof HTMLInputElement] and its siblings. *)
Definition isInput (e : Element) : bool := bool_decide (tagName e = "INPUT").
Definition isSelect (e : Element) : bool := bool_decide (tagName e = "SELECT").
Definition isTextArea (e : Element) : bool := bool_decide (tagName e = "TEXTAREA").
Definition isButton (e : Element) : bool := bool_decide (tagName e = "BUTTON").

(** [el.placeholder]: inputs and textareas have the property, on any other
    element the read gives [undefined], which the code turns into the
    empty string. *)
Definition el_placeholder (e : Element) : string :=
  if isInput e || isTextArea e then reflect e "placeholder" else "".

(** [node.textContent]: the text of all descendants, in document order. *)
Fixpoint textContent (n : Node) : string :=
  match n with
  | TextNode s => s
  | ElementNode _ kids =>
      (fix go (ks : list Node) : string :=
         match ks with
         | [] => ""
         | k :: ks' => textContent k ++ go ks'
         end) kids
  end.

Definition textContent_of (h : HTMLElement) : string :=
  textContent (ElementNode (self h) (childNodes h)).

(** All elements below (and including) a node, in document order. *)
Fixpoint elements_from (p : Path) (n : Node) : list HTMLElement :=
  match n with
  | TextNode _ => []
  | ElementNode e kids =>
      mkHTMLElement p e kids ::
      (fix go (i : nat) (ks : list Node) : list HTMLElement :=
         match ks with
         | [] => []
         | k :: ks' => (elements_from (p ++ [i])%list k ++ go (S i) ks')%list
         end) 0%nat kids
  end.

Definition elements (d : Document) : list HTMLElement := elements_from [] (root d).

(** [document.querySelectorAll(sel)], for a selector given as a test on
    one element (none of the selectors used has a combinator). *)
Definition querySelectorAll (d : Document) (sel : Element -> bool) : list HTMLElement :=
  filter (fun h => sel (self h) = true) (elements d).

Definition querySelector (d : Document) (sel : Element -> bool) : option HTMLElement :=
  head (querySelectorAll d sel).

(** [document.getElementById(i)] *)
Definition getElementById (d : Document) (i : string) : option HTMLElement :=
  if Js.truthy i then querySelector d (fun e => bool_decide (getAttribute e "id" = Some i))
  else None.

(** The node at a path. *)
Fixpoint node_at (p : Path) (n : Node) : option Node :=
  match p with
  | [] => Some n
  | i :: p' =>
      match n with
      | TextNode _ => None
      | ElementNode _ kids => kids !! i ≫= node_at p'
      end
  end.

Definition resolve (d : Document) (p : Path) : option HTMLElement :=
  match node_at p (root d) with
  | Some (ElementNode e kids) => Some (mkHTMLElement p e kids)
  | _ => None
  end.

(** [el.closest(sel)]: the nearest inclusive ancestor that matches. The
    walk goes down from the root and remembers the last match. *)
Fixpoint closest_go (sel : Element -> bool) (n : Node) (p pre : Path)
    (best : option HTMLElement) : option HTMLElement :=
  match n with
  | TextNode _ => None
  | ElementNode e kids =>
      let best' := if sel e then Some (mkHTMLElement pre e kids) else best in
      match p with
      | [] => best'
      | i :: p' =>
          match kids !! i with
          | Some k => closest_go sel k p' (pre ++ [i])%list best'
          | None => None
          end
      end
  end.

Definition closest (d : Document) (h : HTMLElement) (sel : Element -> bool) : option HTMLElement :=
  closest_go sel (root d) (path h) [] None.

(** [el.previousElementSibling] *)
Fixpoint last_element_before (pre : Path) (i : nat) (ks : list Node)
    (n : nat) (best : option HTMLElement) : option HTMLElement :=
  match n, ks with
  | O, _ => best
  | _, [] => best
  | S n', TextNode _ :: ks' => last_element_before pre (S i) ks' n' best
  | S n', ElementNode e kids :: ks' =>
      last_element_before pre (S i) ks' n' (Some (mkHTMLElement (pre ++ [i])%list e kids))
  end.

Definition previousElementSibling (d : Document) (h : HTMLElement) : option HTMLElement :=
  match reverse (path h) with
  | [] => None
  | i :: rpre =>
      let pre := reverse rpre in
      match node_at pre (root d) with
      | Some (ElementNode _ kids) => last_element_before pre 0 kids i None
      | _ => None
      end
  end.

(** [clone.querySelectorAll(sel).forEach(child => child.remove())] on a
    deep clone: every descendant that matches is cut out with its subtree. *)
Fixpoint remove_matching (sel : Element -> bool) (n : Node) : Node :=
  match n with
  | TextNode s => TextNode s
  | ElementNode e kids =>
      ElementNode e
        ((fix go (ks : list Node) : list Node :=
            match ks with
            | [] => []
            | TextNode s :: ks' => TextNode s :: go ks'
            | ElementNode e' kids' as k :: ks' =>
                if sel e' then go ks' else remove_matching sel k :: go ks'
            end) kids)
  end.

(** Writing to the element object at a path. *)
Fixpoint update_at (p : Path) (f : Element -> Element) (n : Node) : Node :=
  match n with
  | TextNode s => TextNode s
  | ElementNode e kids =>
      match p with
      | [] => ElementNode (f e) kids
      | i :: p' => ElementNode e (alter (update_at p' f) i kids)
      end
  end.

Definition update (d : Document) (p : Path) (f : Element -> Element) : Document :=
  mkDocument (location_href d) (title d) (update_at p f (root d)).

(** *** Disabled controls and radio button groups *)

Definition has_attribute (e : Element) (k : string) : bool :=
  bool_decide (is_Some (getAttribute e k)).

(** The index of the first [legend] element among the children. *)
Fixpoint first_legend (ks : list Node) (i : nat) : option nat :=
  match ks with
  | [] => None
  | TextNode _ :: ks' => first_legend ks' (S i)
  | ElementNode e _ :: ks' =>
      if bool_decide (tagName e = "LEGEND") then Some i else first_legend ks' (S i)
  end.

(** The element at [p] below [n] is a descendant of a [fieldset] that has
    the [disabled] attribute, and not of that fieldset's first [legend]
    child. *)
Fixpoint in_disabled_fieldset (n : Node) (p : Path) {struct p} : bool :=
  match p with
  | [] => false
  | i :: p' =>
      match n with
      | TextNode _ => false
      | ElementNode e kids =>
          (bool_decide (tagName e = "FIELDSET") && has_attribute e "disabled"
           && negb (bool_decide (first_legend kids 0 = Some i)))
          || match kids !! i with
             | Some k => in_disabled_fieldset k p'
             | None => false
             end
      end
  end.

(** A button, input, select or textarea is disabled when it has the
    [disabled] attribute or sits in a disabled fieldset. *)
Definition is_disabled (d : Document) (h : HTMLElement) : bool :=
  bool_decide (tagName (self h) ∈ ["BUTTON"; "INPUT"; "SELECT"; "TEXTAREA"])
  && (has_attribute (self h) "disabled" || in_disabled_fieldset (root d) (path h)).

Definition isForm (e : Element) : bool := bool_decide (tagName e = "FORM").

(** The form owner of a control: the form its [form] attribute names by
    id, if it has the attribute, and its nearest [form] ancestor if not. *)
Definition form_owner (d : Document) (h : HTMLElement) : option Path :=
  match getAttribute (self h) "form" with
  | Some i =>
      match getElementById d i with
      | Some f => if isForm (self f) then Some (path f) else None
      | None => None
      end
  | None => path <$> closest d h isForm
  end.

Definition isRadio (e : Element) : bool :=
  isInput e && bool_decide (el_type e = "radio").

(** The other members of the radio button group of [h]: the radio
    buttons of the document with the name of [h], which is not empty,
    and the form owner of [h]. *)
Definition radio_group (d : Document) (h : HTMLElement) : list Path :=
  if isRadio (self h) && Js.truthy (el_name (self h)) then
    path <$> filter (fun h' => (negb (bool_decide (path h' = path h))
                                && isRadio (self h')
                                && bool_decide (getAttribute (self h') "name"
                                                = getAttribute (self h) "name")
                                && bool_decide (form_owner d h' = form_owner d h)) = true)
                    (elements d)
  else [].

End Dom.

(** ** dom-scanner.ts *)
Module Scanner.
Import Dom.

Record ScannedField := mkScannedField {
  f_ref : string;
  f_tag : string;
  f_type : string;
  f_label : string;
  f_name : string;
  f_value : string;
  f_placeholder : string;
  f_required : bool;
  f_options : list string;
  f_checked : option bool
}.

Record ScannedButton := mkScannedButton {
  b_ref : string;
  b_text : string;
  b_type : string
}.

Record PageSnapshot := mkPageSnapshot {
  url : string;
  snap_title : string;
  fields : list ScannedField;
  buttons : list ScannedButton
}.

(** [{ ok: true }] and [{ ok: false, error }]. *)
Inductive ActionResult :=
| Ok
| Failure (error : string).

(** What the executor does to the page, in program order. *)
Inductive DomEvent :=
| Click (p : Path)
| Focus (p : Path)
| Assign (p : Path) (v : string)
| NativeSet (p : Path) (v : string)
| Dispatch (p : Path) (type : string).

(** The page context: the live document, the module-level [refMap] and the
    trace of native calls and dispatched events. *)
Record State := mkState {
  document : Document;
  refMap : gmap string Path;
  events : list DomEvent
}.

Definition getElementByRef (st : State) (ref : string) : option Path :=
  refMap st !! ref.

(** *** Helpers of the scan *)

Definition isVisible (e : Element) : bool :=
  let l := layout e in
  if offsetParent_null l && negb (bool_decide (style_position l = "fixed")) then false
  else if bool_decide (css_display l = "none") || bool_decide (css_visibility l = "hidden") then false
  else if bool_decide (css_opacity l = "0") then false
  else if bool_decide (rect_width l = 0%Z) && bool_decide (rect_height l = 0%Z) then false
  else true.

Definition isHiddenInput (e : Element) : bool :=
  isInput e && bool_decide (el_type e = "hidden").

Definition getFieldType (e : Element) : string :=
  if isSelect e then "select"
  else if isTextArea e then "textarea"
  else if isInput e then Js.or_else (el_type e) "text"
  else "unknown".

Definition getFieldValue (e : Element) : string :=
  if isSelect e then
    match selectedIndex e ≫= (fun i => options e !! i) with
    | Some selected => if Js.truthy (opt_value selected) then Js.trim (opt_text selected) else ""
    | None => ""
    end
  else if isInput e || isTextArea e then el_value e
  else "".

(** Selectors. *)
Definition sel_form_control (e : Element) : bool :=
  isInput e || isSelect e || isTextArea e.

Definition sel_label (e : Element) : bool := bool_decide (tagName e = "LABEL").

Definition sel_label_for (i : string) (e : Element) : bool :=
  sel_label e && bool_decide (getAttribute e "for" = Some i).

Definition type_attr_is (e : Element) (t : string) : bool :=
  match getAttribute e "type" with
  | Some v => bool_decide (Js.toLowerCase v = t)
  | None => false
  end.

Definition sel_button (e : Element) : bool :=
  isButton e
  || (isInput e && type_attr_is e "submit")
  || (isInput e && type_attr_is e "button")
  || bool_decide (getAttribute e "role" = Some "button").

Definition class_contains (e : Element) (s : string) : bool :=
  match getAttribute e "class" with
  | Some c => Js.includes c s
  | None => false
  end.

Definition sel_link_button (e : Element) : bool :=
  bool_decide (tagName e = "A")
  && (class_contains e "btn" || class_contains e "button" || class_contains e "Button"
      || class_contains e "next" || class_contains e "submit").

(** A test that may «return r»: [Some r] leaves the function with [r],
    [None] falls through to the statement that follows. *)
Notation "x 'otherwise' k" :=
  (match x with Some r => r | None => k end)
  (at level 60, right associativity, only parsing).

Definition label_for_id (d : Document) (h : HTMLElement) : option string :=
  let i := el_id (self h) in
  if Js.truthy i then
    match querySelector d (sel_label_for i) with
    | Some label => Some (Js.or_else (Js.trim (textContent_of label)) "")
    | None => None
    end
  else None.

Definition label_parent (d : Document) (h : HTMLElement) : option string :=
  match closest d h sel_label with
  | Some parentLabel =>
      let clone := remove_matching sel_form_control
                     (ElementNode (self parentLabel) (childNodes parentLabel)) in
      let text := Js.trim (textContent clone) in
      if Js.truthy text then Some text else None
  | None => None
  end.

Definition label_aria (h : HTMLElement) : option string :=
  match getAttribute (self h) "aria-label" with
  | Some ariaLabel => if Js.truthy ariaLabel then Some (Js.trim ariaLabel) else None
  | None => None
  end.

Definition label_labelledby (d : Document) (h : HTMLElement) : option string :=
  match getAttribute (self h) "aria-labelledby" with
  | Some labelledBy =>
      if Js.truthy labelledBy then
        match getElementById d labelledBy with
        | Some labelEl => Some (Js.or_else (Js.trim (textContent_of labelEl)) "")
        | None => None
        end
      else None
  | None => None
  end.

Definition label_prev (d : Document) (h : HTMLElement) : option string :=
  match previousElementSibling d h with
  | Some prev =>
      if negb (bool_decide (tagName (self prev) = "INPUT"))
         && negb (bool_decide (tagName (self prev) = "SELECT")) then
        let text := Js.trim (textContent_of prev) in
        if Js.truthy text && bool_decide (String.length text < 100)%nat then Some text else None
      else None
  | None => None
  end.

Definition label_placeholder (h : HTMLElement) : option string :=
  if isInput (self h) && Js.truthy (el_placeholder (self h))
  then Some (el_placeholder (self h)) else None.

Definition label_name (h : HTMLElement) : option string :=
  if isInput (self h) && Js.truthy (el_name (self h))
  then Some (Js.replace_camel (Js.replace_sep (el_name (self h)))) else None.

Definition findLabel (d : Document) (h : HTMLElement) : string :=
  label_for_id d h otherwise
  label_parent d h otherwise
  label_aria h otherwise
  label_labelledby d h otherwise
  label_prev d h otherwise
  label_placeholder h otherwise
  label_name h otherwise
  "".

Definition getButtonText (h : HTMLElement) : string :=
  if isInput (self h) then Js.or_else (el_value (self h)) ""
  else
    let text := Js.trim (textContent_of h) in
    if Js.truthy text then text
    else Js.or_else (default "" (Js.trim <$> getAttribute (self h) "aria-label"))
           (Js.or_else (default "" (Js.trim <$> getAttribute (self h) "title")) "").

(** *** scanPage *)

Definition scanField (d : Document) (ref : string) (h : HTMLElement) : ScannedField :=
  let e := self h in
  {| f_ref := ref;
     f_tag := Js.toLowerCase (tagName e);
     f_type := getFieldType e;
     f_label := findLabel d h;
     f_name := Js.or_else (el_name e) "";
     f_value := getFieldValue e;
     f_placeholder := Js.or_else (el_placeholder e) "";
     f_required := el_required e;
     f_options :=
       if isSelect e
       then map (fun opt => Js.trim (opt_text opt))
                (filter (fun opt => opt_value opt <> "") (options e))
       else [];
     f_checked :=
       if isInput e && (bool_decide (el_type e = "checkbox") || bool_decide (el_type e = "radio"))
       then Some (el_checked e) else None |}.

(** The three [for ... of] loops. Each carries its counter, the table and
    the array it pushes to; [continue] is the recursive call that leaves
    them unchanged. *)
Fixpoint scanFields (d : Document) (els : list HTMLElement) (fieldIdx : nat)
    (rm : gmap string Path) (fs : list ScannedField)
    : nat * gmap string Path * list ScannedField :=
  match els with
  | [] => (fieldIdx, rm, fs)
  | h :: rest =>
      if negb (isVisible (self h)) || isHiddenInput (self h)
      then scanFields d rest fieldIdx rm fs
      else
        let ref := "f" +:+ Js.num fieldIdx in
        scanFields d rest (S fieldIdx) (<[ref := path h]> rm) (fs ++ [scanField d ref h])%list
  end.

Fixpoint scanButtons (els : list HTMLElement) (buttonIdx : nat)
    (rm : gmap string Path) (bs : list ScannedButton)
    : nat * gmap string Path * list ScannedButton :=
  match els with
  | [] => (buttonIdx, rm, bs)
  | h :: rest =>
      if negb (isVisible (self h)) then scanButtons rest buttonIdx rm bs
      else
        let text := getButtonText h in
        if negb (Js.truthy text) then scanButtons rest buttonIdx rm bs
        else
          let ref := "b" +:+ Js.num buttonIdx in
          scanButtons rest (S buttonIdx) (<[ref := path h]> rm)
            (bs ++ [mkScannedButton ref text
                      (if isButton (self h) then Js.or_else (el_type (self h)) "button"
                       else "button")])%list
  end.

Fixpoint scanLinks (els : list HTMLElement) (buttonIdx : nat)
    (rm : gmap string Path) (bs : list ScannedButton)
    : nat * gmap string Path * list ScannedButton :=
  match els with
  | [] => (buttonIdx, rm, bs)
  | h :: rest =>
      if negb (isVisible (self h)) then scanLinks rest buttonIdx rm bs
      else
        let text := Js.trim (textContent_of h) in
        if negb (Js.truthy text) then scanLinks rest buttonIdx rm bs
        else
          let ref := "b" +:+ Js.num buttonIdx in
          scanLinks rest (S buttonIdx) (<[ref := path h]> rm)
            (bs ++ [mkScannedButton ref text "link"])%list
  end.

Definition scanPage (st : State) : PageSnapshot * State :=
  let d := document st in
  (* refMap.clear() *)
  let rm0 : gmap string Path := ∅ in
  let '(_, rm1, fs) := scanFields d (querySelectorAll d sel_form_control) 0 rm0 [] in
  let '(buttonIdx, rm2, bs) := scanButtons (querySelectorAll d sel_button) 0 rm1 [] in
  let '(_, rm3, bs') := scanLinks (querySelectorAll d sel_link_button) buttonIdx rm2 bs in
  (mkPageSnapshot (location_href d) (title d) fs bs',
   mkState d rm3 (events st)).

(** *** The executor *)

(** What a native click does to the element it activates: a checkbox
    toggles, a radio button becomes checked, anything else keeps its
    state. What it does to the rest of the page, and when it does
    nothing at all, is in [click]. *)
Definition activate (e : Element) : Element :=
  if isInput e && bool_decide (el_type e = "checkbox") then
    mkElement (tagName e) (attrs e) (el_type e) (el_value e) (negb (el_checked e))
              (options e) (selectedIndex e) (layout e)
  else if isInput e && bool_decide (el_type e = "radio") then
    mkElement (tagName e) (attrs e) (el_type e) (el_value e) true
              (options e) (selectedIndex e) (layout e)
  else e.

(** [el.value = v] on an input or a textarea (and on the other elements
    that have a [value] property). The value is kept as it is written;
    what an input of type number, date and the like makes of a value it
    cannot hold is not followed here. *)
Definition set_value (v : string) (e : Element) : Element :=
  mkElement (tagName e) (attrs e) (el_type e) v (el_checked e)
            (options e) (selectedIndex e) (layout e).

(** Index of the first option whose value is [v]. *)
Fixpoint first_with_value (v : string) (opts : list OptionElement) : option nat :=
  match opts with
  | [] => None
  | o :: rest => if decide (opt_value o = v) then Some 0%nat else S <$> first_with_value v rest
  end.

(** [el.value = v] on a select: the selectedness of every option is
    cleared, then the first option in tree order whose value equals [v],
    if any, is selected. *)
Definition set_select_value (v : string) (e : Element) : Element :=
  mkElement (tagName e) (attrs e) (el_type e) (el_value e) (el_checked e)
            (options e) (first_with_value v (options e)) (layout e).

Definition uncheck (e : Element) : Element :=
  mkElement (tagName e) (attrs e) (el_type e) (el_value e) false
            (options e) (selectedIndex e) (layout e).

Definition uncheck_all (d : Document) (ps : list Path) : Document :=
  foldr (fun q d0 => update d0 q uncheck) d ps.

(** [el.click()]. The call is logged. On a disabled control it does
    nothing. Otherwise the element is activated, and when it is a radio
    button the other buttons of its group are unchecked. *)
Definition click (p : Path) (st : State) : State :=
  let d := document st in
  mkState (match resolve d p with
           | Some h =>
               if is_disabled d h then d
               else update (uncheck_all d (radio_group d h)) p activate
           | None => d
           end)
          (refMap st) (events st ++ [Click p]).

Definition fillTextInput (h : HTMLElement) (value : string) (st : State) : ActionResult * State :=
  let p := path h in
  (Ok,
   mkState (update (update (document st) p (set_value "")) p (set_value value))
           (refMap st)
           (events st ++ [Focus p; Assign p ""; Dispatch p "input"; NativeSet p value;
                          Dispatch p "input"; Dispatch p "change"; Dispatch p "blur"])).

(** The loop of [fillSelect]. [bestMatch] is an option object; it is kept
    with its index, which identifies it among the options. *)
Fixpoint findOption (valueLower : string) (opts : list OptionElement) (i : nat)
    (bestMatch : option (nat * OptionElement)) : option (nat * OptionElement) :=
  match opts with
  | [] => bestMatch
  | opt :: rest =>
      let optText := Js.toLowerCase (Js.trim (opt_text opt)) in
      let optValue := Js.toLowerCase (opt_value opt) in
      if bool_decide (optText = valueLower) || bool_decide (optValue = valueLower)
      then Some (i, opt)
      else if negb (bool_decide (is_Some bestMatch))
              && (Js.includes optText valueLower || Js.includes valueLower optText)
      then findOption valueLower rest (S i) (Some (i, opt))
      else findOption valueLower rest (S i) bestMatch
  end.

Definition available (opts : list OptionElement) : string :=
  Js.join ", " (map (fun o => Js.trim (opt_text o))
                    (filter (fun o => opt_value o <> "") opts)).

Definition fillSelect (h : HTMLElement) (value : string) (st : State) : ActionResult * State :=
  let valueLower := Js.trim (Js.toLowerCase value) in
  match findOption valueLower (options (self h)) 0 None with
  | None =>
      (Failure ("No matching option for " +:+ Js.dquote +:+ value +:+ Js.dquote
                +:+ ". Available: " +:+ available (options (self h))), st)
  | Some (_, bestMatch) =>
      let p := path h in
      (Ok,
       mkState (update (document st) p (set_select_value (opt_value bestMatch)))
               (refMap st)
               (events st ++ [Assign p (opt_value bestMatch); Dispatch p "change"]))
  end.

(** ['value' in el] for the elements that are neither input, select nor
    textarea: the HTML interfaces that declare a [value] property. *)
Definition has_value_property (e : Element) : bool :=
  bool_decide (tagName e ∈ ["BUTTON"; "OPTION"; "LI"; "DATA"; "METER"; "OUTPUT";
                            "PARAM"; "PROGRESS"]).

(** [el.value = value] throws on a [progress] and on a [meter]: their
    [value] is a [double], and the assignment of a string that is no
    finite number is a [TypeError]. No other call of the body throws. *)
Definition value_setter_throws (e : Element) (value : string) : bool :=
  bool_decide (tagName e ∈ ["METER"; "PROGRESS"]) && negb (Js.isFinite value).

(** [String(err)] for that error; the wording of the message is the
    engine's, here the one of Chromium. *)
Definition value_type_error (e : Element) : string :=
  "TypeError: Failed to set the 'value' property on '"
  +:+ (if bool_decide (tagName e = "METER") then "HTMLMeterElement" else "HTMLProgressElement")
  +:+ "': The provided double value is non-finite.".

(** The body of [fillFieldByRef] once [el] is known, with its [catch]. *)
Definition fillElement (h : HTMLElement) (value : string) (st : State) : ActionResult * State :=
  let e := self h in
  let p := path h in
  if isSelect e then fillSelect h value st
  else if isTextArea e then fillTextInput h value st
  else if isInput e then
    if bool_decide (el_type e = "checkbox") then
      let shouldCheck := Js.array_includes ["true"; "yes"; "1"] (Js.toLowerCase value) in
      (Ok, if negb (eqb (el_checked e) shouldCheck) then click p st else st)
    else if bool_decide (el_type e = "radio") then
      (Ok, if negb (el_checked e) then click p st else st)
    else if bool_decide (el_type e = "file") then
      (Failure "Cannot programmatically fill file inputs", st)
    else fillTextInput h value st
  else if has_value_property e then
    if value_setter_throws e value then (Failure (value_type_error e), st)
    else
      (Ok, mkState (update (document st) p (set_value value)) (refMap st)
             (events st ++ [Assign p value; Dispatch p "input"; Dispatch p "change"]))
  else (Failure ("Cannot fill element type: " +:+ tagName e), st).

(** [fillFieldByRef] and [clickElementByRef]. The table holds element
    objects; an entry whose element has left the document is an object
    the model has lost track of, and the functions answer [None] there. *)
Definition fillFieldByRef (ref value : string) (st : State) : option (ActionResult * State) :=
  match refMap st !! ref with
  | None => Some (Failure ("Element " +:+ ref +:+ " not found"), st)
  | Some p =>
      match resolve (document st) p with
      | Some h => Some (fillElement h value st)
      | None => None
      end
  end.

Definition clickElementByRef (ref : string) (st : State) : option (ActionResult * State) :=
  match refMap st !! ref with
  | None => Some (Failure ("Element " +:+ ref +:+ " not found"), st)
  | Some p =>
      match resolve (document st) p with
      | Some h => Some (Ok, click p st)
      | None => None
      end
  end.

End Scanner.

(** ** overlay-ui.ts: the question gate *)
Module Overlay.

(** What [showQuestion] leaves in [questionSection]: the heading, the text
    input with its current value, and the submit button; both listeners
    close over the [resolve] of the promise that call created, named here
    by the promise's number. *)
Record Prompt := mkPrompt {
  heading : string;
  input_value : string;
  gate : nat
}.

(** [questionSection] is empty ([innerHTML = '']) or holds one prompt.
    [resolved] lists the calls of a [resolve] function, oldest first. *)
Record State := mkState {
  questionSection : option Prompt;
  promises : nat;
  resolved : list (nat * string)
}.

Definition init : State := mkState None 0 [].

(** [showQuestion(question)]: the promise it returns, and the new panel. *)
Definition showQuestion (question : string) (st : State) : nat * State :=
  (promises st,
   mkState (Some (mkPrompt question "" (promises st))) (S (promises st)) (resolved st)).

(** The closure [submit] of the prompt on display. *)
Definition submit (st : State) : State :=
  match questionSection st with
  | Some pr =>
      let answer := Js.trim (input_value pr) in
      if Js.truthy answer
      then mkState None (promises st) (resolved st ++ [(gate pr, answer)])
      else st
  | None => st
  end.

(** What the human can do to the prompt: edit the input, press the submit
    button, press a key in the input. *)
Inductive UiEvent :=
| Edit (text : string)
| SubmitClick
| KeyDown (key : string).

Definition dispatch (ev : UiEvent) (st : State) : State :=
  match ev with
  | Edit text =>
      match questionSection st with
      | Some pr => mkState (Some (mkPrompt (heading pr) text (gate pr))) (promises st) (resolved st)
      | None => st
      end
  | SubmitClick => submit st
  | KeyDown key => if bool_decide (key = "Enter") then submit st else st
  end.

(** One step of the overlay's life: a call of [showQuestion] by the
    orchestrator, or an event from the human. *)
Inductive Step :=
| Ask (question : string)
| Ui (ev : UiEvent).

Definition step (s : Step) (st : State) : State :=
  match s with
  | Ask q => snd (showQuestion q st)
  | Ui ev => dispatch ev st
  end.

Definition run (ss : list Step) (st : State) : State :=
  foldl (fun st s => step s st) st ss.

(** The answers a promise was resolved with. *)
Definition answers (g : nat) (st : State) : list string :=
  (filter (fun r => r.1 = g) (resolved st)).*2.

(** A promise settles with the first value passed to its [resolve]. *)
Definition settled (g : nat) (st : State) : option string := head (answers g st).

End Overlay.

(** ** The background service worker: the session registry *)
Module Relay.

(** An [EventSource] made by [createStatusStream]: the session its URL
    names, the tab its handlers captured as [targetTabId], and whether
    [close()] was called on it. *)
Record EventSource := mkEventSource {
  es_session : string;
  es_tab : Z;
  es_closed : bool
}.

Record Session := mkSession {
  sessionId : string;
  eventSource : nat
}.

(** Requests to the backend and to the browser, in program order. *)
Inductive Effect :=
| TabsQuery
| StartAutofill
| StopAutofill (session_id : string)
| CreateStatusStream (session_id : string) (es : nat)
| Close (es : nat)
| SendStatus (tabId : Z) (status message : string).

(** [sessions] is the registry; [streams] holds every event source made
    so far, a new one taking the next index. *)
Record State := mkState {
  sessions : gmap Z Session;
  streams : list EventSource;
  effects : list Effect
}.

(** What the outside answers during one handler run: the id of the active
    tab ([activeTab?.id]) and the outcome of [startAutofill] (a session id,
    or the error it throws). A failing [stopAutofill] is swallowed by its
    [.catch], so its outcome plays no part. *)
Record World := mkWorld {
  activeTab : option Z;
  start_reply : string + string
}.

Inductive Response :=
| ROk
| RStarted (session_id : string)
| RError (error : string).

Inductive Message :=
| ACTIVATE
| STOP.

(** [!tabId] is false when the id is a non-zero number. *)
Definition truthy_tab (t : option Z) : option Z :=
  match t with
  | Some z => if decide (z = 0%Z) then None else Some z
  | None => None
  end.

Definition emit (e : Effect) (st : State) : State :=
  mkState (sessions st) (streams st) (effects st ++ [e]).

(** [es.close()] *)
Definition close (es : nat) (st : State) : State :=
  mkState (sessions st)
          (alter (fun s => mkEventSource (es_session s) (es_tab s) true) es (streams st))
          (effects st ++ [Close es]).

Definition sessions_delete (tabId : Z) (st : State) : State :=
  mkState (delete tabId (sessions st)) (streams st) (effects st).

(** [let tabId = sender.tab?.id; if (!tabId) { ...query...; tabId = activeTab?.id }] *)
Definition senderTab (sender_tab : option Z) (w : World) (st : State) : option Z * State :=
  match truthy_tab sender_tab with
  | Some t => (Some t, st)
  | None => (activeTab w, emit TabsQuery st)
  end.

(** The ACTIVATE case in one run, from the arrival of the message to the
    [return], every [await] settled at once by the world [w] and no other
    handler served in between. Its pieces, which the worker can
    alternate with the pieces of another run, are in module [Async]. *)
Definition handleActivate (sender_tab : option Z) (w : World) (st : State) : Response * State :=
  let '(tabId, st) := senderTab sender_tab w st in
  match truthy_tab tabId with
  | None => (RError "No tab ID", st)
  | Some tabId =>
      let st :=
        match sessions st !! tabId with
        | Some existing =>
            sessions_delete tabId
              (emit (StopAutofill (sessionId existing)) (close (eventSource existing) st))
        | None => st
        end in
      let st := emit StartAutofill st in
      match start_reply w with
      | inl session_id =>
          let es := length (streams st) in
          let st :=
            mkState (<[tabId := mkSession session_id es]> (sessions st))
                    (streams st ++ [mkEventSource session_id tabId false])
                    (effects st ++ [CreateStatusStream session_id es]) in
          (RStarted session_id, st)
      | inr error => (RError error, st)
      end
  end.

(** The STOP case, in one run as well. *)
Definition handleStop (sender_tab : option Z) (w : World) (st : State) : Response * State :=
  let '(tabId, st) := senderTab sender_tab w st in
  match truthy_tab tabId with
  | None => (RError "No tab ID", st)
  | Some tabId =>
      match sessions st !! tabId with
      | Some session =>
          let st := emit (StopAutofill (sessionId session)) st in
          let st := close (eventSource session) st in
          let st := sessions_delete tabId st in
          (ROk, emit (SendStatus tabId "stopped" "Stopped.") st)
      | None => (ROk, st)
      end
  end.

Definition handleMessage (m : Message) (sender_tab : option Z) (w : World) (st : State)
    : Response * State :=
  match m with
  | ACTIVATE => handleActivate sender_tab w st
  | STOP => handleStop sender_tab w st
  end.

(** [eventSource.onerror] of the stream [es]: it closes the stream and
    deletes the entry of the tab it captured. *)
Definition onerror (es : nat) (st : State) : State :=
  match streams st !! es with
  | Some s => sessions_delete (es_tab s) (close es st)
  | None => st
  end.

(** [chrome.tabs.onRemoved] *)
Definition onRemoved (tabId : Z) (st : State) : State :=
  match sessions st !! tabId with
  | Some session =>
      sessions_delete tabId
        (emit (StopAutofill (sessionId session)) (close (eventSource session) st))
  | None => st
  end.

(** Number of stop requests sent for a session id. *)
Definition is_stop_for (sid : string) (e : Effect) : bool :=
  match e with
  | StopAutofill s => bool_decide (s = sid)
  | _ => false
  end.

Definition stops_for (sid : string) (es : list Effect) : nat :=
  length (filter (fun e => is_stop_for sid e = true) es).

End Relay.

(** ** The ACTIVATE handler, piece by piece

    [handleMessage] is an [async] function: a run of its ACTIVATE case is
    suspended at [await chrome.tabs.query], at [await stopAutofill] and at
    [await startAutofill], and the worker serves other messages in the
    meantime. A piece is what runs between two of these points. *)
Module Async.
Import Relay.

(** Where a run is suspended, with the [tabId] it holds. *)
Inductive Task :=
| AwaitQuery
| AwaitStop (tabId : Z)
| AwaitStart (tabId : Z).

Inductive Outcome :=
| Done (r : Response)
| Suspended (k : Task).

(** From [const existing = sessions.get(tabId)] to the next [await]: the
    stream of an existing session is closed and the stop request is sent
    before the run is suspended; without one the start request is sent. *)
Definition teardown_or_start (tabId : Z) (st : State) : Outcome * State :=
  match sessions st !! tabId with
  | Some existing =>
      (Suspended (AwaitStop tabId),
       emit (StopAutofill (sessionId existing)) (close (eventSource existing) st))
  | None => (Suspended (AwaitStart tabId), emit StartAutofill st)
  end.

(** From [if (!tabId) return { error: 'No tab ID' }] on. *)
Definition with_tab (tabId : option Z) (st : State) : Outcome * State :=
  match truthy_tab tabId with
  | None => (Done (RError "No tab ID"), st)
  | Some t => teardown_or_start t st
  end.

(** The first piece, from the arrival of the message. *)
Definition begin (sender_tab : option Z) (st : State) : Outcome * State :=
  match truthy_tab sender_tab with
  | Some t => with_tab (Some t) st
  | None => (Suspended AwaitQuery, emit TabsQuery st)
  end.

(** What a suspended run is resumed with: the tabs the query found, the
    end of the stop request (a failure is swallowed by its [.catch]), the
    reply to the start request. *)
Inductive Answer :=
| Tabs (activeTab : option Z)
| Stopped
| Started (reply : string + string).

(** The piece that follows an [await]. [None] when the answer is not the
    one the run waits for. *)
Definition resume (k : Task) (a : Answer) (st : State) : option (Outcome * State) :=
  match k, a with
  | AwaitQuery, Tabs activeTab => Some (with_tab activeTab st)
  | AwaitStop tabId, Stopped =>
      Some (Suspended (AwaitStart tabId), emit StartAutofill (sessions_delete tabId st))
  | AwaitStart tabId, Started (inl session_id) =>
      let es := length (streams st) in
      Some (Done (RStarted session_id),
            mkState (<[tabId := mkSession session_id es]> (sessions st))
                    (streams st ++ [mkEventSource session_id tabId false])
                    (effects st ++ [CreateStatusStream session_id es]))
  | AwaitStart tabId, Started (inr error) => Some (Done (RError error), st)
  | _, _ => None
  end.

(** The answer the world of one run gives to a suspended run. *)
Definition answer (w : World) (k : Task) : Answer :=
  match k with
  | AwaitQuery => Tabs (activeTab w)
  | AwaitStop _ => Stopped
  | AwaitStart _ => Started (start_reply w)
  end.

(** A run that nothing interrupts: every piece follows the one before.
    A run has at most three [await]s. *)
Fixpoint finish (n : nat) (w : World) (o : Outcome) (st : State) : option (Response * State) :=
  match o with
  | Done r => Some (r, st)
  | Suspended k =>
      match n with
      | O => None
      | S n' =>
          match resume k (answer w k) st with
          | Some (o', st') => finish n' w o' st'
          | None => None
          end
      end
  end.

Definition run_alone (sender_tab : option Z) (w : World) (st : State)
    : option (Response * State) :=
  let '(o, st') := begin sender_tab st in finish 3 w o st'.

(** The worker with the runs of the handler it has started, each done or
    suspended. *)
Record System := mkSystem {
  worker : State;
  handlers : list Outcome
}.

(** What happens next: an ACTIVATE message arrives and its first piece
    runs, or the [await] of a suspended run is settled and its next piece
    runs. *)
Inductive Move :=
| Arrive (sender_tab : option Z)
| Settle (i : nat) (a : Answer).

Definition move (m : Move) (sys : System) : option System :=
  match m with
  | Arrive sender_tab =>
      let '(o, st) := begin sender_tab (worker sys) in
      Some (mkSystem st (handlers sys ++ [o]))
  | Settle i a =>
      match handlers sys !! i with
      | Some (Suspended k) =>
          match resume k a (worker sys) with
          | Some (o, st) => Some (mkSystem st (<[i := o]> (handlers sys)))
          | None => None
          end
      | _ => None
      end
  end.

Fixpoint play (ms : list Move) (sys : System) : option System :=
  match ms with
  | [] => Some sys
  | m :: ms' => move m sys ≫= play ms'
  end.

(** The streams that are open and were made for a tab. *)
Definition live (tabId : Z) (st : State) : list EventSource :=
  filter (fun s => es_tab s = tabId /\ es_closed s = false) (streams st).

(** Two ACTIVATE messages of one tab, the second arriving while the
    first run waits for the backend: both runs tear down, both start. *)
Definition overlapping (sender_tab : option Z) (first second : string) : list Move :=
  [Arrive sender_tab; Arrive sender_tab;
   Settle 0 Stopped; Settle 1 Stopped;
   Settle 0 (Started (inl first)); Settle 1 (Started (inl second))].

End Async.

(** ** Pages and states used in the examples *)
Module Fixtures.
Import Dom Scanner.

Definition shown : Layout := mkLayout false "" "block" "visible" "1" 120 24.

Definition input (type : string) (attrs : list (string * string)) (value : string)
    (checked : bool) : Element :=
  mkElement "INPUT" (("type", type) :: attrs) type value checked [] None shown.

Definition select (attrs : list (string * string)) (opts : list OptionElement)
    (sel : option nat) : Element :=
  mkElement "SELECT" attrs "select-one" "" false opts sel shown.

Definition textarea (attrs : list (string * string)) (value : string) : Element :=
  mkElement "TEXTAREA" attrs "textarea" value false [] None shown.

Definition button (attrs : list (string * string)) : Element :=
  mkElement "BUTTON" attrs "submit" "" false [] None shown.

Definition plain (tag : string) (attrs : list (string * string)) : Element :=
  mkElement tag attrs "" "" false [] None shown.

Definition page (body : list Node) : Document :=
  mkDocument "https://example.test/form" "Form"
    (ElementNode (plain "HTML" []) [ElementNode (plain "BODY" []) body]).

Definition fresh (d : Document) : State := mkState d ∅ [].

(** A label and its text input, a checkbox, a radio button, a checkbox
    that is already ticked, a select with a placeholder option and two
    states, and a button. *)
Definition form1 : Document :=
  page [ ElementNode (plain "LABEL" [("for", "e")]) [TextNode "Email"];
         ElementNode (input "text" [("id", "e")] "" false) [];
         ElementNode (input "checkbox" [("name", "agree")] "on" false) [];
         ElementNode (input "radio" [("name", "plan")] "pro" false) [];
         ElementNode (input "checkbox" [("name", "news")] "on" true) [];
         ElementNode (select [("name", "state")]
                        [mkOption "-- choose --" ""; mkOption "California" "CA";
                         mkOption "New York" "NY"] (Some 0%nat)) [];
         ElementNode (button []) [TextNode " Next "] ].

Definition email_handle : HTMLElement :=
  mkHTMLElement [0; 1]%nat (input "text" [("id", "e")] "" false) [].

(** The page state after one scan of [form1]. *)
Definition scanned1 : State := (scanPage (fresh form1)).2.

(** A select whose only option shows "Alpha" and carries the value "xyz". *)
Definition form_alpha : Document :=
  page [ ElementNode (select [] [mkOption "Alpha" "xyz"] (Some 0%nat)) [] ].

Definition scanned_alpha : State := (scanPage (fresh form_alpha)).2.

(** A lone textarea with a placeholder. *)
Definition notes_el : Element := textarea [("placeholder", "Notes")] "".

Definition form_notes : Document := page [ ElementNode notes_el [] ].

Definition notes_handle : HTMLElement := mkHTMLElement [0; 0]%nat notes_el [].

(** A text input named in camel case, next to nothing. *)
Definition named_el : Element := input "text" [("name", "firstName")] "" false.

Definition form_named : Document := page [ ElementNode named_el [] ].

Definition named_handle : HTMLElement := mkHTMLElement [0; 0]%nat named_el [].

(** A text input with a placeholder whose [for] label is blank. *)
Definition blank_el : Element := input "text" [("id", "x"); ("placeholder", "Email")] "" false.

Definition form_blank : Document :=
  page [ ElementNode (plain "LABEL" [("for", "x")]) [TextNode " "];
         ElementNode (plain "DIV" []) [ElementNode blank_el []] ].

Definition blank_handle : HTMLElement := mkHTMLElement [0; 1; 0]%nat blank_el [].

(** Tab 7 runs session "s-old" over the stream 0. *)
Definition relay7 : Relay.State :=
  Relay.mkState {[ 7%Z := Relay.mkSession "s-old" 0 ]}
                [Relay.mkEventSource "s-old" 7 false] [].

(** A page with two disabled checkboxes, the first unchecked, the second
    checked, and its state after one scan. *)
Definition form_disabled : Document :=
  page [ ElementNode (input "checkbox" [("name", "terms"); ("disabled", "")] "on" false) [];
         ElementNode (input "checkbox" [("name", "news"); ("disabled", "")] "on" true) [] ].

Definition scanned_disabled : State := (scanPage (fresh form_disabled)).2.

(** The backend answers the start request with a new session ... *)
Definition world_ok : Relay.World := Relay.mkWorld None (inl "s-new").

(** ... or cannot be reached. *)
Definition world_down : Relay.World :=
  Relay.mkWorld None (inr "TypeError: Failed to fetch").

End Fixtures.

(** ** The properties of the specification, as definitions *)
Module Spec.
Import Dom Scanner.

(** *** Choosing an option of a select *)

(** The candidate equals the option's display text or its underlying
    value, letter case apart. *)
Definition exact_match (valueLower : string) (o : OptionElement) : bool :=
  bool_decide (Js.toLowerCase (Js.trim (opt_text o)) = valueLower)
  || bool_decide (Js.toLowerCase (opt_value o) = valueLower).

(** The candidate and the display text: one contains the other. *)
Definition text_contains (valueLower : string) (o : OptionElement) : bool :=
  let optText := Js.toLowerCase (Js.trim (opt_text o)) in
  Js.includes optText valueLower || Js.includes valueLower optText.

(** The candidate and the display text or the underlying value: one
    contains the other. *)
Definition text_or_value_contains (valueLower : string) (o : OptionElement) : bool :=
  let optValue := Js.toLowerCase (opt_value o) in
  text_contains valueLower o
  || Js.includes optValue valueLower || Js.includes valueLower optValue.

(** The first exact match in document order, else the first option that
    passes the containment test [loose]. *)
Definition choose (loose : string -> OptionElement -> bool) (valueLower : string)
    (opts : list OptionElement) : option (nat * OptionElement) :=
  match list_find (fun o => exact_match valueLower o = true) opts with
  | Some r => Some r
  | None => list_find (fun o => loose valueLower o = true) opts
  end.

(** The failure of [fillSelect]. *)
Definition no_match_error (value : string) (opts : list OptionElement) : string :=
  "No matching option for " +:+ Js.dquote +:+ value +:+ Js.dquote +:+ ". Available: "
  +:+ Js.join ", " (map (fun o => Js.trim (opt_text o))
                        (filter (fun o => opt_value o <> "") opts)).

(** The select sentence as the specification has it, at one state,
    reference and value: containment is read on the display text or the
    underlying value, and the chosen option ends up selected. *)
Definition select_as_specified (st : State) (ref value : string) : Prop :=
  forall p h,
    getElementByRef st ref = Some p ->
    resolve (document st) p = Some h ->
    isSelect (self h) = true ->
    match choose text_or_value_contains (Js.trim (Js.toLowerCase value)) (options (self h)) with
    | Some (i, _) =>
        exists st', fillFieldByRef ref value st = Some (Ok, st')
                    /\ (selectedIndex ∘ self) <$> resolve (document st') p = Some (Some i)
    | None =>
        fst <$> fillFieldByRef ref value st
        = Some (Failure (no_match_error value (options (self h))))
    end.

(** *** Resolving a label *)

(** The seven sources of a label, each read as a text that may be empty. *)
Definition text_label_for (d : Document) (h : HTMLElement) : string :=
  if Js.truthy (el_id (self h)) then
    match querySelector d (sel_label_for (el_id (self h))) with
    | Some label => Js.trim (textContent_of label)
    | None => ""
    end
  else "".

Definition text_label_parent (d : Document) (h : HTMLElement) : string :=
  match closest d h sel_label with
  | Some parentLabel =>
      Js.trim (textContent (remove_matching sel_form_control
                              (ElementNode (self parentLabel) (childNodes parentLabel))))
  | None => ""
  end.

Definition text_aria_label (h : HTMLElement) : string :=
  match getAttribute (self h) "aria-label" with
  | Some a => Js.trim a
  | None => ""
  end.

Definition text_labelledby (d : Document) (h : HTMLElement) : string :=
  match getAttribute (self h) "aria-labelledby" with
  | Some i =>
      match getElementById d i with
      | Some labelEl => Js.trim (textContent_of labelEl)
      | None => ""
      end
  | None => ""
  end.

Definition text_previous_sibling (d : Document) (h : HTMLElement) : string :=
  match previousElementSibling d h with
  | Some prev =>
      let text := Js.trim (textContent_of prev) in
      if bool_decide (tagName (self prev) <> "INPUT")
         && bool_decide (tagName (self prev) <> "SELECT")
         && bool_decide (String.length text < 100)%nat
      then text else ""
  | None => ""
  end.

(** The name, underscores and hyphens turned into spaces, then a space
    put between a lower-case letter and the upper-case letter after it. *)
Definition words_of_name (name : string) : string :=
  Js.replace_camel (Js.replace_sep name).

(** The first text of a list that is not empty; the empty string if there
    is none. *)
Fixpoint first_text (l : list string) : string :=
  match l with
  | [] => ""
  | s :: l' => if Js.truthy s then s else first_text l'
  end.

(** The label as the specification has it: placeholder and name of the
    element, whatever the element is. *)
Definition label_as_specified (d : Document) (h : HTMLElement) : string :=
  first_text [ text_label_for d h; text_label_parent d h; text_aria_label h;
               text_labelledby d h; text_previous_sibling d h;
               el_placeholder (self h); words_of_name (el_name (self h)) ].

(** The label with the last two sources kept to input elements. *)
Definition label_input_only (d : Document) (h : HTMLElement) : string :=
  first_text [ text_label_for d h; text_label_parent d h; text_aria_label h;
               text_labelledby d h; text_previous_sibling d h;
               (if isInput (self h) then el_placeholder (self h) else "");
               (if isInput (self h) then words_of_name (el_name (self h)) else "") ].

(** A label found through [for] or through [aria-labelledby], and an
    [aria-label] that is present and not empty, carry some text. *)
Definition label_sources_have_text (d : Document) (h : HTMLElement) : Prop :=
  (Js.truthy (el_id (self h)) = true ->
   is_Some (querySelector d (sel_label_for (el_id (self h)))) ->
   text_label_for d h <> "")
  /\ (forall a, getAttribute (self h) "aria-label" = Some a -> a <> "" -> Js.trim a <> "")
  /\ (forall i, getAttribute (self h) "aria-labelledby" = Some i ->
               is_Some (getElementById d i) -> text_labelledby d h <> "").

(** *** The reference table *)

(** The references [pre0], [pre1], ... handed out by a counter that starts
    at [idx] and is used [n] times. *)
Definition seq_refs (pre : string) (idx n : nat) : list string :=
  (fun k => pre +:+ Js.num k) <$> seq idx n.

(** The table after the elements [ps] were entered under those names. *)
Fixpoint assign (pre : string) (idx : nat) (ps : list Path) (rm : gmap string Path)
    : gmap string Path :=
  match ps with
  | [] => rm
  | p :: ps' => assign pre (S idx) ps' (<[pre +:+ Js.num idx := p]> rm)
  end.

(** The elements each loop of the scan keeps. *)
Definition kept_fields (d : Document) : list HTMLElement :=
  filter (fun h => negb (isVisible (self h)) || isHiddenInput (self h) = false)
         (querySelectorAll d sel_form_control).

Definition kept_buttons (d : Document) : list HTMLElement :=
  filter (fun h => negb (isVisible (self h)) || negb (Js.truthy (getButtonText h)) = false)
         (querySelectorAll d sel_button).

Definition kept_links (d : Document) : list HTMLElement :=
  filter (fun h => negb (isVisible (self h))
                   || negb (Js.truthy (Js.trim (textContent_of h))) = false)
         (querySelectorAll d sel_link_button).

(** All references of a snapshot. *)
Definition snapshot_refs (snap : PageSnapshot) : list string :=
  ((f_ref <$> fields snap) ++ (b_ref <$> buttons snap))%list.

(** The scan sentence as the specification has it, for a first scan from
    [st] and a second scan from [st1], a state that still has the table
    the first scan left: no reference of the first snapshot resolves
    after the second scan. *)
Definition rescan_as_specified (st st1 : State) : Prop :=
  refMap st1 = refMap (scanPage st).2 ->
  forall ref,
    ref ∈ snapshot_refs (scanPage st).1 ->
    getElementByRef (scanPage st1).2 ref = None.

(** A test that returns its text when the text is not empty. *)
Definition returns_text (step : option string) (text : string) : Prop :=
  step = if Js.truthy text then Some text else None.

(** *** The question gate *)

(** The human submits: the button is pressed, or Enter is pressed in the
    input. *)
Definition is_submit (s : Overlay.Step) : Prop :=
  s = Overlay.Ui Overlay.SubmitClick \/ s = Overlay.Ui (Overlay.KeyDown "Enter").

(** What every reachable state of the overlay satisfies: no promise was
    resolved twice, every resolved promise was handed out, and the promise
    of the prompt on display was handed out and is still pending. *)
Definition gate_invariant (st : Overlay.State) : Prop :=
  NoDup (Overlay.resolved st).*1
  /\ (forall g, g ∈ (Overlay.resolved st).*1 -> (g < Overlay.promises st)%nat)
  /\ (forall pr, Overlay.questionSection st = Some pr ->
                 (Overlay.gate pr < Overlay.promises st)%nat
                 /\ Overlay.gate pr ∉ (Overlay.resolved st).*1).

(** A promise that was handed out, is still pending, and is not the one
    of the prompt on display: its prompt was replaced by a later call of
    [showQuestion]. *)
Definition abandoned (g : nat) (st : Overlay.State) : Prop :=
  (g < Overlay.promises st)%nat
  /\ (g ∉ (Overlay.resolved st).*1)
  /\ (forall pr, Overlay.questionSection st = Some pr -> Overlay.gate pr <> g).

(** The answer sentence as the specification has it, at one state of the
    overlay: a submit of text that is not blank resolves the promise with
    the text as the human left it in the input. *)
Definition answer_as_specified (st : Overlay.State) : Prop :=
  forall pr,
    Overlay.questionSection st = Some pr ->
    Js.trim (Overlay.input_value pr) <> "" ->
    Overlay.settled (Overlay.gate pr) (Overlay.dispatch Overlay.SubmitClick st)
    = Some (Overlay.input_value pr).

(** *** Checkboxes *)

(** The checkbox sentence as the specification has it, for one fill: on
    a checkbox, a value that is true, yes or 1 up to letter case leaves
    the box checked. *)
Definition checkbox_as_specified (st : State) (ref value : string) : Prop :=
  forall p h,
    getElementByRef st ref = Some p ->
    resolve (document st) p = Some h ->
    isInput (self h) = true ->
    el_type (self h) = "checkbox" ->
    Js.toLowerCase value ∈ ["true"; "yes"; "1"] ->
    exists st',
      fillFieldByRef ref value st = Some (Ok, st')
      /\ (el_checked ∘ self) <$> resolve (document st') p = Some true.

(** The uncheck sentence as the specification has it, for one fill: on a
    checkbox, a value that is none of the three leaves the box
    unchecked. *)
Definition uncheck_as_specified (st : State) (ref value : string) : Prop :=
  forall p h,
    getElementByRef st ref = Some p ->
    resolve (document st) p = Some h ->
    isInput (self h) = true ->
    el_type (self h) = "checkbox" ->
    Js.toLowerCase value ∉ ["true"; "yes"; "1"] ->
    exists st',
      fillFieldByRef ref value st = Some (Ok, st')
      /\ (el_checked ∘ self) <$> resolve (document st') p = Some false.

(** *** The session registry *)

(** The activation sentence as the specification has it, for one request:
    when the tab has a session, the tab has an entry afterwards and the
    entry carries the id of the session just started. *)
Definition activate_as_specified (sender_tab : option Z) (w : Relay.World)
    (st : Relay.State) : Prop :=
  forall t old,
    Relay.truthy_tab (Relay.senderTab sender_tab w st).1 = Some t ->
    Relay.sessions st !! t = Some old ->
    exists new,
      Relay.sessions (Relay.handleMessage Relay.ACTIVATE sender_tab w st).2 !! t = Some new
      /\ Relay.handleMessage Relay.ACTIVATE sender_tab w st
         = (Relay.RStarted (Relay.sessionId new),
            (Relay.handleMessage Relay.ACTIVATE sender_tab w st).2).

End Spec.

(** ** What a scan reports and what a fill leaves, as definitions *)
Module Laws.
Import Dom Scanner Spec.

(** The entry of the [k]-th kept form control, button and link. *)
Definition field_entry (d : Document) (k : nat) (h : HTMLElement) : ScannedField :=
  scanField d ("f" +:+ Js.num k) h.

Definition button_entry (k : nat) (h : HTMLElement) : ScannedButton :=
  mkScannedButton ("b" +:+ Js.num k) (getButtonText h)
    (if isButton (self h) then Js.or_else (el_type (self h)) "button" else "button").

Definition link_entry (k : nat) (h : HTMLElement) : ScannedButton :=
  mkScannedButton ("b" +:+ Js.num k) (Js.trim (textContent_of h)) "link".

(** The snapshot of a document: one field per kept form control, one
    button per kept button, then one per kept link, numbered in document
    order. *)
Definition snapshot_of (d : Document) : PageSnapshot :=
  mkPageSnapshot (location_href d) (title d)
    (imap (field_entry d) (kept_fields d))
    (imap button_entry (kept_buttons d)
     ++ imap (fun k => link_entry (length (kept_buttons d) + k)) (kept_links d))%list.

(** The element object at a path, without its children. *)
Definition element_at (d : Document) (p : Path) : option Element :=
  self <$> resolve d p.

(** [l1] is an initial part of [l2]. *)
Definition extends {A} (l1 l2 : list A) : Prop := exists l, l2 = (l1 ++ l)%list.

(** The element of the node at a path, if that node is an element. *)
Definition node_self (q : Path) (n : Node) : option Element :=
  match node_at q n with
  | Some (ElementNode e _) => Some e
  | _ => None
  end.

(** Every entry of the table names an element of the document. *)
Definition table_valid (st : State) : Prop :=
  forall ref p, refMap st !! ref = Some p -> is_Some (resolve (document st) p).

(** The commands the executor serves; the result is [None] if a command
    meets an entry whose element is gone. *)
Inductive Action :=
| Fill (ref value : string)
| ClickRef (ref : string).

Definition perform (a : Action) (st : State) : option (ActionResult * State) :=
  match a with
  | Fill ref value => fillFieldByRef ref value st
  | ClickRef ref => clickElementByRef ref st
  end.

(** [st'] comes from [st] by writes to the element at [p] only: the table
    is the same, the trace of events is extended, every other element
    object is as it was, and the document has the same elements. *)
Definition touches (p : Path) (st st' : State) : Prop :=
  refMap st' = refMap st
  /\ extends (events st) (events st')
  /\ (forall q, q <> p -> element_at (document st') q = element_at (document st) q)
  /\ (forall q, is_Some (resolve (document st') q) <-> is_Some (resolve (document st) q)).

(** [st'] comes from [st] by writes to elements: the table is the same,
    the trace of events is extended, and the document has the same
    elements. *)
Definition keeps (st st' : State) : Prop :=
  refMap st' = refMap st
  /\ extends (events st) (events st')
  /\ (forall q, is_Some (resolve (document st') q) <-> is_Some (resolve (document st) q)).

Definition action_ref (a : Action) : string :=
  match a with
  | Fill ref _ => ref
  | ClickRef ref => ref
  end.

End Laws.

(** ** More pages for the examples *)
Module Pages.
Import Dom Scanner.

(** A file input and a [div] that plays a button. *)
Definition form_upload : Document :=
  Fixtures.page
    [ ElementNode (Fixtures.input "file" [("name", "resume")] "" false) [];
      ElementNode (Fixtures.plain "DIV" [("role", "button")]) [TextNode "Go"] ].

Definition scanned_upload : State := (scanPage (Fixtures.fresh form_upload)).2.

Definition upload_handle : HTMLElement :=
  mkHTMLElement [0; 0]%nat (Fixtures.input "file" [("name", "resume")] "" false) [].

Definition state_select : Element :=
  Fixtures.select [("name", "state")]
    [mkOption "-- choose --" ""; mkOption "California" "CA"; mkOption "New York" "NY"]
    (Some 0%nat).

Definition state_handle : HTMLElement := mkHTMLElement [0; 5]%nat state_select [].

(** A progress bar that a page offers as a button. *)
Definition form_progress : Document :=
  Fixtures.page [ ElementNode (Fixtures.plain "PROGRESS" [("role", "button")])
                    [TextNode "Loading"] ].

Definition scanned_progress : State := (scanPage (Fixtures.fresh form_progress)).2.

Definition progress_handle : HTMLElement :=
  mkHTMLElement [0; 0]%nat (Fixtures.plain "PROGRESS" [("role", "button")]) [TextNode "Loading"].

End Pages.

(** ** overlay-ui.ts: the panel around the question gate *)
Module Panel.

Inductive OverlayStatus := idle | running | waiting | done | error | stopped.

(** The icons are single characters outside ASCII; they are kept as code
    points: U+25CB, U+25CE, U+25D4, U+25CF, U+25C6, U+25A0. *)
Definition statusIconFor (status : OverlayStatus) : N :=
  match status with
  | idle => 9675 | running => 9678 | waiting => 9684
  | done => 9679 | error => 9670 | stopped => 9632
  end%N.

Definition defaultMessageFor (status : OverlayStatus) : string :=
  match status with
  | idle => "Ready." | running => "Working..." | waiting => "Waiting for your answer..."
  | done => "Done!" | error => "Error." | stopped => "Stopped."
  end.

(** The parts of the panel the methods write: the minimize flag and
    button, the status line, the two controls, the body, and the question
    section with the promises of [showQuestion]. A [display] that was
    never set is the empty string. *)
Record Overlay := mkOverlay {
  mounted : bool;
  minimized : bool;
  minimizeBtn_text : N;
  minimizeBtn_title : string;
  statusIcon : N;
  statusText : string;
  autoFillBtn_disabled : bool;
  autoFillBtn_display : string;
  stopBtn_display : string;
  bodySection_display : string;
  questions : Overlay.State
}.

(** [new ClerkBotOverlay()]: what [buildUI] leaves. The minus of the
    minimize button is U+2013. *)
Definition create : Overlay :=
  mkOverlay false false 8211%N "Minimize" (statusIconFor idle) (defaultMessageFor idle)
            false "" "none" "" Overlay.init.

Definition mount (o : Overlay) : Overlay :=
  mkOverlay true (minimized o) (minimizeBtn_text o) (minimizeBtn_title o) (statusIcon o)
            (statusText o) (autoFillBtn_disabled o) (autoFillBtn_display o) (stopBtn_display o)
            (bodySection_display o) (questions o).

(** [setStatus(status, message?)]: [message ?? defaultMessageFor(status)]
    keeps every message that is given, the empty one too. *)
Definition setStatus (status : OverlayStatus) (message : option string) (o : Overlay) : Overlay :=
  let isActive := match status with running | waiting => true | _ => false end in
  mkOverlay (mounted o) (minimized o) (minimizeBtn_text o) (minimizeBtn_title o)
            (statusIconFor status)
            (match message with Some m => m | None => defaultMessageFor status end)
            isActive
            (if isActive then "none" else "block")
            (if isActive then "block" else "none")
            (bodySection_display o) (questions o).

(** [toggleMinimize()]; the plus sign is U+002B. *)
Definition toggleMinimize (o : Overlay) : Overlay :=
  let m := negb (minimized o) in
  mkOverlay (mounted o) m (if m then 43%N else 8211%N) (if m then "Expand" else "Minimize")
            (statusIcon o) (statusText o) (autoFillBtn_disabled o) (autoFillBtn_display o)
            (stopBtn_display o) (if m then "none" else "block") (questions o).

Definition with_questions (q : Overlay.State) (o : Overlay) : Overlay :=
  mkOverlay (mounted o) (minimized o) (minimizeBtn_text o) (minimizeBtn_title o) (statusIcon o)
            (statusText o) (autoFillBtn_disabled o) (autoFillBtn_display o) (stopBtn_display o)
            (bodySection_display o) q.

(** [showQuestion(question)] on the panel: the promise and the new panel. *)
Definition showQuestion (question : string) (o : Overlay) : nat * Overlay :=
  let '(promise, q) := Overlay.showQuestion question (questions o) in
  (promise, with_questions q o).

(** What happens to a panel: the calls of its methods and the events of
    the question section. *)
Inductive Op :=
| SetStatus (status : OverlayStatus) (message : option string)
| ToggleMinimize
| ShowQuestion (question : string)
| Human (ev : Overlay.UiEvent).

Definition apply (op : Op) (o : Overlay) : Overlay :=
  match op with
  | SetStatus status message => setStatus status message o
  | ToggleMinimize => toggleMinimize o
  | ShowQuestion question => (showQuestion question o).2
  | Human ev => with_questions (Overlay.dispatch ev (questions o)) o
  end.

Definition apply_all (ops : list Op) (o : Overlay) : Overlay :=
  foldl (fun o op => apply op o) o ops.

(** The status a panel shows is an active one: the stop control is on
    display and the auto-fill control is hidden and disabled. *)
Definition shows_stop (o : Overlay) : Prop :=
  stopBtn_display o = "block" /\ autoFillBtn_display o = "none"
  /\ autoFillBtn_disabled o = true.

(** The auto-fill control is on display and enabled, the stop control is
    hidden. *)
Definition shows_autofill (o : Overlay) : Prop :=
  stopBtn_display o = "none" /\ autoFillBtn_display o <> "none"
  /\ autoFillBtn_disabled o = false.

(** The last status set by a run of operations, [idle] if none was. *)
Definition last_status (ops : list Op) : OverlayStatus :=
  foldl (fun s op => match op with SetStatus s' _ => s' | _ => s end) idle ops.

(** The question steps among a run of operations, and the number of
    presses of the minimize button. *)
Definition gate_steps (ops : list Op) : list Overlay.Step :=
  omap (fun op => match op with
                  | ShowQuestion q => Some (Overlay.Ask q)
                  | Human ev => Some (Overlay.Ui ev)
                  | _ => None
                  end) ops.

Definition is_toggle (op : Op) : bool :=
  match op with ToggleMinimize => true | _ => false end.

Definition toggles (ops : list Op) : nat :=
  length (filter (fun op => is_toggle op = true) ops).

End Panel.

(** ** The content script: commands in, reports out *)
Module Orchestrator.
Import Panel.

(** The messages the content script is sent, by their [type]; [OTHER] is
    any type the [switch] has no case for. *)
Inductive Command :=
| SET_STATUS (status : OverlayStatus) (message : option string)
| SCAN_PAGE (sessionId : string)
| FILL_FIELD (ref value sessionId : string)
| CLICK_ELEMENT (ref sessionId : string)
| ASK_HUMAN (question sessionId : string)
| OTHER (type : string).

(** The messages it sends with [chrome.runtime.sendMessage]. *)
Inductive Outgoing :=
| ACTIVATE
| STOP
| PAGE_DATA (sessionId : string) (data : Scanner.PageSnapshot)
| ACTION_RESULT (sessionId : string) (result : Scanner.ActionResult)
| ANSWER_HUMAN (sessionId answer : string).

(** What a handler answers: [{ok: true}], [{error}], or nothing yet, the
    handler waiting for the promise of a question. *)
Inductive Reply :=
| ReplyOk
| ReplyError (error : string)
| Awaiting (promise : nat).

(** [overlay] is [null] until a command needs it; [asking] lists the
    handlers suspended at [await showQuestion], each with the promise it
    waits for and the session id it will report with. *)
Record State := mkState {
  overlay : option Overlay;
  page : Scanner.State;
  sent : list Outgoing;
  asking : list (nat * string)
}.

Definition start (d : Dom.Document) : State :=
  mkState None (Scanner.mkState d ∅ []) [] [].

(** [ensureOverlay()]: the overlay, made and mounted at the first call.
    Its host element sits in a closed shadow root at the end of the body
    and matches none of the scanner's selectors; the document model
    leaves it out. *)
Definition ensureOverlay (st : State) : Overlay :=
  match overlay st with
  | Some o => o
  | None => mount create
  end.

Definition handleCommand (c : Command) (st : State) : option (Reply * State) :=
  match c with
  | SET_STATUS status msg =>
      Some (ReplyOk,
            mkState (Some (setStatus status msg (ensureOverlay st))) (page st) (sent st)
                    (asking st))
  | SCAN_PAGE sessionId =>
      let o := setStatus running (Some "Scanning form fields...") (ensureOverlay st) in
      let '(snapshot, pg) := Scanner.scanPage (page st) in
      Some (ReplyOk,
            mkState (Some o) pg (sent st ++ [PAGE_DATA sessionId snapshot]) (asking st))
  | FILL_FIELD ref value sessionId =>
      let o := setStatus running (Some ("Filling " +:+ ref +:+ "...")) (ensureOverlay st) in
      match Scanner.fillFieldByRef ref value (page st) with
      | Some (result, pg) =>
          Some (ReplyOk,
                mkState (Some o) pg (sent st ++ [ACTION_RESULT sessionId result]) (asking st))
      | None => None
      end
  | CLICK_ELEMENT ref sessionId =>
      let o := setStatus running (Some ("Clicking " +:+ ref +:+ "...")) (ensureOverlay st) in
      match Scanner.clickElementByRef ref (page st) with
      | Some (result, pg) =>
          Some (ReplyOk,
                mkState (Some o) pg (sent st ++ [ACTION_RESULT sessionId result]) (asking st))
      | None => None
      end
  | ASK_HUMAN question sessionId =>
      let '(promise, o) := showQuestion question (ensureOverlay st) in
      Some (Awaiting promise,
            mkState (Some o) (page st) (sent st) (asking st ++ [(promise, sessionId)]))
  | OTHER type => Some (ReplyError ("Unknown command: " +:+ type), st)
  end.

(** The session id of the handler that waits for a promise. *)
Fixpoint waiting_session (asks : list (nat * string)) (promise : nat) : option string :=
  match asks with
  | [] => None
  | (g, sid) :: asks' => if decide (g = promise) then Some sid else waiting_session asks' promise
  end.

(** The handler that waits for [promise] goes on with [answer]. *)
Definition resume (asks : list (nat * string)) (r : nat * string) : list Outgoing :=
  match waiting_session asks r.1 with
  | Some sid => [ANSWER_HUMAN sid r.2]
  | None => []
  end.

(** What the human does to the mounted panel. A button that is disabled
    or not on display takes no click. *)
Inductive HumanAct :=
| PressAutoFill
| PressStop
| PressMinimize
| Question (ev : Overlay.UiEvent).

Definition human (a : HumanAct) (st : State) : State :=
  match overlay st with
  | None => st
  | Some o =>
      match a with
      | PressAutoFill =>
          if negb (autoFillBtn_disabled o) && negb (bool_decide (autoFillBtn_display o = "none"))
          then mkState (overlay st) (page st) (sent st ++ [ACTIVATE]) (asking st)
          else st
      | PressStop =>
          if negb (bool_decide (stopBtn_display o = "none"))
          then mkState (overlay st) (page st) (sent st ++ [STOP]) (asking st)
          else st
      | PressMinimize => mkState (Some (toggleMinimize o)) (page st) (sent st) (asking st)
      | Question ev =>
          let q := Overlay.dispatch ev (questions o) in
          let resolved_now := drop (length (Overlay.resolved (questions o))) (Overlay.resolved q) in
          mkState (Some (with_questions q o)) (page st)
                  (sent st ++ concat (map (resume (asking st)) resolved_now))
                  (asking st)
      end
  end.

Inductive Input :=
| Cmd (c : Command)
| Act (a : HumanAct).

Definition step (i : Input) (st : State) : option State :=
  match i with
  | Cmd c => snd <$> handleCommand c st
  | Act a => Some (human a st)
  end.

Fixpoint run (ins : list Input) (st : State) : option State :=
  match ins with
  | [] => Some st
  | i :: ins' => step i st ≫= run ins'
  end.

(** The report a command owes: its kind and its session id. *)
Inductive Tag :=
| TPageData (sessionId : string)
| TActionResult (sessionId : string)
| TAnswer (sessionId : string)
| TControl.

Definition tag_of (m : Outgoing) : Tag :=
  match m with
  | PAGE_DATA sid _ => TPageData sid
  | ACTION_RESULT sid _ => TActionResult sid
  | ANSWER_HUMAN sid _ => TAnswer sid
  | ACTIVATE | STOP => TControl
  end.

Definition owed (c : Command) : list Tag :=
  match c with
  | SCAN_PAGE sid => [TPageData sid]
  | FILL_FIELD _ _ sid => [TActionResult sid]
  | CLICK_ELEMENT _ sid => [TActionResult sid]
  | _ => []
  end.

(** The answers sent so far: session id and text. *)
Definition answers_sent (st : State) : list (string * string) :=
  omap (fun m => match m with ANSWER_HUMAN sid a => Some (sid, a) | _ => None end) (sent st).

(** The question state of the overlay, the first one if there is no
    overlay yet. *)
Definition gate (st : State) : Overlay.State :=
  match overlay st with
  | Some o => questions o
  | None => Overlay.init
  end.

(** The asks are numbered as the promises are: the k-th handler waits for
    promise k, and there is one handler per promise. *)
Definition asks_in_step (st : State) : Prop :=
  (asking st).*1 = seq 0 (Overlay.promises (gate st)).

(** The answer the handler waiting for a resolved promise sends. *)
Definition answer_for (asks : list (nat * string)) (r : nat * string) : option (string * string) :=
  (fun sid => (sid, r.2)) <$> waiting_session asks r.1.

Definition is_report (t : Tag) : bool :=
  match t with
  | TPageData _ | TActionResult _ => true
  | _ => false
  end.

(** The page data and action results sent so far, by kind and session. *)
Definition reports (st : State) : list Tag :=
  filter (fun t => is_report t = true) (tag_of <$> sent st).

Definition owed_input (i : Input) : list Tag :=
  match i with
  | Cmd c => owed c
  | Act _ => []
  end.

(** What holds of the content script between two inputs. *)
Definition consistent (st : State) : Prop :=
  Laws.table_valid (page st)
  /\ asks_in_step st
  /\ Spec.gate_invariant (gate st)
  /\ Some <$> answers_sent st = answer_for (asking st) <$> Overlay.resolved (gate st).

End Orchestrator.

(** ** The background worker as a whole: its events, the relay of stream
    events to the page and the way back to the backend *)
Module Bridge.

(** What wakes the worker: a message of a page or of the popup, the error
    event of a stream, the removal of a tab. A handler is taken to run to
    its end before the next event is handled. *)
Inductive Event :=
| Request (m : Relay.Message) (sender_tab : option Z) (w : Relay.World)
| StreamError (es : nat)
| TabRemoved (tabId : Z).

Definition close_stream (s : Relay.EventSource) : Relay.EventSource :=
  Relay.mkEventSource (Relay.es_session s) (Relay.es_tab s) true.

(** An event source fires its handlers until [close()] is called on it. *)
Definition is_open (es : nat) (st : Relay.State) : bool :=
  match Relay.streams st !! es with
  | Some s => negb (Relay.es_closed s)
  | None => false
  end.

Definition step (ev : Event) (st : Relay.State) : Relay.State :=
  match ev with
  | Request m sender_tab w => (Relay.handleMessage m sender_tab w st).2
  | StreamError es => if is_open es st then Relay.onerror es st else st
  | TabRemoved tabId => Relay.onRemoved tabId st
  end.

Definition run (evs : list Event) (st : Relay.State) : Relay.State :=
  foldl (fun st ev => step ev st) st evs.

(** The worker as [defineBackground] starts it. *)
Definition init : Relay.State := Relay.mkState ∅ [] [].

(** The tab an event is about, if it is about one. *)
Definition target (ev : Event) (st : Relay.State) : option Z :=
  match ev with
  | Request _ sender_tab w => Relay.truthy_tab (Relay.senderTab sender_tab w st).1
  | StreamError es => if is_open es st then Relay.es_tab <$> Relay.streams st !! es else None
  | TabRemoved tabId => Some tabId
  end.

(** Every entry of the registry names an open stream that was made for
    its tab and its session ... *)
Definition registered_open (st : Relay.State) : Prop :=
  forall t s, Relay.sessions st !! t = Some s ->
    Relay.streams st !! Relay.eventSource s
    = Some (Relay.mkEventSource (Relay.sessionId s) t false).

(** ... and every open stream is the one of its tab's entry. *)
Definition open_registered (st : Relay.State) : Prop :=
  forall i e, Relay.streams st !! i = Some e -> Relay.es_closed e = false ->
    Relay.sessions st !! Relay.es_tab e = Some (Relay.mkSession (Relay.es_session e) i).

Definition well_formed (st : Relay.State) : Prop :=
  registered_open st /\ open_registered st.

(** The open streams, by index. *)
Definition open_streams (st : Relay.State) : list nat :=
  filter (fun i => is_open i st = true) (seq 0 (length (Relay.streams st))).

(** The parsed [data] of a stream message, by [data.type]; [status_event]
    stands for every type the [switch] has no case for. The fields the
    relay casts to [string] are strings here; [state] and [message] of a
    status event may be missing. *)
Inductive ServerEvent :=
| scan_request
| fill_field (ref value : string)
| click_element (ref : string)
| ask_human (message : string) (field_context : option string)
| status_event (state message : option string).

(** What [statusMap[key]] evaluates to: one of the six statuses for an own
    key, a member of [Object.prototype] for the names every object
    inherits, [undefined] otherwise. *)
Inductive StatusValue :=
| Known (status : Panel.OverlayStatus)
| Inherited (key : string).

Definition own_status (key : string) : option Panel.OverlayStatus :=
  if decide (key = "running") then Some Panel.running
  else if decide (key = "waiting_for_human") then Some Panel.waiting
  else if decide (key = "done") then Some Panel.done
  else if decide (key = "error") then Some Panel.error
  else if decide (key = "stopped") then Some Panel.stopped
  else if decide (key = "idle") then Some Panel.idle
  else None.

Definition object_prototype : list string :=
  ["constructor"; "hasOwnProperty"; "isPrototypeOf"; "propertyIsEnumerable";
   "toLocaleString"; "toString"; "valueOf"; "__proto__";
   "__defineGetter__"; "__defineSetter__"; "__lookupGetter__"; "__lookupSetter__"].

Definition statusMap (key : string) : option StatusValue :=
  match own_status key with
  | Some s => Some (Known s)
  | None => if decide (key ∈ object_prototype) then Some (Inherited key) else None
  end.

(** [statusMap[data.state as string] ?? 'running']; a missing state is the
    key ["undefined"]. *)
Definition status_of (state : option string) : StatusValue :=
  default (Known Panel.running) (statusMap (default "undefined" state)).

(** The messages the relay sends to a tab. *)
Inductive TabMessage :=
| SCAN_PAGE (sessionId : string)
| FILL_FIELD (ref value sessionId : string)
| CLICK_ELEMENT (ref sessionId : string)
| ASK_HUMAN (question : string) (field_context : option string) (sessionId : string)
| SET_STATUS (status : StatusValue) (message : option string).

(** [relayEventToContentScript(tabId, data)]: the tab and the message of
    its one [chrome.tabs.sendMessage]. *)
Definition relayEventToContentScript (tabId : Z) (data : ServerEvent) (st : Relay.State)
    : Z * TabMessage :=
  let sessionId := default "" (Relay.sessionId <$> Relay.sessions st !! tabId) in
  (tabId,
   match data with
   | scan_request => SCAN_PAGE sessionId
   | fill_field ref value => FILL_FIELD ref value sessionId
   | click_element ref => CLICK_ELEMENT ref sessionId
   | ask_human message field_context => ASK_HUMAN message field_context sessionId
   | status_event state message => SET_STATUS (status_of state) message
   end).

(** [eventSource.onmessage] of the stream [es], with the data parsed: the
    relay is called with the tab the stream was made for. A stream that
    does not exist or is closed delivers nothing. *)
Definition onmessage (es : nat) (data : ServerEvent) (st : Relay.State)
    : option (Z * TabMessage) :=
  match Relay.streams st !! es with
  | Some s =>
      if Relay.es_closed s then None
      else Some (relayEventToContentScript (Relay.es_tab s) data st)
  | None => None
  end.

(** The message as the content script's [handleCommand] reads it. A
    status that is no status is left to the panel and not followed here. *)
Definition deliver (m : TabMessage) : option Orchestrator.Command :=
  match m with
  | SCAN_PAGE sid => Some (Orchestrator.SCAN_PAGE sid)
  | FILL_FIELD ref value sid => Some (Orchestrator.FILL_FIELD ref value sid)
  | CLICK_ELEMENT ref sid => Some (Orchestrator.CLICK_ELEMENT ref sid)
  | ASK_HUMAN question _ sid => Some (Orchestrator.ASK_HUMAN question sid)
  | SET_STATUS (Known s) message => Some (Orchestrator.SET_STATUS s message)
  | SET_STATUS (Inherited _) _ => None
  end.

(** The requests of [backendClient] that carry a session id in their body. *)
Inductive BackendRequest :=
| answerQuestion (sessionId answer : string)
| sendPageData (sessionId : string) (data : Scanner.PageSnapshot)
| sendActionResult (sessionId : string) (result : Scanner.ActionResult).

(** The cases ['ANSWER_HUMAN'], ['PAGE_DATA'] and ['ACTION_RESULT'] of the
    worker's [handleMessage]: the payload goes to the backend as it is. *)
Definition forward (m : Orchestrator.Outgoing) : option BackendRequest :=
  match m with
  | Orchestrator.ANSWER_HUMAN sid answer => Some (answerQuestion sid answer)
  | Orchestrator.PAGE_DATA sid data => Some (sendPageData sid data)
  | Orchestrator.ACTION_RESULT sid result => Some (sendActionResult sid result)
  | Orchestrator.ACTIVATE | Orchestrator.STOP => None
  end.

Definition session_id (r : BackendRequest) : string :=
  match r with
  | answerQuestion sid _ | sendPageData sid _ | sendActionResult sid _ => sid
  end.

(** The session id in the payload of a command. *)
Definition session_of (c : Orchestrator.Command) : option string :=
  match c with
  | Orchestrator.SCAN_PAGE sid | Orchestrator.FILL_FIELD _ _ sid
  | Orchestrator.CLICK_ELEMENT _ sid | Orchestrator.ASK_HUMAN _ sid => Some sid
  | Orchestrator.SET_STATUS _ _ | Orchestrator.OTHER _ => None
  end.

Definition is_status (data : ServerEvent) : bool :=
  match data with
  | status_event _ _ => true
  | _ => false
  end.

(** The requests to the backend that the messages a content script sent
    from position [n] on are forwarded as. *)
Definition forwarded_from (n : nat) (cs : Orchestrator.State) : list BackendRequest :=
  omap forward (drop n (Orchestrator.sent cs)).

End Bridge.

Module Tabs.

(** Tab 7 has asked for a session and was given ["s-7"]; tab 9 then the
    same, with ["s-9"]. *)
Definition two_tabs : Relay.State :=
  Bridge.run [Bridge.Request Relay.ACTIVATE (Some 7%Z) (Relay.mkWorld None (inl "s-7"));
              Bridge.Request Relay.ACTIVATE (Some 9%Z) (Relay.mkWorld None (inl "s-9"))]
             Bridge.init.

End Tabs.

(** * Properties *)

(** ** The string helpers on sample inputs *)
Example toLowerCase_ex : Js.toLowerCase "TRUE Yes_1" = "true yes_1".
Proof. reflexivity. Qed.
Example trim_ex : Js.trim "  a b  " = "a b".
Proof. reflexivity. Qed.
Example includes_ex : Js.includes "california" "forn" = true /\ Js.includes "abc" "" = true
                    /\ Js.includes "abc" "ac" = false.
Proof. repeat split; reflexivity. Qed.
Example camel_ex : Js.replace_camel (Js.replace_sep "first_nameOfUser-x") = "first name Of User x".
Proof. reflexivity. Qed.
Example num_ex : Js.num 12 = "12".
Proof. reflexivity. Qed.


(** ** The executor on a reference that is not in the table *)
Section NotFound.
Import Dom Scanner.

(** C5. A reference absent from the current table makes [fillFieldByRef]
    and [clickElementByRef] return a failure value (they do not throw),
    and the failure is [{ok: false, error: "Element <ref> not found"}]
    with the reference copied as it is. *)
Theorem not_found_is_reported (st : State) (ref value : string) :
  getElementByRef st ref = None ->
  fst <$> fillFieldByRef ref value st = Some (Failure ("Element " +:+ ref +:+ " not found"))
  /\ fst <$> clickElementByRef ref st = Some (Failure ("Element " +:+ ref +:+ " not found")).
Proof.
  unfold getElementByRef, fillFieldByRef, clickElementByRef.
  intros ->. split; reflexivity.
Qed.

Lemma not_found_is_reported_witness :
  getElementByRef Fixtures.scanned1 "f9" = None
  /\ fst <$> fillFieldByRef "f9" "x" Fixtures.scanned1 = Some (Failure "Element f9 not found")
  /\ fst <$> clickElementByRef "f9" Fixtures.scanned1 = Some (Failure "Element f9 not found").
Proof.
  assert (H : getElementByRef Fixtures.scanned1 "f9" = None) by (vm_compute; reflexivity).
  split; [exact H|].
  exact (not_found_is_reported Fixtures.scanned1 "f9" "x" H).
Defined.

(** C10. On a reference absent from the table both functions leave the
    page context as it was: same document, same table, no event
    dispatched, no click, no value written. *)
Theorem not_found_is_atomic (st : State) (ref value : string) :
  getElementByRef st ref = None ->
  snd <$> fillFieldByRef ref value st = Some st
  /\ snd <$> clickElementByRef ref st = Some st.
Proof.
  unfold getElementByRef, fillFieldByRef, clickElementByRef.
  intros ->. split; reflexivity.
Qed.

Lemma not_found_is_atomic_witness :
  getElementByRef Fixtures.scanned1 "b7" = None
  /\ snd <$> fillFieldByRef "b7" "x" Fixtures.scanned1 = Some Fixtures.scanned1
  /\ snd <$> clickElementByRef "b7" Fixtures.scanned1 = Some Fixtures.scanned1.
Proof.
  assert (H : getElementByRef Fixtures.scanned1 "b7" = None) by (vm_compute; reflexivity).
  split; [exact H|].
  exact (not_found_is_atomic Fixtures.scanned1 "b7" "x" H).
Defined.

End NotFound.

(** ** Reading back an element after a write *)
Section Update.
Import Dom.

Lemma node_at_update_at (f : Element -> Element) (p : Path) :
  forall n e kids,
    node_at p n = Some (ElementNode e kids) ->
    node_at p (update_at p f n) = Some (ElementNode (f e) kids).
Proof.
  induction p as [|i p IH]; intros n e kids H.
  - simpl in H. injection H as ->. reflexivity.
  - destruct n as [s|e0 ks]; simpl in *; [discriminate|].
    rewrite list_lookup_alter_eq.
    destruct (ks !! i) as [k|] eqn:Hk; simpl in *; [|discriminate].
    apply IH, H.
Qed.

Lemma resolve_path (d : Document) (p : Path) (h : HTMLElement) :
  resolve d p = Some h -> path h = p.
Proof.
  unfold resolve. destruct (node_at p (root d)) as [[s|e ks]|]; intros H;
    inversion H; reflexivity.
Qed.

Lemma resolve_update (d : Document) (p : Path) (f : Element -> Element) (h : HTMLElement) :
  resolve d p = Some h ->
  resolve (update d p f) p = Some (mkHTMLElement p (f (self h)) (childNodes h)).
Proof.
  unfold resolve, update. simpl.
  destruct (node_at p (root d)) as [[s|e ks]|] eqn:Hn; intros H; inversion H; subst.
  rewrite (node_at_update_at f p _ _ _ Hn). reflexivity.
Qed.

Lemma isInput_not_others (e : Element) :
  isInput e = true -> isSelect e = false /\ isTextArea e = false.
Proof.
  unfold isInput, isSelect, isTextArea. intros H.
  apply bool_decide_eq_true in H. rewrite H. split; reflexivity.
Qed.

End Update.

(** ** Checkboxes and radio buttons *)
Section Checkable.
Import Dom Scanner.

(** The state a fill leaves when the reference names a checkbox. *)
Lemma fill_checkbox (st : State) (ref value : string) (p : Path) (h : HTMLElement) :
  getElementByRef st ref = Some p ->
  resolve (document st) p = Some h ->
  isInput (self h) = true ->
  el_type (self h) = "checkbox" ->
  fillFieldByRef ref value st =
    Some (Ok,
          if negb (eqb (el_checked (self h))
                       (Js.array_includes ["true"; "yes"; "1"] (Js.toLowerCase value)))
          then click p st else st).
Proof.
  unfold getElementByRef, fillFieldByRef, fillElement.
  intros -> Hr Hi Ht. rewrite Hr.
  destruct (isInput_not_others _ Hi) as [-> ->]. rewrite Hi, Ht.
  rewrite (resolve_path _ _ _ Hr). reflexivity.
Qed.

Lemma fill_radio (st : State) (ref value : string) (p : Path) (h : HTMLElement) :
  getElementByRef st ref = Some p ->
  resolve (document st) p = Some h ->
  isInput (self h) = true ->
  el_type (self h) = "radio" ->
  fillFieldByRef ref value st =
    Some (Ok, if negb (el_checked (self h)) then click p st else st).
Proof.
  unfold getElementByRef, fillFieldByRef, fillElement.
  intros -> Hr Hi Ht. rewrite Hr.
  destruct (isInput_not_others _ Hi) as [-> ->]. rewrite Hi, Ht.
  rewrite (resolve_path _ _ _ Hr). reflexivity.
Qed.

Lemma activate_checkbox (e : Element) :
  isInput e = true -> el_type e = "checkbox" ->
  isInput (activate e) = true /\ el_type (activate e) = "checkbox"
  /\ el_checked (activate e) = negb (el_checked e).
Proof.
  intros Hi Ht. unfold activate. rewrite Hi, Ht. simpl.
  repeat split; assumption.
Qed.

(** Only a radio button has a group. *)
Lemma radio_group_other (d : Document) (h : HTMLElement) :
  isRadio (self h) = false -> radio_group d h = [].
Proof. unfold radio_group. intros ->. reflexivity. Qed.

Lemma isRadio_checkbox (e : Element) : el_type e = "checkbox" -> isRadio e = false.
Proof. unfold isRadio. intros ->. apply andb_false_r. Qed.

(** A click on a control that is not disabled and is no radio button. *)
Lemma click_enabled (p : Path) (h : HTMLElement) (st : State) :
  resolve (document st) p = Some h ->
  is_disabled (document st) h = false ->
  isRadio (self h) = false ->
  click p st = mkState (update (document st) p activate) (refMap st) (events st ++ [Click p]).
Proof.
  intros Hr Hd Hno. unfold click. rewrite Hr, Hd, (radio_group_other _ _ Hno). reflexivity.
Qed.

(** A click on a disabled control is logged and does nothing. *)
Lemma click_disabled (p : Path) (h : HTMLElement) (st : State) :
  resolve (document st) p = Some h ->
  is_disabled (document st) h = true ->
  click p st = mkState (document st) (refMap st) (events st ++ [Click p]).
Proof. intros Hr Hd. unfold click. rewrite Hr, Hd. reflexivity. Qed.

(** The page after a fill on a checkbox: a click was logged exactly when
    the box was not in the target state; the box is still a checkbox, in
    the target state when it is not disabled, in the state it had, on the
    page as it was, when it is. *)
Lemma checkbox_after_fill (st : State) (p : Path) (h : HTMLElement) (target : bool) :
  resolve (document st) p = Some h ->
  isInput (self h) = true ->
  el_type (self h) = "checkbox" ->
  let st' := if negb (eqb (el_checked (self h)) target) then click p st else st in
  (exists h', resolve (document st') p = Some h'
              /\ isInput (self h') = true /\ el_type (self h') = "checkbox"
              /\ el_checked (self h')
                 = if is_disabled (document st) h then el_checked (self h) else target)
  /\ refMap st' = refMap st
  /\ events st' = (events st ++ if eqb (el_checked (self h)) target then [] else [Click p])%list
  /\ (is_disabled (document st) h = true -> document st' = document st).
Proof.
  intros Hr Hi Ht st'. subst st'.
  destruct (eqb (el_checked (self h)) target) eqn:Heq; cbn [negb].
  - apply eqb_prop in Heq.
    split; [exists h; destruct (is_disabled (document st) h); auto|].
    split; [reflexivity|]. rewrite app_nil_r. auto.
  - destruct (is_disabled (document st) h) eqn:Hd.
    + rewrite (click_disabled p h st Hr Hd). simpl.
      split; [exists h; auto|]. auto.
    + rewrite (click_enabled p h st Hr Hd (isRadio_checkbox _ Ht)). simpl.
      destruct (activate_checkbox _ Hi Ht) as (Hi' & Ht' & Hc').
      split; [|split; [reflexivity|split; [reflexivity|discriminate]]].
      eexists. split; [exact (resolve_update (document st) p activate h Hr)|].
      simpl. repeat split; try assumption.
      rewrite Hc'. destruct (el_checked (self h)), target; simpl in *; congruence.
Qed.

(** C4, as amended. On a checkbox the target state is «the lower-cased
    value is one of true, yes, 1»; the fill answers [{ok: true}], and the
    native click is fired when, and only when, the box was not in the
    target state. When the checkbox is not disabled the fill leaves it in
    the target state (so a value equal to one of the three up to letter
    case leaves it checked), and a further fill with any value of the
    same target state changes nothing: no click, same page. When it is
    disabled the page stays as it was. *)
Theorem checkbox_fill_reaches_target (st : State) (ref value : string) (p : Path)
    (h : HTMLElement) :
  getElementByRef st ref = Some p ->
  resolve (document st) p = Some h ->
  isInput (self h) = true ->
  el_type (self h) = "checkbox" ->
  let target := Js.array_includes ["true"; "yes"; "1"] (Js.toLowerCase value) in
  exists st',
    fillFieldByRef ref value st = Some (Ok, st')
    /\ (Js.toLowerCase value ∈ ["true"; "yes"; "1"] <-> target = true)
    /\ events st' = (events st ++ if eqb (el_checked (self h)) target then [] else [Click p])%list
    /\ (is_disabled (document st) h = false ->
        (el_checked ∘ self) <$> resolve (document st') p = Some target
        /\ forall value',
             Js.array_includes ["true"; "yes"; "1"] (Js.toLowerCase value') = target ->
             fillFieldByRef ref value' st' = Some (Ok, st'))
    /\ (is_disabled (document st) h = true -> document st' = document st).
Proof.
  intros Hg Hr Hi Ht target.
  pose proof (fill_checkbox st ref value p h Hg Hr Hi Ht) as Hfill.
  fold target in Hfill.
  destruct (checkbox_after_fill st p h target Hr Hi Ht)
    as ((h' & Hr' & Hi' & Ht' & Hc') & Hmap & Hev & Hdis).
  eexists. split; [exact Hfill|].
  split; [unfold target, Js.array_includes; symmetry; apply bool_decide_eq_true|].
  split; [exact Hev|]. split; [|exact Hdis].
  intros Hen. rewrite Hen in Hc'.
  split; [rewrite Hr'; simpl; congruence|].
  intros value' Hv.
  assert (Hg' : getElementByRef
                  (if negb (eqb (el_checked (self h)) target) then click p st else st) ref
                = Some p).
  { unfold getElementByRef in *. rewrite Hmap. exact Hg. }
  rewrite (fill_checkbox _ ref value' p h' Hg' Hr' Hi' Ht').
  rewrite Hv, Hc', eqb_reflx. reflexivity.
Qed.

Lemma checkbox_fill_reaches_target_witness :
  exists st',
    fillFieldByRef "f1" "YES" Fixtures.scanned1 = Some (Ok, st')
    /\ events st' = [Click [0; 2]%nat]
    /\ (el_checked ∘ self) <$> resolve (document st') [0; 2]%nat = Some true
    /\ forall value',
         Js.array_includes ["true"; "yes"; "1"] (Js.toLowerCase value') = true ->
         fillFieldByRef "f1" value' st' = Some (Ok, st').
Proof.
  destruct (checkbox_fill_reaches_target Fixtures.scanned1 "f1" "YES" [0; 2]%nat
              (mkHTMLElement [0; 2]%nat
                 (Fixtures.input "checkbox" [("name", "agree")] "on" false) [])
              eq_refl eq_refl eq_refl eq_refl) as (st' & Hf & _ & Hev & Hen & _).
  exists st'. split; [exact Hf|]. split; [exact Hev|]. exact (Hen eq_refl).
Defined.

(** C4, as the specification words it, fails on a disabled checkbox: the
    fill of the unchecked, disabled box f0 with yes answers [{ok: true}]
    and fires the click, and the box stays unchecked. *)
Lemma checkbox_as_specified_fails :
  ~ Spec.checkbox_as_specified Fixtures.scanned_disabled "f0" "yes".
Proof.
  intros H.
  destruct (H [0; 0]%nat
              (mkHTMLElement [0; 0]%nat
                 (Fixtures.input "checkbox" [("name", "terms"); ("disabled", "")] "on" false) [])
              eq_refl eq_refl eq_refl eq_refl) as (st' & Hf & Hc).
  { vm_compute. repeat constructor. }
  vm_compute in Hf. injection Hf as <-. vm_compute in Hc. discriminate Hc.
Qed.

Example disabled_checkbox_is_clicked_in_vain :
  fillFieldByRef "f0" "yes" Fixtures.scanned_disabled
  = Some (Ok, mkState Fixtures.form_disabled (refMap Fixtures.scanned_disabled)
                [Click [0; 0]%nat]).
Proof. reflexivity. Qed.

(** C9, as amended. On a checkbox or a radio button the fill answers
    [{ok: true}] whatever the value. On a checkbox a value whose
    lower-cased form is none of true, yes, 1 asks for the unchecked state:
    the click is fired exactly when the box is checked, and the box ends
    unchecked when it is not disabled. On a radio button the value plays
    no part: the button is clicked if it was not checked, and left alone
    otherwise. *)
Theorem checkable_fill_never_fails (st : State) (ref value : string) (p : Path)
    (h : HTMLElement) :
  getElementByRef st ref = Some p ->
  resolve (document st) p = Some h ->
  isInput (self h) = true ->
  el_type (self h) = "checkbox" \/ el_type (self h) = "radio" ->
  fst <$> fillFieldByRef ref value st = Some Ok
  /\ (el_type (self h) = "checkbox" ->
      Js.toLowerCase value ∉ ["true"; "yes"; "1"] ->
      exists st', fillFieldByRef ref value st = Some (Ok, st')
                  /\ events st' = (events st ++ if el_checked (self h) then [Click p] else [])%list
                  /\ (is_disabled (document st) h = false ->
                      (el_checked ∘ self) <$> resolve (document st') p = Some false))
  /\ (el_type (self h) = "radio" ->
      fillFieldByRef ref value st =
        Some (Ok, if el_checked (self h) then st else click p st)).
Proof.
  intros Hg Hr Hi Hty. split; [|split].
  - destruct Hty as [Ht|Ht].
    + rewrite (fill_checkbox st ref value p h Hg Hr Hi Ht). reflexivity.
    + rewrite (fill_radio st ref value p h Hg Hr Hi Ht). reflexivity.
  - intros Ht Hv.
    assert (Hf : Js.array_includes ["true"; "yes"; "1"] (Js.toLowerCase value) = false).
    { apply bool_decide_eq_false. exact Hv. }
    pose proof (fill_checkbox st ref value p h Hg Hr Hi Ht) as Hfill.
    rewrite Hf in Hfill.
    destruct (checkbox_after_fill st p h false Hr Hi Ht)
      as ((h' & Hr' & _ & _ & Hc') & _ & Hev & _).
    eexists. split; [exact Hfill|].
    split; [rewrite Hev; destruct (el_checked (self h)); reflexivity|].
    intros Hen. rewrite Hen in Hc'. rewrite Hr'. simpl. congruence.
  - intros Ht. rewrite (fill_radio st ref value p h Hg Hr Hi Ht).
    destruct (el_checked (self h)); reflexivity.
Qed.

Lemma checkable_fill_never_fails_witness :
  fst <$> fillFieldByRef "f3" "banana" Fixtures.scanned1 = Some Ok
  /\ exists st', fillFieldByRef "f3" "banana" Fixtures.scanned1 = Some (Ok, st')
                 /\ events st' = [Click [0; 4]%nat]
                 /\ (el_checked ∘ self) <$> resolve (document st') [0; 4]%nat = Some false.
Proof.
  pose (h := mkHTMLElement [0; 4]%nat
               (Fixtures.input "checkbox" [("name", "news")] "on" true) []).
  destruct (checkable_fill_never_fails Fixtures.scanned1 "f3" "banana" [0; 4]%nat h
              eq_refl eq_refl eq_refl (or_introl eq_refl)) as (Hok & Hbox & _).
  split; [exact Hok|].
  destruct (Hbox eq_refl) as (st' & Hf & Hev & Hen).
  { vm_compute. intros H. repeat (apply elem_of_cons in H as [H|H]; [discriminate H|]).
    inversion H. }
  exists st'. split; [exact Hf|]. split; [exact Hev|exact (Hen eq_refl)].
Defined.

(** C9, as the specification words it, fails on a disabled checkbox: the
    fill of the checked, disabled box f1 with banana answers
    [{ok: true}] and fires the click, and the box stays checked. *)
Lemma uncheck_as_specified_fails :
  ~ Spec.uncheck_as_specified Fixtures.scanned_disabled "f1" "banana".
Proof.
  intros H.
  destruct (H [0; 1]%nat
              (mkHTMLElement [0; 1]%nat
                 (Fixtures.input "checkbox" [("name", "news"); ("disabled", "")] "on" true) [])
              eq_refl eq_refl eq_refl eq_refl) as (st' & Hf & Hc).
  { vm_compute. intros H'. repeat (apply elem_of_cons in H' as [H'|H']; [discriminate H'|]).
    inversion H'. }
  vm_compute in Hf. injection Hf as <-. vm_compute in Hc. discriminate Hc.
Qed.

(** A radio button that is checked unchecks the others of its group, and
    only those: the radio of another name keeps its state. *)
Example radio_click_unchecks_group :
  let d := Fixtures.page
             [ ElementNode (Fixtures.input "radio" [("name", "plan")] "free" true) [];
               ElementNode (Fixtures.input "radio" [("name", "plan")] "pro" false) [];
               ElementNode (Fixtures.input "radio" [("name", "size")] "xl" true) [] ] in
  (fun h => el_checked (self h)) <$> elements (document (click [0; 1]%nat (Fixtures.fresh d)))
  = [false; false; false; true; true].
Proof. reflexivity. Qed.

End Checkable.

(** ** Filling a select *)
Section Select.
Import Dom Scanner Spec.

(** The loop of [fillSelect], from any position: an exact match ahead
    wins; without one the pending [bestMatch] stays, or else the first
    option ahead whose text passes the containment test. *)
Lemma findOption_from (vl : string) (opts : list OptionElement) :
  forall i best,
    findOption vl opts i best =
      match list_find (fun o => exact_match vl o = true) opts with
      | Some (k, o) => Some (i + k, o)
      | None =>
          match best with
          | Some b => Some b
          | None =>
              prod_map (Nat.add i) id <$> list_find (fun o => text_contains vl o = true) opts
          end
      end.
Proof.
  induction opts as [|o opts IH]; intros i best; simpl.
  - destruct best; reflexivity.
  - fold (exact_match vl o). fold (text_contains vl o).
    destruct (exact_match vl o) eqn:Hex; case_decide; try congruence.
    + rewrite Nat.add_0_r. reflexivity.
    + destruct best as [b|]; simpl.
      * rewrite IH.
        destruct (list_find _ opts) as [[k o']|]; simpl; [|reflexivity].
        f_equal. f_equal. lia.
      * destruct (text_contains vl o) eqn:Hc; case_decide; try congruence; rewrite IH.
        -- destruct (list_find _ opts) as [[k o']|]; simpl.
           ++ f_equal. f_equal. lia.
           ++ rewrite Nat.add_0_r. reflexivity.
        -- destruct (list_find (fun o0 => exact_match vl o0 = true) opts) as [[k o']|]; simpl.
           ++ f_equal. f_equal. lia.
           ++ destruct (list_find _ opts) as [[k o']|]; simpl; [|reflexivity].
              f_equal. f_equal. lia.
Qed.

Lemma findOption_choose (vl : string) (opts : list OptionElement) :
  findOption vl opts 0 None = choose text_contains vl opts.
Proof.
  rewrite findOption_from. unfold choose.
  destruct (list_find _ opts) as [[k o]|]; [reflexivity|].
  destruct (list_find _ opts) as [[k o]|]; reflexivity.
Qed.

Lemma first_with_value_first (opts : list OptionElement) :
  forall i o,
    opts !! i = Some o ->
    (forall k o', (k < i)%nat -> opts !! k = Some o' -> opt_value o' <> opt_value o) ->
    first_with_value (opt_value o) opts = Some i.
Proof.
  induction opts as [|x opts IH]; intros i o Hi Hbefore; [discriminate|].
  simpl. destruct i as [|i]; simpl in Hi.
  - injection Hi as ->. rewrite decide_True by reflexivity. reflexivity.
  - rewrite decide_False by (apply (Hbefore 0%nat x); [lia|reflexivity]).
    rewrite (IH i o Hi); [reflexivity|].
    intros k o' Hk Ho'. apply (Hbefore (S k) o'); [lia|exact Ho'].
Qed.

(** C3, as amended. On a reference that names a select, the candidate is
    lower-cased and trimmed and compared with each option in document
    order. The first option whose trimmed, lower-cased display text or
    whose lower-cased underlying value equals the candidate is chosen, even
    after an earlier containment match. Without such an option the first
    one whose trimmed, lower-cased display text contains the candidate, or
    is contained in it, is chosen; the underlying value takes no part in
    this test. The chosen option's underlying value is assigned to the
    select and a change event is dispatched; this selects the chosen option
    whenever no earlier option carries the same underlying value. With no
    option chosen the call fails with the message that lists the trimmed
    display texts of the options whose value is not empty. *)
Theorem select_fill_chooses (st : State) (ref value : string) (p : Path) (h : HTMLElement) :
  getElementByRef st ref = Some p ->
  resolve (document st) p = Some h ->
  isSelect (self h) = true ->
  let opts := options (self h) in
  match choose text_contains (Js.trim (Js.toLowerCase value)) opts with
  | Some (i, o) =>
      let st' := mkState (update (document st) p (set_select_value (opt_value o)))
                         (refMap st)
                         (events st ++ [Assign p (opt_value o); Dispatch p "change"]) in
      opts !! i = Some o
      /\ fillFieldByRef ref value st = Some (Ok, st')
      /\ (selectedIndex ∘ self) <$> resolve (document st') p
         = Some (first_with_value (opt_value o) opts)
      /\ ((forall k o', (k < i)%nat -> opts !! k = Some o' -> opt_value o' <> opt_value o) ->
          (selectedIndex ∘ self) <$> resolve (document st') p = Some (Some i))
  | None =>
      fillFieldByRef ref value st = Some (Failure (no_match_error value opts), st)
  end.
Proof.
  intros Hg Hr Hs opts.
  assert (Hfill : fillFieldByRef ref value st = Some (fillSelect h value st)).
  { unfold getElementByRef in Hg. unfold fillFieldByRef, fillElement.
    rewrite Hg, Hr, Hs. reflexivity. }
  unfold fillSelect in Hfill. rewrite findOption_choose in Hfill. fold opts in Hfill.
  destruct (choose text_contains _ opts) as [[i o]|] eqn:Hch; [|exact Hfill].
  rewrite (resolve_path _ _ _ Hr) in Hfill.
  assert (Hi : opts !! i = Some o).
  { unfold choose in Hch.
    destruct (list_find (fun o0 => exact_match _ o0 = true) opts) as [r|] eqn:Hex.
    - injection Hch as ->. apply list_find_Some in Hex. tauto.
    - apply list_find_Some in Hch. tauto. }
  assert (Hsel : (selectedIndex ∘ self) <$>
                   resolve (update (document st) p (set_select_value (opt_value o))) p
                 = Some (first_with_value (opt_value o) opts)).
  { rewrite (resolve_update _ _ _ _ Hr). reflexivity. }
  split; [exact Hi|]. split; [exact Hfill|]. split; [exact Hsel|].
  intros Hbefore. simpl in *. rewrite Hsel.
  rewrite (first_with_value_first opts i o Hi Hbefore). reflexivity.
Qed.

Lemma select_fill_chooses_witness :
  let st' := mkState (update (document Fixtures.scanned1) [0; 5]%nat (set_select_value "NY"))
                     (refMap Fixtures.scanned1)
                     [Assign [0; 5]%nat "NY"; Dispatch [0; 5]%nat "change"] in
  fillFieldByRef "f4" " new " Fixtures.scanned1 = Some (Ok, st')
  /\ (selectedIndex ∘ self) <$> resolve (document st') [0; 5]%nat = Some (Some 2%nat).
Proof.
  pose (h := mkHTMLElement [0; 5]%nat
               (Fixtures.select [("name", "state")]
                  [mkOption "-- choose --" ""; mkOption "California" "CA";
                   mkOption "New York" "NY"] (Some 0%nat)) []).
  pose proof (select_fill_chooses Fixtures.scanned1 "f4" " new " [0; 5]%nat h
                eq_refl eq_refl eq_refl) as H.
  destruct H as (_ & Hfill & _ & Hsel).
  split; [exact Hfill|].
  apply Hsel. intros k o' Hk Ho'. cbn in Hk, Ho' |- *.
  destruct k as [|[|k]]; [injection Ho' as <-; discriminate ..|lia].
Defined.

(** C3, as the specification words it, fails: the only option shows
    "Alpha" and carries the value "xyz"; the candidate "xy" is contained in
    that value, yet the fill reports that no option matches. *)
Lemma select_as_specified_fails :
  ~ select_as_specified Fixtures.scanned_alpha "f0" "xy".
Proof.
  intros H.
  specialize (H [0; 0]%nat
                (mkHTMLElement [0; 0]%nat
                   (Fixtures.select [] [mkOption "Alpha" "xyz"] (Some 0%nat)) [])
                eq_refl eq_refl eq_refl).
  vm_compute in H. destruct H as (st' & Hfill & _). discriminate Hfill.
Qed.

(** Two options with one underlying value: the exact match on the text of
    the second assigns the shared value, which selects the first. *)
Example select_shared_value :
  let opts := [mkOption "Foo" "x"; mkOption "Bar" "x"] in
  choose text_contains "bar" opts = Some (1%nat, mkOption "Bar" "x")
  /\ first_with_value "x" opts = Some 0%nat.
Proof. split; reflexivity. Qed.

(** An option whose text is empty is contained in every candidate: when
    it comes first and nothing matches exactly, it is the one chosen. *)
Example select_blank_option :
  choose text_contains "texas" [mkOption "" ""; mkOption "California" "CA"]
  = Some (0%nat, mkOption "" "").
Proof. reflexivity. Qed.

End Select.

(** ** Resolving a label *)
Section Label.
Import Dom Scanner Spec.

Lemma truthy_true (s : string) : Js.truthy s = true <-> s <> "".
Proof. destruct s; simpl; split; congruence. Qed.

Lemma truthy_false (s : string) : Js.truthy s = false <-> s = "".
Proof. destruct s; simpl; split; congruence. Qed.

Lemma or_else_empty (s : string) : Js.or_else s "" = s.
Proof. destruct s; reflexivity. Qed.

Lemma words_of_name_truthy (name : string) :
  Js.truthy (words_of_name name) = Js.truthy name.
Proof.
  unfold words_of_name. destruct name as [|a name]; [reflexivity|].
  simpl. destruct (Js.replace_sep name); [reflexivity|].
  destruct (_ && _); reflexivity.
Qed.

Lemma label_for_id_text (d : Document) (h : HTMLElement) :
  label_sources_have_text d h -> returns_text (label_for_id d h) (text_label_for d h).
Proof.
  intros (H1 & _ & _). unfold returns_text, label_for_id, text_label_for in *.
  destruct (Js.truthy (el_id (self h))); [|reflexivity].
  destruct (querySelector d _) as [label|]; [|reflexivity].
  rewrite or_else_empty.
  rewrite (proj2 (truthy_true _)); [reflexivity|]. apply H1; eauto.
Qed.

Lemma label_parent_text (d : Document) (h : HTMLElement) :
  returns_text (label_parent d h) (text_label_parent d h).
Proof.
  unfold returns_text, label_parent, text_label_parent.
  destruct (closest d h sel_label); reflexivity.
Qed.

Lemma label_aria_text (d : Document) (h : HTMLElement) :
  label_sources_have_text d h -> returns_text (label_aria h) (text_aria_label h).
Proof.
  intros (_ & H2 & _). unfold returns_text, label_aria, text_aria_label.
  destruct (getAttribute (self h) "aria-label") as [a|] eqn:Ha; [|reflexivity].
  destruct (Js.truthy a) eqn:Hta.
  - rewrite (proj2 (truthy_true _)); [reflexivity|].
    apply (H2 a eq_refl). apply truthy_true, Hta.
  - apply truthy_false in Hta. subst a. reflexivity.
Qed.

Lemma label_labelledby_text (d : Document) (h : HTMLElement) :
  label_sources_have_text d h -> returns_text (label_labelledby d h) (text_labelledby d h).
Proof.
  intros (_ & _ & H3). unfold returns_text, label_labelledby.
  specialize (H3 (default "" (getAttribute (self h) "aria-labelledby"))).
  unfold text_labelledby in *.
  destruct (getAttribute (self h) "aria-labelledby") as [i|]; [|reflexivity].
  simpl in H3. specialize (H3 eq_refl).
  destruct (Js.truthy i) eqn:Hi.
  - destruct (getElementById d i) as [labelEl|]; [|reflexivity].
    rewrite or_else_empty.
    rewrite (proj2 (truthy_true _)); [reflexivity|]. apply H3; eauto.
  - unfold getElementById. rewrite Hi. reflexivity.
Qed.

Lemma label_prev_text (d : Document) (h : HTMLElement) :
  returns_text (label_prev d h) (text_previous_sibling d h).
Proof.
  unfold returns_text, label_prev, text_previous_sibling.
  destruct (previousElementSibling d h) as [prev|]; [|reflexivity].
  rewrite !bool_decide_not.
  destruct (negb _ && negb _); simpl; [|reflexivity].
  destruct (bool_decide (_ < 100)%nat); simpl.
  - rewrite andb_true_r. reflexivity.
  - rewrite andb_false_r. reflexivity.
Qed.

Lemma label_placeholder_text (h : HTMLElement) :
  returns_text (label_placeholder h)
    (if isInput (self h) then el_placeholder (self h) else "").
Proof.
  unfold returns_text, label_placeholder.
  destruct (isInput (self h)); reflexivity.
Qed.

Lemma label_name_text (h : HTMLElement) :
  returns_text (label_name h)
    (if isInput (self h) then words_of_name (el_name (self h)) else "").
Proof.
  unfold returns_text, label_name.
  destruct (isInput (self h)); simpl; [|reflexivity].
  rewrite words_of_name_truthy. reflexivity.
Qed.

(** C8, as amended. When a label found through [for], an element found
    through [aria-labelledby] and a present [aria-label] are not blank,
    the label of an element is the first text that is not empty among:
    the label whose [for] is the element's id, the nearest enclosing
    label read without its inputs, selects and textareas, the
    [aria-label], the element named by [aria-labelledby], the previous
    element sibling when it is neither an input nor a select and its
    trimmed text is shorter than 100, the placeholder if the element is an
    input element, and the name in words if the element is an input
    element; it is empty when none has text. *)
Theorem findLabel_first_text (d : Document) (h : HTMLElement) :
  label_sources_have_text d h ->
  findLabel d h = label_input_only d h.
Proof.
  intros Hs. unfold findLabel, label_input_only.
  rewrite (label_for_id_text d h Hs), (label_parent_text d h), (label_aria_text d h Hs),
    (label_labelledby_text d h Hs), (label_prev_text d h), (label_placeholder_text h),
    (label_name_text h).
  simpl.
  repeat (match goal with |- context [Js.truthy ?s] => destruct (Js.truthy s) end;
          try reflexivity).
Qed.

Lemma findLabel_first_text_witness :
  label_sources_have_text Fixtures.form1 Fixtures.email_handle
  /\ findLabel Fixtures.form1 Fixtures.email_handle = "Email".
Proof.
  assert (H : label_sources_have_text Fixtures.form1 Fixtures.email_handle).
  { split; [|split].
    - intros _ _. vm_compute. discriminate.
    - intros a Ha. discriminate Ha.
    - intros i Hi. discriminate Hi. }
  split; [exact H|].
  exact (findLabel_first_text Fixtures.form1 Fixtures.email_handle H).
Defined.

(** A label found through [for] ends the search even when it is blank. *)
Example findLabel_blank_for :
  resolve Fixtures.form_blank [0; 1; 0]%nat = Some Fixtures.blank_handle
  /\ findLabel Fixtures.form_blank Fixtures.blank_handle = ""
  /\ label_input_only Fixtures.form_blank Fixtures.blank_handle = "Email".
Proof. repeat split; reflexivity. Qed.

Example findLabel_from_name :
  findLabel Fixtures.form_named Fixtures.named_handle = "first Name".
Proof. reflexivity. Qed.

(** C8, as the specification words it, fails on a textarea that has a
    placeholder and nothing else to name it: the specification reads the
    label off the placeholder, the scanner leaves it empty. *)
Lemma label_as_specified_fails :
  resolve Fixtures.form_notes [0; 0]%nat = Some Fixtures.notes_handle
  /\ label_as_specified Fixtures.form_notes Fixtures.notes_handle = "Notes"
  /\ findLabel Fixtures.form_notes Fixtures.notes_handle = ""
  /\ findLabel Fixtures.form_notes Fixtures.notes_handle
     <> label_as_specified Fixtures.form_notes Fixtures.notes_handle.
Proof. repeat split; [reflexivity ..|]. vm_compute. discriminate. Qed.

End Label.

(** ** The reference table after a scan *)
Section Table.
Import Dom Scanner Spec.

Lemma seq_refs_S (pre : string) (idx n : nat) :
  seq_refs pre idx (S n) = (pre +:+ Js.num idx) :: seq_refs pre (S idx) n.
Proof. reflexivity. Qed.

Lemma seq_refs_snoc (pre : string) (idx n : nat) :
  seq_refs pre idx (S n) = (seq_refs pre idx n ++ [pre +:+ Js.num (idx + n)])%list.
Proof.
  unfold seq_refs. rewrite seq_S, fmap_app. reflexivity.
Qed.

Lemma seq_refs_app (pre : string) (idx n m : nat) :
  seq_refs pre idx (n + m) = (seq_refs pre idx n ++ seq_refs pre (idx + n) m)%list.
Proof. unfold seq_refs. rewrite seq_app, fmap_app. reflexivity. Qed.

Lemma elem_of_seq_refs (pre r : string) (idx n : nat) :
  r ∈ seq_refs pre idx n <-> exists k, (idx <= k < idx + n)%nat /\ r = pre +:+ Js.num k.
Proof.
  unfold seq_refs. rewrite list_elem_of_fmap. split.
  - intros (k & -> & Hk). exists k. split; [|reflexivity].
    apply elem_of_seq in Hk. lia.
  - intros (k & Hk & ->). exists k. split; [reflexivity|]. apply elem_of_seq. lia.
Qed.

Lemma num_ref_inj (pre : string) (j k : nat) :
  pre +:+ Js.num j = pre +:+ Js.num k -> j = k.
Proof.
  intros H. apply (inj (String.app pre)) in H.
  unfold Js.num in H. apply (inj pretty) in H. exact H.
Qed.

(** The table after a loop: the old entries, overwritten or extended by
    the names the loop handed out. *)
Lemma assign_is_Some (pre : string) (ps : list Path) :
  forall idx rm r,
    is_Some (assign pre idx ps rm !! r)
    <-> is_Some (rm !! r) \/ r ∈ seq_refs pre idx (length ps).
Proof.
  induction ps as [|p ps IH]; intros idx rm r; simpl.
  - unfold seq_refs. simpl. rewrite elem_of_nil. tauto.
  - rewrite IH, seq_refs_S, elem_of_cons, lookup_insert_is_Some.
    destruct (decide (pre +:+ Js.num idx = r)) as [->|Hne]; [tauto|].
    intuition congruence.
Qed.

Lemma assign_lookup (pre : string) (ps : list Path) :
  forall idx rm k p,
    ps !! k = Some p ->
    assign pre idx ps rm !! (pre +:+ Js.num (idx + k)) = Some p.
Proof.
  induction ps as [|q ps IH]; intros idx rm k p Hk; [discriminate|].
  simpl. destruct k as [|k]; simpl in Hk.
  - injection Hk as ->. rewrite Nat.add_0_r.
    assert (Hkeep : forall ps' idx' rm',
               (idx < idx')%nat ->
               rm' !! (pre +:+ Js.num idx) = Some p ->
               assign pre idx' ps' rm' !! (pre +:+ Js.num idx) = Some p).
    { clear. induction ps' as [|q ps' IH']; intros idx' rm' Hlt Hrm; [exact Hrm|].
      simpl. apply IH'; [lia|].
      rewrite lookup_insert_ne; [exact Hrm|].
      intros Heq. apply num_ref_inj in Heq. lia. }
    apply Hkeep; [lia|]. apply lookup_insert_eq.
  - replace (idx + S k)%nat with (S idx + k)%nat by lia. apply IH, Hk.
Qed.

(** The three loops, seen through the table and the references. *)
Lemma scanFields_table (d : Document) (els : list HTMLElement) :
  forall idx rm fs,
    let kept := filter (fun h => negb (isVisible (self h)) || isHiddenInput (self h) = false) els in
    let '(idx', rm', fs') := scanFields d els idx rm fs in
    idx' = (idx + length kept)%nat
    /\ rm' = assign "f" idx (path <$> kept) rm
    /\ f_ref <$> fs' = ((f_ref <$> fs) ++ seq_refs "f" idx (length kept))%list.
Proof.
  induction els as [|h els IH]; intros idx rm fs; simpl.
  - rewrite Nat.add_0_r, app_nil_r. auto.
  - rewrite filter_cons.
    destruct (negb (isVisible (self h)) || isHiddenInput (self h)) eqn:Hskip.
    + rewrite decide_False by discriminate. apply IH.
    + rewrite decide_True by reflexivity.
      specialize (IH (S idx) (<["f" +:+ Js.num idx := path h]> rm)
                     (fs ++ [scanField d ("f" +:+ Js.num idx) h])%list).
      simpl in IH. destruct (scanFields d els _ _ _) as [[idx' rm'] fs'].
      destruct IH as (-> & -> & Hrefs). simpl.
      split; [lia|]. split; [reflexivity|].
      rewrite Hrefs, fmap_app, seq_refs_S, <- app_assoc. reflexivity.
Qed.

Lemma scanButtons_table (els : list HTMLElement) :
  forall idx rm bs,
    let kept := filter (fun h => negb (isVisible (self h))
                                 || negb (Js.truthy (getButtonText h)) = false) els in
    let '(idx', rm', bs') := scanButtons els idx rm bs in
    idx' = (idx + length kept)%nat
    /\ rm' = assign "b" idx (path <$> kept) rm
    /\ b_ref <$> bs' = ((b_ref <$> bs) ++ seq_refs "b" idx (length kept))%list.
Proof.
  induction els as [|h els IH]; intros idx rm bs; simpl.
  - rewrite Nat.add_0_r, app_nil_r. auto.
  - rewrite filter_cons.
    case_decide as Hkeep.
    2:{ destruct (negb (isVisible (self h))); [apply IH|].
        destruct (negb (Js.truthy (getButtonText h))); [apply IH|]. contradiction Hkeep; reflexivity. }
    apply orb_false_iff in Hkeep as [-> ->].
    match goal with
    | |- context [scanButtons els (S idx) ?rm1 ?bs1] => specialize (IH (S idx) rm1 bs1)
    end.
    simpl in IH. destruct (scanButtons els _ _ _) as [[idx' rm'] bs'].
    destruct IH as (-> & -> & Hrefs). simpl.
    split; [lia|]. split; [reflexivity|].
    rewrite Hrefs, fmap_app, seq_refs_S, <- app_assoc. reflexivity.
Qed.

Lemma scanLinks_table (els : list HTMLElement) :
  forall idx rm bs,
    let kept := filter (fun h => negb (isVisible (self h))
                                 || negb (Js.truthy (Js.trim (textContent_of h))) = false) els in
    let '(idx', rm', bs') := scanLinks els idx rm bs in
    idx' = (idx + length kept)%nat
    /\ rm' = assign "b" idx (path <$> kept) rm
    /\ b_ref <$> bs' = ((b_ref <$> bs) ++ seq_refs "b" idx (length kept))%list.
Proof.
  induction els as [|h els IH]; intros idx rm bs; simpl.
  - rewrite Nat.add_0_r, app_nil_r. auto.
  - rewrite filter_cons.
    case_decide as Hkeep.
    2:{ destruct (negb (isVisible (self h))); [apply IH|].
        destruct (negb (Js.truthy (Js.trim (textContent_of h)))); [apply IH|]. contradiction Hkeep; reflexivity. }
    apply orb_false_iff in Hkeep as [-> ->].
    match goal with
    | |- context [scanLinks els (S idx) ?rm1 ?bs1] => specialize (IH (S idx) rm1 bs1)
    end.
    simpl in IH. destruct (scanLinks els _ _ _) as [[idx' rm'] bs'].
    destruct IH as (-> & -> & Hrefs). simpl.
    split; [lia|]. split; [reflexivity|].
    rewrite Hrefs, fmap_app, seq_refs_S, <- app_assoc. reflexivity.
Qed.

(** What one scan leaves: the table built from the empty one by the three
    loops, and a snapshot whose references are f0, f1, ... and b0, b1, ...
    for as many elements as the loops kept. *)
Lemma scanPage_table (st : State) :
  let d := document st in
  let nf := length (kept_fields d) in
  let nb := length (kept_buttons d) in
  let nl := length (kept_links d) in
  refMap (scanPage st).2
  = assign "b" nb (path <$> kept_links d)
      (assign "b" 0 (path <$> kept_buttons d)
         (assign "f" 0 (path <$> kept_fields d) ∅))
  /\ f_ref <$> fields (scanPage st).1 = seq_refs "f" 0 nf
  /\ b_ref <$> buttons (scanPage st).1 = seq_refs "b" 0 (nb + nl)
  /\ document (scanPage st).2 = d
  /\ events (scanPage st).2 = events st.
Proof.
  intros d nf nb nl. unfold scanPage. fold d.
  pose proof (scanFields_table d (querySelectorAll d sel_form_control) 0 ∅ []) as Hf.
  destruct (scanFields d _ 0 ∅ []) as [[i1 rm1] fs]. simpl in Hf.
  destruct Hf as (_ & -> & Hfs).
  pose proof (scanButtons_table (querySelectorAll d sel_button) 0
                (assign "f" 0 (path <$> kept_fields d) ∅) []) as Hb.
  fold (kept_fields d) in Hb |- *.
  destruct (scanButtons _ 0 _ []) as [[i2 rm2] bs]. simpl in Hb.
  destruct Hb as (-> & -> & Hbs).
  pose proof (scanLinks_table (querySelectorAll d sel_link_button)
                (length (kept_buttons d))
                (assign "b" 0 (path <$> kept_buttons d)
                   (assign "f" 0 (path <$> kept_fields d) ∅)) bs) as Hl.
  fold (kept_buttons d) in Hl |- *.
  destruct (scanLinks _ _ _ bs) as [[i3 rm3] bs']. simpl in Hl.
  destruct Hl as (_ & -> & Hbs'). simpl.
  split; [reflexivity|]. split; [exact Hfs|]. split; [|split; reflexivity].
  rewrite Hbs', Hbs. simpl. rewrite seq_refs_app. reflexivity.
Qed.

Lemma assign_app (pre : string) (ps1 ps2 : list Path) :
  forall idx rm,
    assign pre idx (ps1 ++ ps2)%list rm
    = assign pre (idx + length ps1) ps2 (assign pre idx ps1 rm).
Proof.
  induction ps1 as [|p ps1 IH]; intros idx rm; simpl.
  - rewrite Nat.add_0_r. reflexivity.
  - rewrite IH. f_equal. lia.
Qed.

Lemma assign_lookup_other (pre : string) (ps : list Path) :
  forall idx rm r,
    r ∉ seq_refs pre idx (length ps) ->
    assign pre idx ps rm !! r = rm !! r.
Proof.
  induction ps as [|p ps IH]; intros idx rm r Hr; [reflexivity|].
  simpl in *. rewrite seq_refs_S in Hr. apply not_elem_of_cons in Hr as [Hne Hr].
  rewrite (IH _ _ _ Hr). apply lookup_insert_ne. congruence.
Qed.

Lemma field_ref_not_button_ref (j idx n : nat) :
  "f" +:+ Js.num j ∉ seq_refs "b" idx n.
Proof.
  intros H. apply elem_of_seq_refs in H as (k & _ & Hk). discriminate Hk.
Qed.

Lemma button_ref_not_field_ref (j idx n : nat) :
  "b" +:+ Js.num j ∉ seq_refs "f" idx n.
Proof.
  intros H. apply elem_of_seq_refs in H as (k & _ & Hk). discriminate Hk.
Qed.

(** After a scan a reference resolves when, and only when, the snapshot of
    that scan carries it. *)
Lemma scanPage_resolves (st : State) (ref : string) :
  is_Some (getElementByRef (scanPage st).2 ref) <-> ref ∈ snapshot_refs (scanPage st).1.
Proof.
  destruct (scanPage_table st) as (Hrm & Hfs & Hbs & _).
  unfold getElementByRef, snapshot_refs. rewrite Hrm, Hfs, Hbs.
  rewrite !assign_is_Some, lookup_empty, !length_fmap, seq_refs_app, !elem_of_app.
  simpl. rewrite is_Some_alt. tauto.
Qed.

(** C1, as amended. The table a scan leaves holds the references of that
    scan's snapshot and nothing else, whatever it held before: after a
    second scan a reference of the first scan resolves to nothing exactly
    when the second scan did not hand out the same name again. The names
    are f0, f1, ... and b0, b1, ... in scan order, so a name whose number
    is not below the second scan's count of fields (of buttons) resolves
    to nothing, and a name the second scan handed out resolves to the
    element that scan gave it to. *)
Theorem rescan_resolves_only_new_refs (st st1 : State) :
  refMap st1 = refMap (scanPage st).2 ->
  let snap2 := (scanPage st1).1 in
  let st2 := (scanPage st1).2 in
  (forall ref, is_Some (getElementByRef st2 ref) <-> ref ∈ snapshot_refs snap2)
  /\ (forall ref, ref ∈ snapshot_refs (scanPage st).1 ->
                  (getElementByRef st2 ref = None <-> ref ∉ snapshot_refs snap2))
  /\ (forall k, (length (fields snap2) <= k)%nat ->
                getElementByRef st2 ("f" +:+ Js.num k) = None)
  /\ (forall k, (length (buttons snap2) <= k)%nat ->
                getElementByRef st2 ("b" +:+ Js.num k) = None)
  /\ (forall k h, kept_fields (document st1) !! k = Some h ->
                  getElementByRef st2 ("f" +:+ Js.num k) = Some (path h))
  /\ (forall k h,
        (kept_buttons (document st1) ++ kept_links (document st1))%list !! k = Some h ->
        getElementByRef st2 ("b" +:+ Js.num k) = Some (path h)).
Proof.
  intros _ snap2 st2.
  pose proof (scanPage_resolves st1) as Hres. fold snap2 st2 in Hres.
  destruct (scanPage_table st1) as (Hrm & Hfs & Hbs & _).
  fold snap2 st2 in Hrm, Hfs, Hbs. simpl in Hrm, Hfs, Hbs.
  assert (Hnone : forall ref, ref ∉ snapshot_refs snap2 -> getElementByRef st2 ref = None).
  { intros ref Hn. apply eq_None_not_Some. intros Hs. apply Hn, Hres, Hs. }
  split; [exact Hres|]. split; [|split; [|split; [|split]]].
  - intros ref _. split; [|apply Hnone].
    intros Hn Hin. apply Hres in Hin. rewrite Hn in Hin. destruct Hin; discriminate.
  - intros k Hk. apply Hnone. unfold snapshot_refs. rewrite Hfs, Hbs.
    rewrite elem_of_app. intros [Hin|Hin].
    + apply elem_of_seq_refs in Hin as (j & Hj & Heq). apply num_ref_inj in Heq.
      assert (Hlen : length (f_ref <$> fields snap2) = length (kept_fields (document st1)))
        by (rewrite Hfs; unfold seq_refs; rewrite length_fmap, length_seq; reflexivity).
      rewrite length_fmap in Hlen. lia.
    + exact (field_ref_not_button_ref _ _ _ Hin).
  - intros k Hk. apply Hnone. unfold snapshot_refs. rewrite Hfs, Hbs.
    rewrite elem_of_app. intros [Hin|Hin].
    + exact (button_ref_not_field_ref _ _ _ Hin).
    + apply elem_of_seq_refs in Hin as (j & Hj & Heq). apply num_ref_inj in Heq.
      assert (Hlen : length (b_ref <$> buttons snap2)
                     = (length (kept_buttons (document st1))
                        + length (kept_links (document st1)))%nat)
        by (rewrite Hbs; unfold seq_refs; rewrite length_fmap, length_seq; reflexivity).
      rewrite length_fmap in Hlen. lia.
  - intros k h Hk. unfold getElementByRef. rewrite Hrm.
    rewrite !assign_lookup_other by apply field_ref_not_button_ref.
    apply (assign_lookup "f" _ 0 ∅ k). rewrite list_lookup_fmap, Hk. reflexivity.
  - intros k h Hk. unfold getElementByRef. rewrite Hrm.
    replace (length (kept_buttons (document st1)))
      with (0 + length (path <$> kept_buttons (document st1)))%nat
      by (rewrite length_fmap; reflexivity).
    rewrite <- assign_app, <- fmap_app.
    apply (assign_lookup "b" _ 0 _ k). rewrite list_lookup_fmap, Hk. reflexivity.
Qed.

Lemma rescan_resolves_only_new_refs_witness :
  let st1 := mkState Fixtures.form_alpha (refMap Fixtures.scanned1)
               [Click [0; 2]%nat] in
  refMap st1 = refMap (scanPage (Fixtures.fresh Fixtures.form1)).2
  /\ "f3" ∈ snapshot_refs (scanPage (Fixtures.fresh Fixtures.form1)).1
  /\ getElementByRef (scanPage st1).2 "f3" = None
  /\ getElementByRef (scanPage st1).2 "f0" = Some [0; 0]%nat.
Proof.
  intros st1.
  assert (Hrm : refMap st1 = refMap (scanPage (Fixtures.fresh Fixtures.form1)).2)
    by reflexivity.
  destruct (rescan_resolves_only_new_refs (Fixtures.fresh Fixtures.form1) st1 Hrm)
    as (_ & _ & Hf & _ & Hkept & _).
  split; [exact Hrm|]. split; [|split].
  - vm_compute. repeat constructor.
  - apply (Hf 3%nat). vm_compute. lia.
  - exact (Hkept 0%nat
             (mkHTMLElement [0; 0]%nat
                (Fixtures.select [] [mkOption "Alpha" "xyz"] (Some 0%nat)) [])
             eq_refl).
Defined.

(** C1, as the specification words it, fails when the page keeps its
    first field: both scans name it f0, and f0 resolves after the second
    scan. *)
Lemma rescan_as_specified_fails :
  ~ rescan_as_specified (Fixtures.fresh Fixtures.form1) Fixtures.scanned1.
Proof.
  intros H. specialize (H eq_refl "f0").
  assert (Hin : "f0" ∈ snapshot_refs (scanPage (Fixtures.fresh Fixtures.form1)).1).
  { vm_compute. constructor. }
  specialize (H Hin). vm_compute in H. discriminate H.
Qed.

End Table.

(** ** The question gate *)
Section Gate.
Import Overlay Spec.

Lemma answers_app (g : nat) (l1 l2 : list (nat * string)) :
  (filter (fun r => r.1 = g) (l1 ++ l2)%list).*2
  = ((filter (fun r => r.1 = g) l1).*2 ++ (filter (fun r => r.1 = g) l2).*2)%list.
Proof. rewrite filter_app, fmap_app. reflexivity. Qed.

Lemma answers_nil (g : nat) (l : list (nat * string)) :
  g ∉ l.*1 -> (filter (fun r => r.1 = g) l).*2 = [].
Proof.
  induction l as [|[g' a] l IH]; intros Hg; [reflexivity|].
  simpl in Hg. apply not_elem_of_cons in Hg as [Hne Hg].
  rewrite filter_cons. simpl. rewrite decide_False by congruence. apply IH, Hg.
Qed.

Lemma answers_in (g : nat) (l : list (nat * string)) :
  (filter (fun r => r.1 = g) l).*2 <> [] -> g ∈ l.*1.
Proof.
  intros H. destruct (decide (g ∈ l.*1)) as [Hin|Hn]; [exact Hin|].
  contradiction H. apply answers_nil, Hn.
Qed.

Lemma answers_at_most_one (g : nat) (l : list (nat * string)) :
  NoDup l.*1 -> (length (filter (fun r => r.1 = g) l).*2 <= 1)%nat.
Proof.
  induction l as [|[g' a] l IH]; intros Hnd; [simpl; lia|].
  simpl in Hnd. apply NoDup_cons in Hnd as [Hfresh Hnd].
  rewrite filter_cons. simpl. destruct (decide (g' = g)) as [->|Hne].
  - rewrite fmap_cons, (answers_nil g l Hfresh). simpl. lia.
  - apply IH, Hnd.
Qed.

(** What a submit does to a prompt on display. *)
Lemma submit_prompt (st : State) (pr : Prompt) :
  questionSection st = Some pr ->
  submit st =
    if Js.truthy (Js.trim (input_value pr))
    then mkState None (promises st) (resolved st ++ [(gate pr, Js.trim (input_value pr))])
    else st.
Proof. unfold submit. intros ->. reflexivity. Qed.

Lemma submit_invariant (st : State) : gate_invariant st -> gate_invariant (submit st).
Proof.
  intros Hinv. pose proof Hinv as (Hnd & Hlt & Hpr). unfold submit.
  destruct (questionSection st) as [pr|] eqn:Hq; [|exact Hinv].
  destruct (Js.truthy _); [|exact Hinv].
  destruct (Hpr pr eq_refl) as [Hg Hfresh].
  repeat split; simpl.
  - rewrite fmap_app. apply NoDup_app. split; [exact Hnd|]. split.
    + intros g Hin Hin'. simpl in Hin'. apply list_elem_of_singleton in Hin'. subst g.
      exact (Hfresh Hin).
    + simpl. apply NoDup_singleton.
  - intros g. rewrite fmap_app, elem_of_app. simpl.
    intros [Hin|Hin]; [apply Hlt, Hin|]. apply list_elem_of_singleton in Hin. subst g. exact Hg.
  - discriminate.
  - discriminate.
Qed.

Lemma step_invariant (s : Step) (st : State) :
  gate_invariant st -> gate_invariant (step s st).
Proof.
  intros Hinv. destruct s as [q|[text| |key]]; simpl.
  - destruct Hinv as (Hnd & Hlt & Hpr). repeat split; simpl.
    + exact Hnd.
    + intros g Hin. specialize (Hlt g Hin). lia.
    + injection H as <-. simpl. lia.
    + injection H as <-. simpl. intros Hin. specialize (Hlt _ Hin). lia.
  - pose proof Hinv as (Hnd & Hlt & Hpr).
    destruct (questionSection st) as [pr|] eqn:Hq; [|exact Hinv].
    destruct (Hpr pr eq_refl) as [Hg Hfresh].
    repeat split; simpl; auto; injection H as <-; simpl; assumption.
  - apply submit_invariant, Hinv.
  - case_bool_decide; [apply submit_invariant, Hinv|exact Hinv].
Qed.

Lemma run_invariant (ss : list Step) :
  forall st, gate_invariant st -> gate_invariant (run ss st).
Proof.
  induction ss as [|s ss IH]; intros st Hinv; [exact Hinv|].
  simpl. apply IH, step_invariant, Hinv.
Qed.

Lemma init_invariant : gate_invariant init.
Proof.
  repeat split; simpl.
  - apply NoDup_nil_2.
  - intros g Hg. inversion Hg.
  - discriminate.
  - discriminate.
Qed.

(** A step that is not a submit leaves the resolved promises alone. *)
Lemma step_resolves (s : Step) (st : State) :
  resolved (step s st) <> resolved st ->
  is_submit s
  /\ exists pr, questionSection st = Some pr
                /\ Js.trim (input_value pr) <> ""
                /\ step s st = mkState None (promises st)
                                 (resolved st ++ [(gate pr, Js.trim (input_value pr))]).
Proof.
  assert (Hsub : resolved (submit st) <> resolved st ->
                 exists pr, questionSection st = Some pr
                            /\ Js.trim (input_value pr) <> ""
                            /\ submit st = mkState None (promises st)
                                  (resolved st ++ [(gate pr, Js.trim (input_value pr))])).
  { unfold submit. destruct (questionSection st) as [pr|]; [|congruence].
    destruct (Js.truthy _) eqn:Ht; [|congruence].
    intros _. exists pr. split; [reflexivity|]. split; [|reflexivity].
    destruct (Js.trim (input_value pr)); [discriminate Ht|discriminate]. }
  destruct s as [q|[text| |key]]; simpl.
  - congruence.
  - destruct (questionSection st); simpl; congruence.
  - intros H. split; [left; reflexivity|]. apply Hsub, H.
  - case_bool_decide as Hk; [|congruence].
    intros H. split; [right; rewrite Hk; reflexivity|]. apply Hsub, H.
Qed.

(** C6, as amended. In every state the overlay can reach from its first
    state: no promise of [showQuestion] was resolved more than once; a
    step that resolves a pending promise is a press of the submit button
    or of Enter in the input, the promise is that of the prompt on
    display, the trimmed text of the input is not empty, and the promise
    is resolved with that trimmed text; and a submit on the prompt on
    display resolves its promise, once, with the trimmed text and clears
    the prompt when that text is not empty, and changes nothing when the
    input is empty or blank. *)
Theorem question_gate_resolves_trimmed (ss : list Step) :
  let st := run ss init in
  (forall g, (length (answers g st) <= 1)%nat)
  /\ (forall s g,
        answers g st = [] -> answers g (step s st) <> [] ->
        is_submit s
        /\ exists pr, questionSection st = Some pr /\ gate pr = g
                      /\ Js.trim (input_value pr) <> ""
                      /\ answers g (step s st) = [Js.trim (input_value pr)])
  /\ (forall s pr,
        is_submit s -> questionSection st = Some pr ->
        if Js.truthy (Js.trim (input_value pr))
        then answers (gate pr) (step s st) = [Js.trim (input_value pr)]
             /\ questionSection (step s st) = None
        else step s st = st).
Proof.
  intros st.
  assert (Hinv : gate_invariant st) by apply run_invariant, init_invariant.
  destruct Hinv as (Hnd & Hlt & Hpr).
  split; [|split].
  - intros g. apply answers_at_most_one, Hnd.
  - intros s g Hnone Hsome.
    assert (Hch : resolved (step s st) <> resolved st).
    { intros Heq. unfold answers in Hsome. rewrite Heq in Hsome. exact (Hsome Hnone). }
    destruct (step_resolves s st Hch) as (Hs & pr & Hq & Ha & Hst).
    split; [exact Hs|]. exists pr.
    unfold answers in *. rewrite Hst in Hsome |- *. simpl in *.
    rewrite answers_app, Hnone in Hsome |- *. simpl in *.
    rewrite filter_cons in Hsome |- *. simpl in *.
    destruct (decide (gate pr = g)) as [Hg|Hg]; [|contradiction Hsome; reflexivity].
    repeat split; auto.
  - intros s pr Hs Hq.
    assert (Hstep : step s st = submit st).
    { destruct Hs as [-> | ->]; reflexivity. }
    rewrite Hstep, (submit_prompt st pr Hq).
    destruct (Js.truthy _); [|reflexivity].
    split; [|reflexivity].
    unfold answers. simpl. rewrite answers_app.
    rewrite (answers_nil _ _ (proj2 (Hpr pr Hq))). simpl.
    rewrite filter_cons. simpl. rewrite decide_True by reflexivity. reflexivity.
Qed.

Lemma question_gate_resolves_trimmed_witness :
  let st := run [Ask "Name?"; Ui (Edit "  Ada  ")] init in
  is_submit (Ui (KeyDown "Enter"))
  /\ questionSection st = Some (mkPrompt "Name?" "  Ada  " 0)
  /\ answers 0 (step (Ui (KeyDown "Enter")) st) = ["Ada"]
  /\ questionSection (step (Ui (KeyDown "Enter")) st) = None.
Proof.
  intros st.
  assert (Hs : is_submit (Ui (KeyDown "Enter"))) by (right; reflexivity).
  assert (Hq : questionSection st = Some (mkPrompt "Name?" "  Ada  " 0)) by reflexivity.
  split; [exact Hs|]. split; [exact Hq|].
  destruct (question_gate_resolves_trimmed [Ask "Name?"; Ui (Edit "  Ada  ")])
    as (_ & _ & Hsubmit).
  exact (Hsubmit (Ui (KeyDown "Enter")) (mkPrompt "Name?" "  Ada  " 0) Hs Hq).
Defined.

(** C6, as the specification words it, fails: the human leaves "  Ada  "
    in the input and presses the button; the promise is resolved with
    "Ada", not with the text as typed. *)
Lemma answer_as_specified_fails :
  ~ answer_as_specified (run [Ask "Name?"; Ui (Edit "  Ada  ")] init).
Proof.
  intros H.
  specialize (H (mkPrompt "Name?" "  Ada  " 0) eq_refl).
  vm_compute in H. specialize (H ltac:(discriminate)). discriminate H.
Qed.

(** A question replaced before it was answered is never answered: its
    promise stays pending whatever happens next. *)
Lemma abandoned_step (g : nat) (s : Step) (st : State) :
  abandoned g st -> abandoned g (step s st).
Proof.
  intros (Hlt & Hfresh & Hother).
  assert (Hsub : abandoned g (submit st)).
  { unfold submit. destruct (questionSection st) as [pr|] eqn:Hq.
    - destruct (Js.truthy _).
      + split; [exact Hlt|]. split; [|discriminate]. simpl.
        rewrite fmap_app, elem_of_app. simpl. intros [Hin|Hin]; [exact (Hfresh Hin)|].
        apply list_elem_of_singleton in Hin. exact (Hother pr eq_refl (eq_sym Hin)).
      + split; [exact Hlt|]. split; [exact Hfresh|]. rewrite Hq. exact Hother.
    - split; [exact Hlt|]. split; [exact Hfresh|]. rewrite Hq. exact Hother. }
  destruct s as [q|[text| |key]]; simpl.
  - split; [simpl; lia|]. split; [exact Hfresh|].
    simpl. intros pr Hpr. injection Hpr as <-. simpl. lia.
  - destruct (questionSection st) as [pr|] eqn:Hq.
    + split; [exact Hlt|]. split; [exact Hfresh|].
      simpl. intros pr' Hpr. injection Hpr as <-. simpl. exact (Hother pr eq_refl).
    + split; [exact Hlt|]. split; [exact Hfresh|]. rewrite Hq. exact Hother.
  - exact Hsub.
  - case_bool_decide; [exact Hsub|].
    split; [exact Hlt|]. split; [exact Hfresh|exact Hother].
Qed.

Lemma abandoned_forever (g : nat) (ss : list Step) :
  forall st, abandoned g st -> answers g (run ss st) = [].
Proof.
  induction ss as [|s ss IH]; intros st Hab.
  - destruct Hab as (_ & Hfresh & _). apply answers_nil, Hfresh.
  - simpl. apply IH, abandoned_step, Hab.
Qed.

Example replaced_question_stays_pending :
  let st := run [Ask "First name?"; Ask "Last name?"] init in
  abandoned 0 st
  /\ answers 0 (run [Ui (Edit "Lovelace"); Ui SubmitClick] st) = []
  /\ answers 1 (run [Ui (Edit "Lovelace"); Ui SubmitClick] st) = ["Lovelace"].
Proof.
  split; [|split; reflexivity].
  split; [simpl; lia|]. split.
  - simpl. intros H. inversion H.
  - simpl. intros pr Hpr. injection Hpr as <-. discriminate.
Qed.

(** A blank input: pressing the button or Enter does nothing. *)
Example blank_submit_is_ignored :
  let st := run [Ask "Name?"; Ui (Edit "   ")] init in
  step (Ui SubmitClick) st = st /\ step (Ui (KeyDown "Enter")) st = st
  /\ settled 0 (run [Ui SubmitClick; Ui (KeyDown "Enter")] st) = None.
Proof. repeat split; reflexivity. Qed.

End Gate.

(** ** The session registry *)
Section Registry.
Import Relay Spec.

Lemma stops_for_app (sid : string) (l1 l2 : list Effect) :
  stops_for sid (l1 ++ l2)%list = (stops_for sid l1 + stops_for sid l2)%nat.
Proof. unfold stops_for. rewrite filter_app, length_app. reflexivity. Qed.

Lemma stops_for_single (sid : string) (e : Effect) :
  stops_for sid [e] = if is_stop_for sid e then 1%nat else 0%nat.
Proof.
  unfold stops_for. rewrite filter_cons, filter_nil.
  destruct (is_stop_for sid e); case_decide; try congruence; reflexivity.
Qed.

Lemma truthy_tab_Some (t : Z) : t <> 0%Z -> truthy_tab (Some t) = Some t.
Proof. intros Hne. unfold truthy_tab. destruct (decide (t = 0%Z)); [contradiction|reflexivity]. Qed.

Lemma senderTab_effects (sender_tab : option Z) (w : World) (st : State) :
  sessions (senderTab sender_tab w st).2 = sessions st
  /\ streams (senderTab sender_tab w st).2 = streams st
  /\ effects (senderTab sender_tab w st).2
     = (effects st ++ match truthy_tab sender_tab with
                      | Some _ => []
                      | None => [TabsQuery]
                      end)%list.
Proof.
  unfold senderTab. destruct (truthy_tab sender_tab); simpl.
  - rewrite app_nil_r. auto.
  - auto.
Qed.

(** One run of the ACTIVATE handler with no other handler in between,
    for a tab that has a session: the old stream is closed, one stop
    request is sent for the old session id, the entry is dropped, and
    only then the start request is sent. If the start succeeds, a stream
    is opened for the id the backend returned and the tab has one entry,
    which carries that id and that stream; if the start fails, the error
    is returned and the tab has no entry. *)
Theorem activate_replaces_session (sender_tab : option Z) (w : World) (st : State)
    (t : Z) (old : Session) :
  truthy_tab (senderTab sender_tab w st).1 = Some t ->
  sessions st !! t = Some old ->
  let st0 := (senderTab sender_tab w st).2 in
  let r := (handleMessage ACTIVATE sender_tab w st).1 in
  let st' := (handleMessage ACTIVATE sender_tab w st).2 in
  let n := length (streams st) in
  effects st'
  = (effects st0
     ++ [Close (eventSource old); StopAutofill (sessionId old); StartAutofill]
     ++ match start_reply w with
        | inl sid => [CreateStatusStream sid n]
        | inr _ => []
        end)%list
  /\ stops_for (sessionId old) (effects st') = S (stops_for (sessionId old) (effects st0))
  /\ (forall s, streams st !! eventSource old = Some s ->
                streams st' !! eventSource old
                = Some (mkEventSource (es_session s) (es_tab s) true))
  /\ match start_reply w with
     | inl sid =>
         r = RStarted sid
         /\ sessions st' = <[t := mkSession sid n]> (sessions st)
         /\ sessions st' !! t = Some (mkSession sid n)
         /\ streams st' !! n = Some (mkEventSource sid t false)
     | inr error =>
         r = RError error
         /\ sessions st' = delete t (sessions st)
         /\ sessions st' !! t = None
     end.
Proof.
  intros Ht Hold st0 r st' n. subst st0 r st' n.
  destruct (senderTab_effects sender_tab w st) as (Hs & Hstr & Hev).
  unfold handleMessage, handleActivate.
  destruct (senderTab sender_tab w st) as [tabId st0]. simpl in *.
  rewrite Ht, Hs, Hold.
  assert (Hstop : is_stop_for (sessionId old) (StopAutofill (sessionId old)) = true)
    by apply bool_decide_eq_true_2, eq_refl.
  destruct (start_reply w) as [sid|err]; simpl; rewrite ?length_alter, Hstr.
  - split; [rewrite <- !app_assoc; reflexivity|].
    split; [rewrite !stops_for_app, !stops_for_single, Hstop; simpl; lia|].
    split.
    { intros s Hsome. rewrite lookup_app_l by (rewrite length_alter; eapply lookup_lt_Some, Hsome).
      rewrite list_lookup_alter_eq, Hsome. reflexivity. }
    split; [reflexivity|].
    split; [rewrite Hs; apply insert_delete_eq|].
    split; [apply lookup_insert_eq|].
    rewrite lookup_app_r by (rewrite length_alter; lia).
    rewrite length_alter, Nat.sub_diag. reflexivity.
  - split; [rewrite <- !app_assoc; reflexivity|].
    split; [rewrite !stops_for_app, !stops_for_single, Hstop; simpl; lia|].
    split.
    { intros s Hsome. rewrite list_lookup_alter_eq, Hsome. reflexivity. }
    split; [reflexivity|]. rewrite Hs.
    split; [reflexivity|apply lookup_delete_eq].
Qed.

Lemma activate_replaces_session_witness :
  let st' := (handleMessage ACTIVATE (Some 7%Z) Fixtures.world_ok Fixtures.relay7).2 in
  effects st' = [Close 0%nat; StopAutofill "s-old"; StartAutofill; CreateStatusStream "s-new" 1]
  /\ stops_for "s-old" (effects st') = 1%nat
  /\ streams st' !! 0%nat = Some (mkEventSource "s-old" 7 true)
  /\ sessions st' !! 7%Z = Some (mkSession "s-new" 1)
  /\ streams st' !! 1%nat = Some (mkEventSource "s-new" 7 false).
Proof.
  intros st'.
  destruct (activate_replaces_session (Some 7%Z) Fixtures.world_ok Fixtures.relay7 7%Z
              (mkSession "s-old" 0) eq_refl eq_refl)
    as (Hev & Hstops & Hclosed & _ & _ & Hentry & Hstream).
  split; [exact Hev|]. split; [exact Hstops|].
  split; [exact (Hclosed _ eq_refl)|]. split; [exact Hentry|exact Hstream].
Defined.

(** When the backend cannot be reached the activation sentence of the
    specification fails even for a run on its own: the old session of
    tab 7 is torn down, the start request throws, and tab 7 is left
    without an entry. *)
Lemma activate_as_specified_fails :
  ~ activate_as_specified (Some 7%Z) Fixtures.world_down Fixtures.relay7.
Proof.
  intros H.
  destruct (H 7%Z (mkSession "s-old" 0) eq_refl eq_refl) as (new & Hentry & _).
  vm_compute in Hentry. discriminate Hentry.
Qed.

(** Two activations in a row on tab 7, both answered by the backend: one
    entry for tab 7, with the second id, and one stop request for the
    first id. *)
Example activate_twice :
  let st1 := (handleMessage ACTIVATE (Some 7%Z) (mkWorld None (inl "s1"))
                (mkState ∅ [] [])).2 in
  let st2 := (handleMessage ACTIVATE (Some 7%Z) (mkWorld None (inl "s2")) st1).2 in
  map_to_list (sessions st2) = [(7%Z, mkSession "s2" 1)]
  /\ stops_for "s1" (effects st2) = 1%nat
  /\ stops_for "s2" (effects st2) = 0%nat
  /\ es_closed <$> streams st2 = [true; false].
Proof. repeat split; vm_compute; reflexivity. Qed.

(** The pieces of the ACTIVATE handler, run one after the other with the
    answers of one world, are the handler of module [Relay]. *)
Lemma run_alone_handleActivate (sender_tab : option Z) (w : World) (st : State) :
  Async.run_alone sender_tab w st = Some (handleActivate sender_tab w st).
Proof.
  unfold Async.run_alone, Async.begin, handleActivate, senderTab.
  destruct (truthy_tab sender_tab) as [t|] eqn:Hs.
  - unfold Async.with_tab.
    assert (Ht : truthy_tab (Some t) = Some t).
    { unfold truthy_tab in *. destruct sender_tab as [z|]; [|discriminate].
      destruct (decide (z = 0%Z)); [discriminate|]. injection Hs as <-.
      destruct (decide (z = 0%Z)); [contradiction|reflexivity]. }
    rewrite Ht. unfold Async.teardown_or_start.
    destruct (sessions st !! t) as [existing|]; simpl;
      destruct (start_reply w) as [sid|err]; reflexivity.
  - simpl. unfold Async.with_tab.
    destruct (truthy_tab (activeTab w)) as [t|]; [|reflexivity].
    unfold Async.teardown_or_start. simpl.
    destruct (sessions st !! t) as [existing|]; simpl;
      destruct (start_reply w) as [sid|err]; reflexivity.
Qed.

(** C2. Two ACTIVATE messages of a tab that has a session, the second
    arriving while the run of the first waits for the backend. Both runs
    read the old entry before either has deleted it, so both close the
    old stream and both send a stop request for the old session id; both
    then start a session and open a stream, and the second entry
    overwrites the first. The worker ends with two stop requests for the
    old id where the claim has one, and with two open streams for the
    tab, the first of them out of the registry and never stopped, where
    the claim has at most one live session. *)
Theorem overlapping_activations_leak (st : State) (t : Z) (old : Session)
    (first second : string) :
  t <> 0%Z ->
  sessions st !! t = Some old ->
  let n := length (streams st) in
  exists sys,
    Async.play (Async.overlapping (Some t) first second) (Async.mkSystem st []) = Some sys
    /\ Async.handlers sys = [Async.Done (RStarted first); Async.Done (RStarted second)]
    /\ stops_for (sessionId old) (effects (Async.worker sys))
       = (stops_for (sessionId old) (effects st) + 2)%nat
    /\ sessions (Async.worker sys) = <[t := mkSession second (S n)]> (sessions st)
    /\ streams (Async.worker sys) !! n = Some (mkEventSource first t false)
    /\ streams (Async.worker sys) !! S n = Some (mkEventSource second t false)
    /\ (2 <= length (Async.live t (Async.worker sys)))%nat.
Proof.
  intros Hne Hold n.
  pose proof (truthy_tab_Some t Hne) as Ht.
  set (close_old := fun l : list EventSource =>
                      alter (fun s => mkEventSource (es_session s) (es_tab s) true)
                            (eventSource old) l).
  set (str := (close_old (close_old (streams st))
               ++ [mkEventSource first t false] ++ [mkEventSource second t false])%list).
  assert (Hlen : length (close_old (close_old (streams st))) = n)
    by (unfold close_old; rewrite !length_alter; reflexivity).
  exists (Async.mkSystem
            (mkState (<[t := mkSession second (S n)]> (sessions st)) str
                     (effects st
                      ++ [Close (eventSource old); StopAutofill (sessionId old);
                          Close (eventSource old); StopAutofill (sessionId old);
                          StartAutofill; StartAutofill;
                          CreateStatusStream first n; CreateStatusStream second (S n)]))
            [Async.Done (RStarted first); Async.Done (RStarted second)]).
  split.
  { unfold Async.overlapping, Async.play, Async.move, Async.begin, Async.with_tab,
      Async.teardown_or_start.
    rewrite Ht. cbn [Async.worker Async.handlers]. rewrite Ht, Hold.
    simpl. unfold emit, close, sessions_delete. simpl. rewrite Hold. simpl.
    rewrite !length_app, !length_alter. cbn [length]. fold n.
    replace (n + 1)%nat with (S n) by lia.
    f_equal. f_equal. f_equal.
    - rewrite insert_insert_eq, insert_delete_eq, insert_delete_eq. reflexivity.
    - subst str close_old. rewrite <- !app_assoc. reflexivity.
    - rewrite <- !app_assoc. reflexivity. }
  split; [reflexivity|]. cbn [Async.worker effects sessions streams].
  split.
  { assert (Hs : is_stop_for (sessionId old) (StopAutofill (sessionId old)) = true)
      by (apply bool_decide_eq_true_2; reflexivity).
    change (stops_for (sessionId old)
              (effects st
               ++ [Close (eventSource old)] ++ [StopAutofill (sessionId old)]
               ++ [Close (eventSource old)] ++ [StopAutofill (sessionId old)]
               ++ [StartAutofill] ++ [StartAutofill]
               ++ [CreateStatusStream first n] ++ [CreateStatusStream second (S n)])
            = (stops_for (sessionId old) (effects st) + 2)%nat).
    rewrite !stops_for_app, !stops_for_single, Hs. simpl. lia. }
  split; [reflexivity|].
  split; [subst str; rewrite lookup_app_r by lia; rewrite Hlen, Nat.sub_diag; reflexivity|].
  split.
  { subst str. rewrite lookup_app_r by lia. rewrite Hlen.
    replace (S n - n)%nat with 1%nat by lia. reflexivity. }
  unfold Async.live. cbn [streams]. subst str. rewrite !filter_app, !length_app.
  rewrite !filter_cons_True by (simpl; auto). simpl. lia.
Qed.

Lemma overlapping_activations_leak_witness :
  exists sys,
    Async.play (Async.overlapping (Some 7%Z) "s-1" "s-2") (Async.mkSystem Fixtures.relay7 [])
    = Some sys
    /\ stops_for "s-old" (effects (Async.worker sys)) = 2%nat
    /\ map_to_list (sessions (Async.worker sys)) = [(7%Z, mkSession "s-2" 2)]
    /\ streams (Async.worker sys)
       = [mkEventSource "s-old" 7 true; mkEventSource "s-1" 7 false;
          mkEventSource "s-2" 7 false]
    /\ Async.live 7 (Async.worker sys)
       = [mkEventSource "s-1" 7 false; mkEventSource "s-2" 7 false].
Proof.
  destruct (overlapping_activations_leak Fixtures.relay7 7%Z (mkSession "s-old" 0) "s-1" "s-2"
              ltac:(discriminate) eq_refl) as (sys & Hplay & _).
  exists sys. split; [exact Hplay|].
  vm_compute in Hplay. injection Hplay as <-.
  repeat split; vm_compute; reflexivity.
Defined.

(** The same two messages one after the other, each run on its own: one
    stop request for the old id and one open stream for the tab. *)
Example activations_in_turn :
  let st1 := (handleMessage ACTIVATE (Some 7%Z) (mkWorld None (inl "s-1")) Fixtures.relay7).2 in
  let st2 := (handleMessage ACTIVATE (Some 7%Z) (mkWorld None (inl "s-2")) st1).2 in
  stops_for "s-old" (effects st2) = 1%nat
  /\ Async.live 7 st2 = [mkEventSource "s-2" 7 false].
Proof. split; vm_compute; reflexivity. Qed.

(** C7. After the stream of a session has errored, the entry of its tab is
    gone, and a STOP for that tab answers [{ok: true}], sends no stop
    request and leaves registry and streams as they are; when the request
    comes from the tab itself nothing at all happens. *)
Theorem stop_after_stream_error (sender_tab : option Z) (w : World) (st : State)
    (es : nat) (s : EventSource) :
  streams st !! es = Some s ->
  truthy_tab (senderTab sender_tab w (onerror es st)).1 = Some (es_tab s) ->
  let st1 := onerror es st in
  let st2 := (handleMessage STOP sender_tab w st1).2 in
  sessions st1 !! es_tab s = None
  /\ (handleMessage STOP sender_tab w st1).1 = ROk
  /\ sessions st2 = sessions st1
  /\ streams st2 = streams st1
  /\ (forall sid, stops_for sid (effects st2) = stops_for sid (effects st1))
  /\ (truthy_tab sender_tab = Some (es_tab s) -> st2 = st1).
Proof.
  intros Hes Ht st1 st2. subst st2.
  assert (Hgone : sessions st1 !! es_tab s = None).
  { subst st1. unfold onerror. rewrite Hes. simpl. apply lookup_delete_eq. }
  destruct (senderTab_effects sender_tab w st1) as (Hs & Hstr & Hev).
  fold st1 in Ht.
  unfold handleMessage, handleStop.
  assert (Hsame : truthy_tab sender_tab = Some (es_tab s) ->
                  (senderTab sender_tab w st1).2 = st1).
  { unfold senderTab. intros ->. reflexivity. }
  destruct (senderTab sender_tab w st1) as [tabId st0]. simpl in *.
  rewrite Ht, Hs, Hgone. simpl.
  split; [reflexivity|]. split; [reflexivity|]. split; [exact Hs|]. split; [exact Hstr|].
  split; [|exact Hsame].
  intros sid. rewrite Hev, stops_for_app.
  destruct (truthy_tab sender_tab); [unfold stops_for at 2; simpl; lia|].
  rewrite stops_for_single. simpl. lia.
Qed.

Lemma stop_after_stream_error_witness :
  let st1 := onerror 0 Fixtures.relay7 in
  sessions st1 !! 7%Z = None
  /\ handleMessage STOP (Some 7%Z) Fixtures.world_ok st1 = (ROk, st1)
  /\ effects st1 = [Close 0%nat].
Proof.
  intros st1.
  destruct (stop_after_stream_error (Some 7%Z) Fixtures.world_ok Fixtures.relay7 0%nat
              (mkEventSource "s-old" 7 false) eq_refl eq_refl)
    as (Hgone & Hok & _ & _ & _ & Hsame).
  split; [exact Hgone|]. split; [|reflexivity].
  specialize (Hsame eq_refl). fold st1 in Hok, Hsame.
  destruct (handleMessage STOP (Some 7%Z) Fixtures.world_ok st1) as [r st2].
  simpl in Hok, Hsame. rewrite Hok, Hsame. reflexivity.
Defined.

End Registry.

(** ** The elements of a document *)
Section Elements.
Import Dom.

Lemma Node_nested_ind (P : Node -> Prop) :
  (forall s, P (TextNode s)) ->
  (forall e kids, Forall P kids -> P (ElementNode e kids)) ->
  forall n, P n.
Proof.
  intros Ht He. fix IH 1. intros [s|e kids]; [apply Ht|].
  apply He. revert kids. fix IHk 1. intros [|k kids]; constructor.
  - apply IH.
  - apply IHk.
Qed.

(** Every element listed below a node sits at the path it is listed with. *)
Lemma elements_from_node_at :
  forall n p h,
    h ∈ elements_from p n ->
    exists q, path h = (p ++ q)%list
              /\ node_at q n = Some (ElementNode (self h) (childNodes h)).
Proof.
  induction n as [s|e kids IH] using Node_nested_ind; intros p h Hin; simpl in Hin.
  - inversion Hin.
  - apply elem_of_cons in Hin as [->|Hin].
    + exists []. simpl. rewrite app_nil_r. auto.
    + assert (Hgo : forall ks i,
                 Forall (fun n => forall p h, h ∈ elements_from p n ->
                            exists q, path h = (p ++ q)%list
                                      /\ node_at q n = Some (ElementNode (self h) (childNodes h))) ks ->
                 h ∈ (fix go (i : nat) (ks : list Node) : list HTMLElement :=
                        match ks with
                        | [] => []
                        | k :: ks' => (elements_from (p ++ [i])%list k ++ go (S i) ks')%list
                        end) i ks ->
                 exists j q, path h = (p ++ (i + j)%nat :: q)%list
                             /\ ks !! j ≫= node_at q = Some (ElementNode (self h) (childNodes h))).
      { clear. induction ks as [|k ks IHks]; intros i Hall Hin; [inversion Hin|].
        apply Forall_cons in Hall as [Hk Hall].
        apply elem_of_app in Hin as [Hin|Hin].
        - destruct (Hk _ _ Hin) as (q & Hp & Hq).
          exists 0%nat, q. rewrite Nat.add_0_r, Hp, <- app_assoc. simpl. auto.
        - destruct (IHks (S i) Hall Hin) as (j & q & Hp & Hq).
          exists (S j), q. simpl. split; [|exact Hq].
          rewrite Hp. replace (i + S j)%nat with (S i + j)%nat by lia. reflexivity. }
      destruct (Hgo kids 0%nat IH Hin) as (j & q & Hp & Hq).
      exists (j :: q). simpl in *. auto.
Qed.

(** [resolve] finds every element the document lists, as listed. *)
Lemma elements_resolve (d : Document) (h : HTMLElement) :
  h ∈ elements d -> resolve d (path h) = Some h.
Proof.
  intros Hin. apply elements_from_node_at in Hin as (q & Hp & Hq).
  simpl in Hp. unfold resolve. rewrite Hp, Hq. destruct h; simpl in *; subst; reflexivity.
Qed.

End Elements.

(** ** What a scan reports *)
Section Snapshot.
Import Dom Scanner Spec Laws.

Lemma scanFields_entries (d : Document) (els : list HTMLElement) :
  forall idx rm fs,
    (scanFields d els idx rm fs).2
    = (fs ++ imap (fun k => field_entry d (idx + k))
               (filter (fun h => negb (isVisible (self h)) || isHiddenInput (self h) = false) els))%list.
Proof.
  induction els as [|h els IH]; intros idx rm fs; simpl.
  - rewrite app_nil_r. reflexivity.
  - rewrite filter_cons.
    destruct (negb (isVisible (self h)) || isHiddenInput (self h)) eqn:Hskip.
    + rewrite decide_False by discriminate. apply IH.
    + rewrite decide_True by reflexivity. rewrite IH, imap_cons, <- app_assoc. simpl.
      rewrite Nat.add_0_r. do 2 f_equal. apply imap_ext. intros k x _. simpl.
      unfold field_entry. do 3 f_equal. lia.
Qed.

Lemma scanButtons_entries (els : list HTMLElement) :
  forall idx rm bs,
    (scanButtons els idx rm bs).2
    = (bs ++ imap (fun k => button_entry (idx + k))
               (filter (fun h => negb (isVisible (self h))
                                 || negb (Js.truthy (getButtonText h)) = false) els))%list.
Proof.
  induction els as [|h els IH]; intros idx rm bs; simpl.
  - rewrite app_nil_r. reflexivity.
  - rewrite filter_cons. case_decide as Hkeep.
    2:{ destruct (negb (isVisible (self h))); [apply IH|].
        destruct (negb (Js.truthy (getButtonText h))); [apply IH|].
        contradiction Hkeep; reflexivity. }
    apply orb_false_iff in Hkeep as [-> ->].
    rewrite IH, imap_cons, <- app_assoc. simpl.
    rewrite Nat.add_0_r. do 2 f_equal. apply imap_ext. intros k x _. simpl.
    unfold button_entry. do 3 f_equal. lia.
Qed.

Lemma scanLinks_entries (els : list HTMLElement) :
  forall idx rm bs,
    (scanLinks els idx rm bs).2
    = (bs ++ imap (fun k => link_entry (idx + k))
               (filter (fun h => negb (isVisible (self h))
                                 || negb (Js.truthy (Js.trim (textContent_of h))) = false) els))%list.
Proof.
  induction els as [|h els IH]; intros idx rm bs; simpl.
  - rewrite app_nil_r. reflexivity.
  - rewrite filter_cons. case_decide as Hkeep.
    2:{ destruct (negb (isVisible (self h))); [apply IH|].
        destruct (negb (Js.truthy (Js.trim (textContent_of h)))); [apply IH|].
        contradiction Hkeep; reflexivity. }
    apply orb_false_iff in Hkeep as [-> ->].
    rewrite IH, imap_cons, <- app_assoc. simpl.
    rewrite Nat.add_0_r. do 2 f_equal. apply imap_ext. intros k x _. simpl.
    unfold link_entry. do 3 f_equal. lia.
Qed.

(** The snapshot a scan returns, read off the document alone. *)
Lemma scanPage_snapshot (st : State) : (scanPage st).1 = snapshot_of (document st).
Proof.
  unfold scanPage, snapshot_of.
  set (d := document st).
  pose proof (scanFields_entries d (querySelectorAll d sel_form_control) 0 ∅ []) as Hf.
  pose proof (scanFields_table d (querySelectorAll d sel_form_control) 0 ∅ []) as Hft.
  destruct (scanFields d _ 0 ∅ []) as [[i1 rm1] fs]. simpl in Hf, Hft.
  destruct Hft as (_ & -> & _).
  pose proof (scanButtons_entries (querySelectorAll d sel_button) 0
                (assign "f" 0 (path <$> kept_fields d) ∅) []) as Hb.
  pose proof (scanButtons_table (querySelectorAll d sel_button) 0
                (assign "f" 0 (path <$> kept_fields d) ∅) []) as Hbt.
  fold (kept_fields d) in Hb, Hbt |- *.
  destruct (scanButtons _ 0 _ []) as [[i2 rm2] bs]. simpl in Hb, Hbt.
  destruct Hbt as (-> & -> & _).
  pose proof (scanLinks_entries (querySelectorAll d sel_link_button)
                (length (kept_buttons d))
                (assign "b" 0 (path <$> kept_buttons d)
                   (assign "f" 0 (path <$> kept_fields d) ∅)) bs) as Hl.
  fold (kept_buttons d) in Hl |- *.
  destruct (scanLinks _ _ _ bs) as [[i3 rm3] bs']. simpl in Hl |- *.
  subst fs bs bs'. reflexivity.
Qed.

Lemma kept_fields_spec (d : Document) (h : HTMLElement) :
  h ∈ kept_fields d
  <-> h ∈ elements d /\ sel_form_control (self h) = true
      /\ isVisible (self h) = true /\ isHiddenInput (self h) = false.
Proof.
  unfold kept_fields, querySelectorAll. rewrite !list_elem_of_filter, orb_false_iff, negb_false_iff.
  tauto.
Qed.

Lemma kept_buttons_spec (d : Document) (h : HTMLElement) :
  h ∈ kept_buttons d
  <-> h ∈ elements d /\ sel_button (self h) = true
      /\ isVisible (self h) = true /\ getButtonText h <> "".
Proof.
  unfold kept_buttons, querySelectorAll.
  rewrite !list_elem_of_filter, orb_false_iff, !negb_false_iff, truthy_true. tauto.
Qed.

Lemma kept_links_spec (d : Document) (h : HTMLElement) :
  h ∈ kept_links d
  <-> h ∈ elements d /\ sel_link_button (self h) = true
      /\ isVisible (self h) = true /\ Js.trim (textContent_of h) <> "".
Proof.
  unfold kept_links, querySelectorAll.
  rewrite !list_elem_of_filter, orb_false_iff, !negb_false_iff, truthy_true. tauto.
Qed.

(** X1. The fields of a snapshot are the visible form controls of the
    document that are not hidden inputs, in document order: the k-th field
    is the entry of the k-th such element and carries the reference fk;
    the snapshot also carries the URL and the title of the page. *)
Theorem snapshot_fields_are_visible_controls (st : State) :
  let d := document st in
  let snap := (scanPage st).1 in
  url snap = location_href d /\ snap_title snap = title d
  /\ length (fields snap) = length (kept_fields d)
  /\ (forall k f, fields snap !! k = Some f
                  <-> exists h, kept_fields d !! k = Some h /\ f = scanField d ("f" +:+ Js.num k) h)
  /\ (forall h, h ∈ kept_fields d
                <-> h ∈ elements d
                    /\ (isInput (self h) || isSelect (self h) || isTextArea (self h)) = true
                    /\ isVisible (self h) = true
                    /\ isHiddenInput (self h) = false).
Proof.
  intros d snap. subst snap. rewrite scanPage_snapshot. fold d. simpl.
  split; [reflexivity|]. split; [reflexivity|]. split; [apply length_imap|].
  split; [|apply kept_fields_spec].
  intros k f. rewrite list_lookup_imap. unfold field_entry.
  destruct (kept_fields d !! k) as [h|]; simpl.
  - split; [intros [= <-]; eauto|]. intros (h' & [= <-] & ->). reflexivity.
  - split; [discriminate|]. intros (h' & Hh & _). discriminate.
Qed.

(** X2. The buttons of a snapshot are the visible buttons, submit and
    button inputs and role=button elements that have a text, followed by
    the visible button-like links that have a text, numbered b0, b1, ...
    without a gap; no entry has an empty text, and the entries that come
    from links have the type link. *)
Theorem snapshot_buttons_have_text (st : State) :
  let d := document st in
  let snap := (scanPage st).1 in
  let nb := length (kept_buttons d) in
  length (buttons snap) = (nb + length (kept_links d))%nat
  /\ (forall k h, kept_buttons d !! k = Some h ->
                  buttons snap !! k
                  = Some (mkScannedButton ("b" +:+ Js.num k) (getButtonText h)
                            (if isButton (self h) then Js.or_else (el_type (self h)) "button"
                             else "button")))
  /\ (forall k h, kept_links d !! k = Some h ->
                  buttons snap !! (nb + k)%nat
                  = Some (mkScannedButton ("b" +:+ Js.num (nb + k))
                            (Js.trim (textContent_of h)) "link"))
  /\ (forall b, b ∈ buttons snap -> b_text b <> "" /\ b_type b <> "").
Proof.
  intros d snap nb. subst snap. rewrite scanPage_snapshot. fold d. simpl. fold nb.
  split; [rewrite length_app, !length_imap; reflexivity|].
  split; [|split].
  - intros k h Hk. rewrite lookup_app_l by (rewrite length_imap; eapply lookup_lt_Some, Hk).
    rewrite list_lookup_imap, Hk. reflexivity.
  - intros k h Hk. rewrite lookup_app_r by (rewrite length_imap; fold nb; lia).
    rewrite length_imap. fold nb. replace (nb + k - nb)%nat with k by lia.
    rewrite list_lookup_imap, Hk. reflexivity.
  - intros b Hb. apply elem_of_app in Hb as [Hb|Hb];
      apply elem_of_lookup_imap in Hb as (k & h & -> & Hk);
      apply list_elem_of_lookup_2 in Hk.
    + apply kept_buttons_spec in Hk as (_ & _ & _ & Htext). simpl.
      split; [exact Htext|].
      destruct (isButton (self h)); [|discriminate].
      unfold Js.or_else. destruct (el_type (self h)); simpl; discriminate.
    + apply kept_links_spec in Hk as (_ & _ & _ & Htext). simpl.
      split; [exact Htext|discriminate].
Qed.

End Snapshot.

(** ** The table a scan builds *)
Section TableLaws.
Import Dom Scanner Spec Laws.

Lemma seq_refs_NoDup (pre : string) (idx n : nat) : NoDup (seq_refs pre idx n).
Proof.
  unfold seq_refs. apply NoDup_fmap_2_strong; [|apply NoDup_seq].
  intros j k _ _ H. exact (num_ref_inj pre j k H).
Qed.

Lemma snapshot_refs_seq (st : State) :
  snapshot_refs (scanPage st).1
  = (seq_refs "f" 0 (length (kept_fields (document st)))
     ++ seq_refs "b" 0 (length (kept_buttons (document st))
                        + length (kept_links (document st))))%list.
Proof.
  destruct (scanPage_table st) as (_ & Hfs & Hbs & _).
  unfold snapshot_refs. rewrite Hfs, Hbs. reflexivity.
Qed.

(** X3. The references of one snapshot are pairwise distinct, and the
    table a scan leaves has one entry per reported field and button. *)
Theorem scan_refs_are_distinct (st : State) :
  NoDup (snapshot_refs (scanPage st).1)
  /\ size (refMap (scanPage st).2)
     = (length (fields (scanPage st).1) + length (buttons (scanPage st).1))%nat.
Proof.
  assert (Hnd : NoDup (snapshot_refs (scanPage st).1)).
  { rewrite snapshot_refs_seq. apply NoDup_app.
    split; [apply seq_refs_NoDup|]. split; [|apply seq_refs_NoDup].
    intros r Hf Hb. apply elem_of_seq_refs in Hf as (j & _ & ->).
    exact (field_ref_not_button_ref _ _ _ Hb). }
  split; [exact Hnd|].
  assert (Hdom : dom (refMap (scanPage st).2)
                 = (list_to_set (snapshot_refs (scanPage st).1) : gset string)).
  { apply set_eq. intros r. rewrite elem_of_dom, elem_of_list_to_set.
    apply scanPage_resolves. }
  rewrite <- size_dom, Hdom, size_list_to_set by exact Hnd.
  unfold snapshot_refs. rewrite length_app, !length_fmap. reflexivity.
Qed.

(** A scan reads the document and nothing else of the state. *)
Lemma scanPage_reads_document (st1 st2 : State) :
  document st1 = document st2 -> events st1 = events st2 -> scanPage st1 = scanPage st2.
Proof. unfold scanPage. intros -> ->. reflexivity. Qed.

(** X4. A scan does not touch the document or the trace of events, and a
    second scan of the page as the first one left it returns the same
    snapshot and the same table. *)
Theorem scan_is_idempotent (st : State) :
  document (scanPage st).2 = document st
  /\ events (scanPage st).2 = events st
  /\ scanPage (scanPage st).2 = scanPage st.
Proof.
  destruct (scanPage_table st) as (_ & _ & _ & Hd & He).
  split; [exact Hd|]. split; [exact He|].
  apply scanPage_reads_document; assumption.
Qed.

Lemma assign_lookup_Some (pre : string) (ps : list Path) :
  forall idx rm r p,
    assign pre idx ps rm !! r = Some p -> rm !! r = Some p \/ p ∈ ps.
Proof.
  induction ps as [|q ps IH]; intros idx rm r p H; [left; exact H|].
  simpl in H. apply IH in H as [H|H]; [|right; right; exact H].
  apply lookup_insert_Some in H as [[_ ->]|[_ H]]; [right; left|left; exact H].
Qed.

(** An entry of the table a scan leaves is the path of a visible element
    of the document. *)
Lemma scanPage_entry (st : State) (ref : string) (p : Path) :
  getElementByRef (scanPage st).2 ref = Some p ->
  exists h, path h = p /\ h ∈ elements (document st) /\ isVisible (self h) = true.
Proof.
  intros Hg. destruct (scanPage_table st) as (Hrm & _).
  unfold getElementByRef in Hg. rewrite Hrm in Hg.
  apply assign_lookup_Some in Hg as [Hg|Hin].
  2:{ apply list_elem_of_fmap in Hin as (h & -> & Hin).
      apply kept_links_spec in Hin as (? & _ & ? & _). eauto. }
  apply assign_lookup_Some in Hg as [Hg|Hin].
  2:{ apply list_elem_of_fmap in Hin as (h & -> & Hin).
      apply kept_buttons_spec in Hin as (? & _ & ? & _). eauto. }
  apply assign_lookup_Some in Hg as [Hg|Hin]; [rewrite lookup_empty in Hg; discriminate|].
  apply list_elem_of_fmap in Hin as (h & -> & Hin).
  apply kept_fields_spec in Hin as (? & _ & ? & _). eauto.
Qed.



End TableLaws.

(** ** The data of a reported field *)
Section FieldLaws.
Import Dom Scanner Spec Laws.

Lemma or_else_text (s : string) : Js.or_else s "text" = if Js.truthy s then s else "text".
Proof. reflexivity. Qed.

(** X6. A reported field never has the type hidden or an empty type; its
    checked flag is set exactly when its type is checkbox or radio; and
    only a field of type select lists options. *)
Theorem snapshot_field_types (st : State) (f : ScannedField) :
  f ∈ fields (scanPage st).1 ->
  f_type f <> "hidden" /\ f_type f <> ""
  /\ (f_checked f <> None <-> f_type f = "checkbox" \/ f_type f = "radio")
  /\ (f_options f <> [] -> f_type f = "select").
Proof.
  rewrite scanPage_snapshot. simpl. intros Hf.
  apply elem_of_lookup_imap in Hf as (k & h & -> & Hk).
  apply list_elem_of_lookup_2, kept_fields_spec in Hk as (_ & Hsel & _ & Hhid).
  unfold field_entry, scanField, getFieldType, sel_form_control, isHiddenInput in *. simpl.
  unfold isInput, isSelect, isTextArea in *.
  destruct (decide (tagName (self h) = "SELECT")) as [Hs|Hs].
  { rewrite Hs in *. simpl. repeat split; try discriminate; try tauto.
    - intros [H|H]; discriminate H. }
  rewrite (bool_decide_eq_false_2 _ Hs) in *.
  destruct (decide (tagName (self h) = "TEXTAREA")) as [Ht|Ht].
  { rewrite Ht in *. simpl. repeat split; try discriminate; try tauto.
    - intros [H|H]; discriminate H. }
  rewrite (bool_decide_eq_false_2 _ Ht) in *.
  rewrite !orb_false_r in Hsel. rewrite Hsel in *. simpl in *.
  apply bool_decide_eq_false in Hhid.
  rewrite !or_else_text.
  destruct (el_type (self h)) as [|c s] eqn:Hty; simpl.
  { repeat split; try discriminate; try tauto. intros [H|H]; discriminate H. }
  rewrite <- Hty in *. split; [exact Hhid|]. split; [rewrite Hty; discriminate|].
  split; [|tauto].
  destruct (decide (el_type (self h) = "checkbox")) as [Hc|Hc].
  { rewrite (bool_decide_eq_true_2 _ Hc). simpl. split; [auto|discriminate]. }
  rewrite (bool_decide_eq_false_2 _ Hc). simpl.
  destruct (decide (el_type (self h) = "radio")) as [Hr|Hr].
  { rewrite (bool_decide_eq_true_2 _ Hr). split; [auto|discriminate]. }
  rewrite (bool_decide_eq_false_2 _ Hr). split; [congruence|tauto].
Qed.

Lemma snapshot_field_types_witness :
  let f := scanField Fixtures.form1 "f1"
             (mkHTMLElement [0; 2]%nat
                (Fixtures.input "checkbox" [("name", "agree")] "on" false) []) in
  f ∈ fields (scanPage (Fixtures.fresh Fixtures.form1)).1
  /\ f_type f <> "hidden" /\ f_type f <> ""
  /\ (f_checked f <> None <-> f_type f = "checkbox" \/ f_type f = "radio")
  /\ (f_options f <> [] -> f_type f = "select").
Proof.
  intros f.
  assert (Hin : f ∈ fields (scanPage (Fixtures.fresh Fixtures.form1)).1).
  { apply list_elem_of_lookup. exists 1%nat. reflexivity. }
  split; [exact Hin|].
  exact (snapshot_field_types (Fixtures.fresh Fixtures.form1) f Hin).
Defined.

End FieldLaws.

(** ** What a fill or a click changes *)
Section Frame.
Import Dom Scanner Spec Laws.

Lemma alter_id_at {A} (f : A -> A) (i : nat) (l : list A) :
  (forall x, l !! i = Some x -> f x = x) -> alter f i l = l.
Proof.
  intros H. apply list_eq. intros j. destruct (decide (i = j)) as [<-|Hne].
  - rewrite list_lookup_alter_eq. destruct (l !! i) as [x|] eqn:Hx; simpl; [|reflexivity].
    rewrite (H x eq_refl). reflexivity.
  - apply list_lookup_alter_ne, Hne.
Qed.

(** Reading any path after a write at [p]. *)
Lemma node_self_update_at (f : Element -> Element) (p : Path) :
  forall q n,
    node_self q (update_at p f n)
    = if decide (q = p) then f <$> node_self q n else node_self q n.
Proof.
  unfold node_self.
  induction p as [|i p IH]; intros q [s|e kids]; destruct q as [|j q];
    match goal with |- context [decide ?P] => destruct (decide P) as [Heq|Hne] end;
    simpl; try reflexivity; try congruence.
  - destruct (decide (j = i)) as [->|Hji].
    + rewrite list_lookup_alter_eq. destruct (kids !! i) as [k|]; simpl; [|reflexivity].
      rewrite IH. rewrite decide_True by congruence. reflexivity.
    + congruence.
  - destruct (decide (j = i)) as [->|Hji].
    + rewrite list_lookup_alter_eq. destruct (kids !! i) as [k|]; simpl; [|reflexivity].
      rewrite IH. rewrite decide_False by congruence. reflexivity.
    + rewrite list_lookup_alter_ne by congruence. reflexivity.
Qed.

Lemma element_at_node_self (d : Document) (q : Path) :
  element_at d q = node_self q (root d).
Proof.
  unfold element_at, resolve, node_self.
  destruct (node_at q (root d)) as [[s|e kids]|]; reflexivity.
Qed.

Lemma element_at_update (d : Document) (p q : Path) (f : Element -> Element) :
  element_at (update d p f) q
  = if decide (q = p) then f <$> element_at d q else element_at d q.
Proof. rewrite !element_at_node_self. apply node_self_update_at. Qed.

Lemma resolve_is_Some_element_at (d : Document) (q : Path) :
  is_Some (resolve d q) <-> is_Some (element_at d q).
Proof. unfold element_at. rewrite fmap_is_Some. reflexivity. Qed.

Lemma update_keeps_elements (d : Document) (p q : Path) (f : Element -> Element) :
  is_Some (resolve (update d p f) q) <-> is_Some (resolve d q).
Proof.
  rewrite !resolve_is_Some_element_at, element_at_update.
  case_decide; [rewrite fmap_is_Some|]; reflexivity.
Qed.

(** A write that does not change the element leaves the tree as it is. *)
Lemma update_at_same (f : Element -> Element) (p : Path) :
  forall n,
    (forall e, node_self p n = Some e -> f e = e) -> update_at p f n = n.
Proof.
  unfold node_self. induction p as [|i p IH]; intros [s|e kids] H; simpl in *;
    try reflexivity.
  - rewrite (H e eq_refl). reflexivity.
  - f_equal. apply alter_id_at. intros k Hk. apply IH. intros e' He'.
    apply H. rewrite Hk. simpl. exact He'.
Qed.

Lemma extends_refl {A} (l : list A) : extends l l.
Proof. exists []. rewrite app_nil_r. reflexivity. Qed.

Lemma extends_app {A} (l k : list A) : extends l (l ++ k)%list.
Proof. exists k. reflexivity. Qed.

Lemma extends_trans {A} (l1 l2 l3 : list A) : extends l1 l2 -> extends l2 l3 -> extends l1 l3.
Proof. intros [k1 ->] [k2 ->]. exists (k1 ++ k2)%list. rewrite app_assoc. reflexivity. Qed.

Lemma touches_refl (p : Path) (st : State) : touches p st st.
Proof. repeat split; auto using extends_refl. Qed.

Lemma touches_trans (p : Path) (st1 st2 st3 : State) :
  touches p st1 st2 -> touches p st2 st3 -> touches p st1 st3.
Proof.
  intros (Hr1 & He1 & Hf1 & Hk1) (Hr2 & He2 & Hf2 & Hk2).
  split; [congruence|]. split; [eapply extends_trans; eassumption|].
  split.
  - intros q Hq. rewrite Hf2, Hf1 by exact Hq. reflexivity.
  - intros q. rewrite Hk2, Hk1. reflexivity.
Qed.

Lemma touches_write (p : Path) (f : Element -> Element) (evs : list DomEvent) (st : State) :
  touches p st (mkState (update (document st) p f) (refMap st) (events st ++ evs)).
Proof.
  split; [reflexivity|]. split; [apply extends_app|]. simpl. split.
  - intros q Hq. rewrite element_at_update, decide_False by exact Hq. reflexivity.
  - intros q. apply update_keeps_elements.
Qed.

Lemma touches_keeps (p : Path) (st st' : State) : touches p st st' -> keeps st st'.
Proof. intros (Hr & He & _ & Hk). repeat split; auto; apply Hk. Qed.

Lemma keeps_refl (st : State) : keeps st st.
Proof. repeat split; auto using extends_refl. Qed.

Lemma uncheck_all_keeps_elements (d : Document) (ps : list Path) (q : Path) :
  is_Some (resolve (uncheck_all d ps) q) <-> is_Some (resolve d q).
Proof.
  induction ps as [|p ps IH]; simpl; [reflexivity|].
  rewrite update_keeps_elements. exact IH.
Qed.

(** A click changes no table, extends the trace, and keeps the elements
    of the document, whatever it is a click on. *)
Lemma keeps_click (p : Path) (st : State) : keeps st (click p st).
Proof.
  unfold click. split; [reflexivity|]. split; [apply extends_app|]. simpl.
  intros q. destruct (resolve (document st) p) as [h|]; [|reflexivity].
  destruct (is_disabled (document st) h); [reflexivity|].
  rewrite update_keeps_elements. apply uncheck_all_keeps_elements.
Qed.

(** A click on anything but a radio button writes to its element only. *)
Lemma touches_click (p : Path) (h : HTMLElement) (st : State) :
  resolve (document st) p = Some h -> isRadio (self h) = false ->
  touches p st (click p st).
Proof.
  intros Hr Hno. destruct (is_disabled (document st) h) eqn:Hd.
  - rewrite (click_disabled p h st Hr Hd).
    split; [reflexivity|]. split; [apply extends_app|]. simpl. split; reflexivity.
  - rewrite (click_enabled p h st Hr Hd Hno). apply touches_write.
Qed.

Lemma touches_fillTextInput (h : HTMLElement) (value : string) (st : State) :
  touches (path h) st (fillTextInput h value st).2.
Proof.
  unfold fillTextInput. simpl.
  apply (touches_trans _ _ (mkState (update (document st) (path h) (set_value ""))
                              (refMap st) (events st ++ []))).
  - apply touches_write.
  - split; [reflexivity|]. simpl. split.
    + rewrite app_nil_r. apply extends_app.
    + split.
      * intros q Hq. rewrite element_at_update, decide_False by exact Hq. reflexivity.
      * intros q. apply update_keeps_elements.
Qed.

(** What [fillElement] does to the page context, whatever the element,
    and what it does not do when the element is no radio button. *)
Lemma fillElement_keeps (h : HTMLElement) (value : string) (st : State) :
  keeps st (fillElement h value st).2
  /\ ((fillElement h value st).1 <> Ok -> (fillElement h value st).2 = st)
  /\ (resolve (document st) (path h) = Some h -> isRadio (self h) = false ->
      touches (path h) st (fillElement h value st).2).
Proof.
  unfold fillElement, isRadio.
  destruct (isSelect (self h)).
  { unfold fillSelect. destruct (findOption _ _ _ _) as [[i o]|]; simpl.
    - split; [eapply touches_keeps, touches_write|].
      split; [congruence|intros _ _; apply touches_write].
    - split; [apply keeps_refl|]. split; [reflexivity|intros _ _; apply touches_refl]. }
  destruct (isTextArea (self h)).
  { split; [eapply touches_keeps, touches_fillTextInput|].
    split; [simpl; congruence|intros _ _; apply touches_fillTextInput]. }
  destruct (isInput (self h)) eqn:Hi.
  { destruct (bool_decide (el_type (self h) = "checkbox")) eqn:Hc.
    { cbn [fst snd]. split; [destruct (negb _); [apply keeps_click|apply keeps_refl]|].
      split; [congruence|]. intros Hr _.
      destruct (negb _); [|apply touches_refl].
      apply (touches_click _ h st Hr). unfold isRadio. rewrite Hi.
      apply bool_decide_eq_true in Hc. rewrite Hc. reflexivity. }
    destruct (bool_decide (el_type (self h) = "radio")).
    { cbn [fst snd]. split; [destruct (negb _); [apply keeps_click|apply keeps_refl]|].
      split; [congruence|]. intros _ Hno. discriminate Hno. }
    destruct (bool_decide (el_type (self h) = "file")).
    { simpl. split; [apply keeps_refl|]. split; [reflexivity|intros _ _; apply touches_refl]. }
    split; [eapply touches_keeps, touches_fillTextInput|].
    split; [simpl; congruence|intros _ _; apply touches_fillTextInput]. }
  destruct (has_value_property (self h)); [destruct (value_setter_throws _ _)|]; simpl.
  - split; [apply keeps_refl|]. split; [reflexivity|intros _ _; apply touches_refl].
  - split; [eapply touches_keeps, touches_write|].
    split; [congruence|intros _ _; apply touches_write].
  - split; [apply keeps_refl|]. split; [reflexivity|intros _ _; apply touches_refl].
Qed.

(** What one command of the executor does to the page context. *)
Lemma perform_keeps (a : Action) (st st' : State) (r : ActionResult) :
  perform a st = Some (r, st') ->
  (r <> Ok -> st' = st) /\ keeps st st'.
Proof.
  destruct a as [ref value|ref]; simpl.
  - unfold fillFieldByRef. destruct (refMap st !! ref) as [p|] eqn:Hp.
    + destruct (resolve (document st) p) as [h|] eqn:Hh; [|discriminate].
      intros [= Hr]. destruct (fillElement_keeps h value st) as (Hk & Hf & _).
      destruct (fillElement h value st) as [r0 st0]. simpl in *.
      injection Hr as -> ->. auto.
    + intros [= <- <-]. split; [reflexivity|apply keeps_refl].
  - unfold clickElementByRef. destruct (refMap st !! ref) as [p|] eqn:Hp.
    + destruct (resolve (document st) p) as [h|] eqn:Hh; [|discriminate].
      intros [= <- <-]. split; [congruence|apply keeps_click].
    + intros [= <- <-]. split; [reflexivity|apply keeps_refl].
Qed.

(** X7. A command of the executor never changes the reference table and
    only appends to the trace of events; and when it reports a failure
    (unknown reference, file input, select without a matching option,
    element that cannot be filled) the page context is exactly as it was
    before. *)
Theorem executor_failure_changes_nothing (a : Action) (st st' : State) (r : ActionResult) :
  perform a st = Some (r, st') ->
  refMap st' = refMap st
  /\ extends (events st) (events st')
  /\ (r <> Ok -> st' = st).
Proof.
  intros H. destruct (perform_keeps a st st' r H) as [Hf (Hr & He & _)]. auto.
Qed.

Lemma executor_failure_changes_nothing_witness :
  perform (Fill "f4" "zzz") Fixtures.scanned1
  = Some (Failure (no_match_error "zzz" [mkOption "-- choose --" ""; mkOption "California" "CA";
                                         mkOption "New York" "NY"]), Fixtures.scanned1)
  /\ refMap Fixtures.scanned1 = refMap Fixtures.scanned1
  /\ extends (events Fixtures.scanned1) (events Fixtures.scanned1)
  /\ (Failure (no_match_error "zzz" [mkOption "-- choose --" ""; mkOption "California" "CA";
                                     mkOption "New York" "NY"]) <> Ok
      -> Fixtures.scanned1 = Fixtures.scanned1).
Proof.
  split; [reflexivity|].
  exact (executor_failure_changes_nothing (Fill "f4" "zzz") Fixtures.scanned1
           Fixtures.scanned1 _ eq_refl).
Defined.



End Frame.

(** ** Text inputs, file inputs and clicks *)
Section TextFill.
Import Dom Scanner Spec Laws.

(** X9. On a reference of the table, a fill fails in four cases only: a
    file input (refused with a fixed message), a select none of whose
    options matches, an element that is neither input, select nor
    textarea and has no value property (refused with its tag name), and a
    progress or meter given a value that is no finite number, where the
    assignment throws and the error is caught and reported. In every
    other case it answers [{ok: true}]. *)
Theorem fill_fails_in_four_cases (st : State) (ref value : string) (p : Path)
    (h : HTMLElement) :
  getElementByRef st ref = Some p ->
  resolve (document st) p = Some h ->
  let e := self h in
  let r := fst <$> fillFieldByRef ref value st in
  (isSelect e = false -> isTextArea e = false -> isInput e = true -> el_type e = "file" ->
   r = Some (Failure "Cannot programmatically fill file inputs"))
  /\ (isSelect e = true ->
      choose text_contains (Js.trim (Js.toLowerCase value)) (options e) = None ->
      r = Some (Failure (no_match_error value (options e))))
  /\ (isSelect e = false -> isTextArea e = false -> isInput e = false ->
      has_value_property e = false ->
      r = Some (Failure ("Cannot fill element type: " +:+ tagName e)))
  /\ (isSelect e = false -> isTextArea e = false -> isInput e = false ->
      tagName e ∈ ["METER"; "PROGRESS"] -> Js.isFinite value = false ->
      r = Some (Failure (value_type_error e))
      /\ Js.startsWith (value_type_error e) "TypeError: " = true)
  /\ (r <> Some Ok ->
      (isSelect e = false /\ isTextArea e = false /\ isInput e = true /\ el_type e = "file")
      \/ (isSelect e = true
          /\ choose text_contains (Js.trim (Js.toLowerCase value)) (options e) = None)
      \/ (isSelect e = false /\ isTextArea e = false /\ isInput e = false
          /\ has_value_property e = false)
      \/ (isSelect e = false /\ isTextArea e = false /\ isInput e = false
          /\ tagName e ∈ ["METER"; "PROGRESS"] /\ Js.isFinite value = false)).
Proof.
  intros Hg Hr e r. subst r. unfold getElementByRef in Hg.
  unfold fillFieldByRef. rewrite Hg, Hr. simpl. unfold fillElement. fold e.
  split; [intros -> -> -> Hf; rewrite Hf; reflexivity|].
  split.
  { intros -> Hn. unfold fillSelect. rewrite findOption_choose. fold e. rewrite Hn. reflexivity. }
  split; [intros -> -> -> ->; reflexivity|].
  split.
  { intros -> -> -> Htag Hfin.
    assert (Hv : has_value_property e = true).
    { unfold has_value_property. apply bool_decide_eq_true.
      repeat (apply elem_of_cons in Htag as [->|Htag]); [repeat constructor..|inversion Htag]. }
    assert (Hth : value_setter_throws e value = true).
    { unfold value_setter_throws. rewrite Hfin, (bool_decide_eq_true_2 _ Htag). reflexivity. }
    rewrite Hv, Hth. split; [reflexivity|]. unfold value_type_error.
    destruct (bool_decide (tagName e = "METER")); reflexivity. }
  destruct (isSelect e) eqn:Hs.
  { unfold fillSelect. rewrite findOption_choose. fold e.
    destruct (choose text_contains _ (options e)) as [[i o]|]; simpl; [congruence|].
    intros _. right. left. auto. }
  destruct (isTextArea e) eqn:Hta; [simpl; congruence|].
  destruct (isInput e) eqn:Hi.
  { destruct (bool_decide (el_type e = "checkbox")); [simpl; congruence|].
    destruct (bool_decide (el_type e = "radio")); [simpl; congruence|].
    destruct (bool_decide (el_type e = "file")) eqn:Hf; [|simpl; congruence].
    apply bool_decide_eq_true in Hf. intros _. left. auto. }
  destruct (has_value_property e) eqn:Hv; [|intros _; right; right; left; auto].
  destruct (value_setter_throws e value) eqn:Hth; [|simpl; congruence].
  intros _. right. right. right. unfold value_setter_throws in Hth.
  apply andb_true_iff in Hth as [Htag Hfin].
  apply bool_decide_eq_true in Htag. apply negb_true_iff in Hfin. auto.
Qed.

Lemma fill_fails_in_four_cases_witness :
  fst <$> fillFieldByRef "f0" "cv.pdf" Pages.scanned_upload
  = Some (Failure "Cannot programmatically fill file inputs")
  /\ fst <$> fillFieldByRef "b0" "x" Pages.scanned_upload
     = Some (Failure "Cannot fill element type: DIV")
  /\ fst <$> fillFieldByRef "b0" "half" Pages.scanned_progress
     = Some (Failure (value_type_error (Fixtures.plain "PROGRESS" [("role", "button")]))).
Proof.
  destruct (fill_fails_in_four_cases Pages.scanned_upload "f0" "cv.pdf" [0; 0]%nat
              Pages.upload_handle eq_refl eq_refl) as (Hfile & _).
  destruct (fill_fails_in_four_cases Pages.scanned_upload "b0" "x" [0; 1]%nat
              (mkHTMLElement [0; 1]%nat (Fixtures.plain "DIV" [("role", "button")])
                 [TextNode "Go"]) eq_refl eq_refl) as (_ & _ & Hother & _).
  destruct (fill_fails_in_four_cases Pages.scanned_progress "b0" "half" [0; 0]%nat
              Pages.progress_handle eq_refl eq_refl) as (_ & _ & _ & Hthrow & _).
  split; [apply Hfile; reflexivity|]. split; [apply Hother; reflexivity|].
  apply Hthrow; try reflexivity. apply elem_of_cons. right. apply elem_of_cons. left. reflexivity.
Defined.

Example progress_takes_a_number :
  fst <$> fillFieldByRef "b0" " 0.5 " Pages.scanned_progress = Some Ok
  /\ fst <$> fillFieldByRef "b0" "1e999" Pages.scanned_progress
     = Some (Failure (value_type_error (Fixtures.plain "PROGRESS" [("role", "button")]))).
Proof. split; reflexivity. Qed.

End TextFill.

(** ** Selects once more, and runs of commands *)
Section SelectLaws.
Import Dom Scanner Spec Laws.

Lemma fill_select (st : State) (ref value : string) (p : Path) (h : HTMLElement) :
  getElementByRef st ref = Some p ->
  resolve (document st) p = Some h ->
  isSelect (self h) = true ->
  fillFieldByRef ref value st =
    Some match choose text_contains (Js.trim (Js.toLowerCase value)) (options (self h)) with
         | Some (_, o) =>
             (Ok, mkState (update (document st) p (set_select_value (opt_value o)))
                    (refMap st)
                    (events st ++ [Assign p (opt_value o); Dispatch p "change"]))
         | None => (Failure (no_match_error value (options (self h))), st)
         end.
Proof.
  unfold getElementByRef, fillFieldByRef, fillElement, fillSelect.
  intros -> Hr Hs. rewrite Hr, Hs, findOption_choose, (resolve_path _ _ _ Hr).
  destruct (choose _ _ _) as [[i o]|]; reflexivity.
Qed.

Lemma choose_lookup (loose : string -> OptionElement -> bool) (vl : string)
    (opts : list OptionElement) (i : nat) (o : OptionElement) :
  choose loose vl opts = Some (i, o) -> opts !! i = Some o.
Proof.
  unfold choose. destruct (list_find _ opts) as [r|] eqn:Hex.
  - intros [= ->]. apply list_find_Some in Hex. tauto.
  - intros H. apply list_find_Some in H. tauto.
Qed.

(** X10. After a fill that chose an option of a select which no earlier
    option shares its underlying value with, that option is the selected
    one, and the scanner reads the field's value as the option's trimmed
    display text, or as empty when the option's underlying value is
    empty. *)
Theorem select_fill_is_read_back (st : State) (ref value : string) (p : Path)
    (h : HTMLElement) (i : nat) (o : OptionElement) :
  getElementByRef st ref = Some p ->
  resolve (document st) p = Some h ->
  isSelect (self h) = true ->
  choose text_contains (Js.trim (Js.toLowerCase value)) (options (self h)) = Some (i, o) ->
  (forall k o', (k < i)%nat -> options (self h) !! k = Some o' -> opt_value o' <> opt_value o) ->
  exists st' e',
    fillFieldByRef ref value st = Some (Ok, st')
    /\ element_at (document st') p = Some e'
    /\ selectedIndex e' = Some i
    /\ options e' = options (self h)
    /\ getFieldValue e' = if Js.truthy (opt_value o) then Js.trim (opt_text o) else "".
Proof.
  intros Hg Hr Hs Hch Hbefore.
  rewrite (fill_select st ref value p h Hg Hr Hs), Hch.
  pose proof (choose_lookup _ _ _ _ _ Hch) as Hi.
  eexists. exists (set_select_value (opt_value o) (self h)).
  split; [reflexivity|]. simpl.
  split; [unfold element_at; rewrite (resolve_update _ _ _ _ Hr); reflexivity|].
  assert (Hidx : first_with_value (opt_value o) (options (self h)) = Some i)
    by exact (first_with_value_first _ i o Hi Hbefore).
  split; [exact Hidx|]. split; [reflexivity|].
  unfold getFieldValue, isSelect in *. simpl. rewrite Hs. simpl.
  rewrite Hidx. simpl. rewrite Hi. reflexivity.
Qed.

Lemma select_fill_is_read_back_witness :
  exists st' e',
    fillFieldByRef "f4" "ny" Fixtures.scanned1 = Some (Ok, st')
    /\ element_at (document st') [0; 5]%nat = Some e'
    /\ selectedIndex e' = Some 2%nat
    /\ options e' = options Pages.state_select
    /\ getFieldValue e' = "New York".
Proof.
  apply (select_fill_is_read_back Fixtures.scanned1 "f4" "ny" [0; 5]%nat Pages.state_handle
           2%nat (mkOption "New York" "NY") eq_refl eq_refl eq_refl eq_refl).
  intros k o' Hk Ho'. destruct k as [|[|k]]; [| |lia]; injection Ho' as <-; discriminate.
Defined.

Lemma includes_empty (s : string) : Js.includes s "" = true.
Proof. destruct s; reflexivity. Qed.

(** X11. A fill of a select with an empty or blank value never fails when
    the select has an option: every option's text contains the empty
    candidate. The option chosen is the first one whose trimmed text or
    whose value is empty, and the first option of the select when there
    is none. *)
Theorem blank_select_fill_picks_an_option (st : State) (ref value : string) (p : Path)
    (h : HTMLElement) (first : OptionElement) (rest : list OptionElement) :
  getElementByRef st ref = Some p ->
  resolve (document st) p = Some h ->
  isSelect (self h) = true ->
  Js.trim (Js.toLowerCase value) = "" ->
  options (self h) = first :: rest ->
  fst <$> fillFieldByRef ref value st = Some Ok
  /\ choose text_contains "" (options (self h))
     = match list_find (fun o => exact_match "" o = true) (options (self h)) with
       | Some r => Some r
       | None => Some (0%nat, first)
       end.
Proof.
  intros Hg Hr Hs Hv Hopts.
  assert (Hch : choose text_contains "" (options (self h))
                = match list_find (fun o => exact_match "" o = true) (options (self h)) with
                  | Some r => Some r
                  | None => Some (0%nat, first)
                  end).
  { unfold choose. destruct (list_find _ (options (self h))) as [r|]; [reflexivity|].
    rewrite Hopts. simpl. unfold text_contains. rewrite includes_empty. simpl.
    reflexivity. }
  split; [|exact Hch].
  rewrite (fill_select st ref value p h Hg Hr Hs), Hv, Hch.
  destruct (list_find _ _) as [[i o]|]; reflexivity.
Qed.

Lemma blank_select_fill_picks_an_option_witness :
  fst <$> fillFieldByRef "f4" "   " Fixtures.scanned1 = Some Ok
  /\ choose text_contains "" (options Pages.state_select)
     = Some (0%nat, mkOption "-- choose --" "").
Proof.
  exact (blank_select_fill_picks_an_option Fixtures.scanned1 "f4" "   " [0; 5]%nat
           Pages.state_handle _ _ eq_refl eq_refl eq_refl eq_refl eq_refl).
Defined.

Lemma perform_keeps_table_valid (a : Action) (st st' : State) (r : ActionResult) :
  table_valid st -> perform a st = Some (r, st') -> table_valid st'.
Proof.
  intros Hv H. destruct (perform_keeps a st st' r H) as [_ (Hr & _ & Hk)].
  intros ref p Hp. rewrite Hr in Hp. apply Hk, (Hv ref p Hp).
Qed.

Lemma perform_defined (a : Action) (st : State) :
  table_valid st -> is_Some (perform a st).
Proof.
  intros Hv. destruct a as [ref value|ref]; simpl;
    [unfold fillFieldByRef|unfold clickElementByRef];
    destruct (refMap st !! ref) as [p|] eqn:Hp; eauto;
    destruct (Hv ref p Hp) as [h ->]; eauto.
Qed.

End SelectLaws.

(** ** The panel *)
Section PanelLaws.
Import Panel.

Lemma apply_all_snoc (ops : list Op) (op : Op) (o : Overlay) :
  apply_all (ops ++ [op]) o = apply op (apply_all ops o).
Proof. unfold apply_all. rewrite foldl_app. reflexivity. Qed.

Lemma last_status_snoc (ops : list Op) (op : Op) :
  last_status (ops ++ [op])
  = match op with SetStatus s _ => s | _ => last_status ops end.
Proof. unfold last_status. rewrite foldl_app. reflexivity. Qed.

Lemma run_snoc (ss : list Overlay.Step) (s : Overlay.Step) (st : Overlay.State) :
  Overlay.run (ss ++ [s]) st = Overlay.step s (Overlay.run ss st).
Proof. unfold Overlay.run. rewrite foldl_app. reflexivity. Qed.

(** X12. In every state a panel reaches from its construction by calls of
    [setStatus], [toggleMinimize], [showQuestion] and events of the human:
    the status line shows the icon of the last status set; the stop
    control is shown and the auto-fill control hidden and disabled when
    that status is running or waiting, and the other way round otherwise,
    so the two controls are never on display together; the body is hidden
    exactly when the panel is minimized, which it is after an odd number
    of presses; and the question section is what the question steps alone
    would have left: neither a status nor a minimize touches a pending
    question. *)
Theorem panel_invariants (ops : list Op) :
  let o := apply_all ops create in
  statusIcon o = statusIconFor (last_status ops)
  /\ match last_status ops with
     | running | waiting => shows_stop o
     | _ => shows_autofill o
     end
  /\ (bodySection_display o = "none" <-> minimized o = true)
  /\ minimized o = Nat.odd (toggles ops)
  /\ questions o = Overlay.run (gate_steps ops) Overlay.init.
Proof.
  induction ops as [|op ops IH] using rev_ind.
  - simpl. unfold shows_autofill. simpl. repeat split; try discriminate; auto.
  - destruct IH as (Hicon & Hctl & Hbody & Hmin & Hq).
    cbv zeta. rewrite apply_all_snoc, last_status_snoc.
    unfold gate_steps, toggles. rewrite omap_app, filter_app, length_app.
    fold (gate_steps ops) (toggles ops).
    destruct op as [s m| |q|ev]; simpl.
    + rewrite app_nil_r, Nat.add_0_r. split; [reflexivity|].
      split; [|auto].
      destruct s; unfold shows_stop, shows_autofill; simpl; repeat split; discriminate.
    + rewrite app_nil_r. split; [exact Hicon|]. split.
      { destruct (last_status ops); exact Hctl. }
      rewrite Hmin. replace (toggles ops + 1)%nat with (S (toggles ops)) by lia.
      rewrite Nat.odd_succ, <- Nat.negb_odd.
      destruct (Nat.odd (toggles ops)); simpl; repeat split; auto; discriminate.
    + rewrite Nat.add_0_r, run_snoc, <- Hq. split; [exact Hicon|].
      split; [destruct (last_status ops); exact Hctl|]. auto.
    + rewrite Nat.add_0_r, run_snoc, <- Hq. split; [exact Hicon|].
      split; [destruct (last_status ops); exact Hctl|]. auto.
Qed.

End PanelLaws.

(** ** The content script *)
Section OrchestratorLaws.
Import Panel Orchestrator.

Lemma scanPage_table_valid (pg : Scanner.State) : Laws.table_valid (Scanner.scanPage pg).2.
Proof.
  intros ref p Hp. destruct (scanPage_table pg) as (_ & _ & _ & Hd & _).
  destruct (scanPage_entry pg ref p Hp) as (h & <- & Hin & _).
  rewrite Hd, (elements_resolve _ _ Hin). eauto.
Qed.

Lemma gate_ensureOverlay (st : State) : questions (ensureOverlay st) = gate st.
Proof. unfold ensureOverlay, gate. destruct (overlay st); reflexivity. Qed.

Lemma reports_snoc (st : State) (m : Outgoing) (o : option Overlay) (pg : Scanner.State)
    (asks : list (nat * string)) :
  reports (mkState o pg (sent st ++ [m]) asks)
  = (reports st ++ if is_report (tag_of m) then [tag_of m] else [])%list.
Proof.
  unfold reports. simpl. rewrite fmap_app, filter_app. simpl.
  rewrite filter_cons, filter_nil. destruct (is_report (tag_of m)); case_decide;
    try congruence; reflexivity.
Qed.

Lemma answers_sent_snoc (st : State) (m : Outgoing) (o : option Overlay) (pg : Scanner.State)
    (asks : list (nat * string)) :
  answers_sent (mkState o pg (sent st ++ [m]) asks)
  = (answers_sent st ++ match m with ANSWER_HUMAN sid a => [(sid, a)] | _ => [] end)%list.
Proof.
  unfold answers_sent. simpl. rewrite omap_app. simpl. destruct m; reflexivity.
Qed.

Lemma waiting_session_app (asks : list (nat * string)) (g : nat) (more : list (nat * string)) :
  g ∈ asks.*1 -> waiting_session (asks ++ more) g = waiting_session asks g.
Proof.
  induction asks as [|[g' sid] asks IH]; intros Hin; [inversion Hin|].
  simpl in *. case_decide; [reflexivity|].
  apply elem_of_cons in Hin as [Hin|Hin]; [congruence|]. apply IH, Hin.
Qed.

Lemma waiting_session_defined (asks : list (nat * string)) (g : nat) :
  g ∈ asks.*1 -> is_Some (waiting_session asks g).
Proof.
  induction asks as [|[g' sid] asks IH]; intros Hin; [inversion Hin|].
  simpl in *. case_decide; [eauto|].
  apply elem_of_cons in Hin as [Hin|Hin]; [congruence|]. apply IH, Hin.
Qed.

(** A question event resolves nothing, or the promise of the prompt on
    display. *)
Lemma dispatch_resolved (ev : Overlay.UiEvent) (q : Overlay.State) :
  Overlay.resolved (Overlay.dispatch ev q) = Overlay.resolved q
  \/ exists pr, Overlay.questionSection q = Some pr
                /\ Overlay.resolved (Overlay.dispatch ev q)
                   = (Overlay.resolved q ++ [(Overlay.gate pr, Js.trim (Overlay.input_value pr))])%list.
Proof.
  destruct (decide (Overlay.resolved (Overlay.step (Overlay.Ui ev) q) = Overlay.resolved q))
    as [Heq|Hne]; [left; exact Heq|].
  right. destruct (step_resolves _ _ Hne) as (_ & pr & Hq & _ & Hst).
  exists pr. split; [exact Hq|]. change (Overlay.dispatch ev q) with (Overlay.step (Overlay.Ui ev) q).
  rewrite Hst. reflexivity.
Qed.

Lemma dispatch_promises (ev : Overlay.UiEvent) (q : Overlay.State) :
  Overlay.promises (Overlay.dispatch ev q) = Overlay.promises q.
Proof.
  destruct ev as [text| |key]; simpl; unfold Overlay.submit;
    try case_bool_decide; destruct (Overlay.questionSection q); simpl;
    try destruct (Js.truthy _); reflexivity.
Qed.

Lemma reports_sent (st st' : State) (ms : list Outgoing) :
  sent st' = (sent st ++ ms)%list ->
  reports st' = (reports st ++ filter (fun t => is_report t = true) (tag_of <$> ms))%list.
Proof. unfold reports. intros ->. rewrite fmap_app, filter_app. reflexivity. Qed.

Lemma answers_sent_sent (st st' : State) (ms : list Outgoing) :
  sent st' = (sent st ++ ms)%list ->
  answers_sent st'
  = (answers_sent st
     ++ omap (fun m => match m with ANSWER_HUMAN sid a => Some (sid, a) | _ => None end) ms)%list.
Proof. unfold answers_sent. intros ->. apply omap_app. Qed.

(** A step that leaves the questions and the waiting handlers alone and
    sends no answer keeps the content script consistent. *)
Lemma consistent_keep (st st' : State) (ms : list Outgoing) :
  consistent st ->
  Laws.table_valid (page st') ->
  gate st' = gate st ->
  asking st' = asking st ->
  sent st' = (sent st ++ ms)%list ->
  omap (fun m => match m with ANSWER_HUMAN sid a => Some (sid, a) | _ => None end) ms = [] ->
  consistent st'.
Proof.
  intros (_ & Hasks & Hgate & Hans) Hv Hg Ha Hs Hno.
  split; [exact Hv|]. unfold asks_in_step. rewrite Hg, Ha.
  split; [exact Hasks|]. split; [exact Hgate|].
  rewrite (answers_sent_sent st st' ms Hs), Hno, app_nil_r. exact Hans.
Qed.

Lemma command_step (c : Command) (st : State) :
  consistent st ->
  exists r st', handleCommand c st = Some (r, st')
                /\ consistent st'
                /\ reports st' = (reports st ++ owed c)%list.
Proof.
  intros Hc. pose proof Hc as (Hv & Hasks & Hgate & Hans).
  destruct c as [s m|sid|ref value sid|ref sid|question sid|type]; simpl.
  - eexists _, _. split; [reflexivity|]. split.
    + apply (consistent_keep st _ []); simpl; auto;
        try (rewrite app_nil_r; reflexivity);
        try (unfold gate; simpl; apply gate_ensureOverlay).
    + rewrite app_nil_r. reflexivity.
  - pose proof (scanPage_table_valid (page st)) as Hv'.
    destruct (Scanner.scanPage (page st)) as [snap pg]. simpl in Hv'.
    eexists _, _. split; [reflexivity|]. split.
    + apply (consistent_keep st _ [PAGE_DATA sid snap]); simpl; auto;
        try (unfold gate; simpl; apply gate_ensureOverlay).
    + rewrite (reports_sent st _ [PAGE_DATA sid snap]) by reflexivity. reflexivity.
  - destruct (perform_defined (Laws.Fill ref value) (page st) Hv) as [[r pg] Hp].
    simpl in Hp. rewrite Hp.
    pose proof (perform_keeps_table_valid (Laws.Fill ref value) _ _ _ Hv Hp) as Hv'.
    eexists _, _. split; [reflexivity|]. split.
    + apply (consistent_keep st _ [ACTION_RESULT sid r]); simpl; auto;
        try (unfold gate; simpl; apply gate_ensureOverlay).
    + rewrite (reports_sent st _ [ACTION_RESULT sid r]) by reflexivity. reflexivity.
  - destruct (perform_defined (Laws.ClickRef ref) (page st) Hv) as [[r pg] Hp].
    simpl in Hp. rewrite Hp.
    pose proof (perform_keeps_table_valid (Laws.ClickRef ref) _ _ _ Hv Hp) as Hv'.
    eexists _, _. split; [reflexivity|]. split.
    + apply (consistent_keep st _ [ACTION_RESULT sid r]); simpl; auto;
        try (unfold gate; simpl; apply gate_ensureOverlay).
    + rewrite (reports_sent st _ [ACTION_RESULT sid r]) by reflexivity. reflexivity.
  - unfold showQuestion. simpl.
    eexists _, _. split; [reflexivity|]. split; [|rewrite app_nil_r; reflexivity].
    match goal with |- consistent ?s => set (st' := s) end.
    assert (Hg' : gate st' = Overlay.step (Overlay.Ask question) (gate st)).
    { unfold gate at 1. subst st'. simpl. rewrite gate_ensureOverlay. reflexivity. }
    assert (Ha' : asking st' = (asking st ++ [(Overlay.promises (gate st), sid)])%list).
    { subst st'. simpl. rewrite gate_ensureOverlay. reflexivity. }
    assert (Hs' : answers_sent st' = answers_sent st) by reflexivity.
    split; [exact Hv|]. unfold asks_in_step. rewrite Hg', Ha', Hs'.
    change (Overlay.promises (Overlay.step (Overlay.Ask question) (gate st)))
      with (S (Overlay.promises (gate st))).
    change (Overlay.resolved (Overlay.step (Overlay.Ask question) (gate st)))
      with (Overlay.resolved (gate st)).
    split; [rewrite fmap_app, Hasks, seq_S; reflexivity|].
    split; [apply (step_invariant (Overlay.Ask question)), Hgate|].
    rewrite Hans.
    apply list_fmap_ext. intros k r Hr.
    unfold answer_for. rewrite waiting_session_app; [reflexivity|].
    rewrite Hasks. apply elem_of_seq. split; [lia|]. simpl.
    destruct Hgate as (_ & Hlt & _). apply Hlt.
    apply list_elem_of_fmap. exists r. split; [reflexivity|].
    eapply list_elem_of_lookup_2, Hr.
  - eexists _, _. split; [reflexivity|]. split; [exact Hc|].
    rewrite app_nil_r. reflexivity.
Qed.

Lemma human_step (a : HumanAct) (st : State) :
  consistent st -> consistent (human a st) /\ reports (human a st) = reports st.
Proof.
  intros Hc. pose proof Hc as (Hv & Hasks & Hgate & Hans).
  unfold human. destruct (overlay st) as [o|] eqn:Ho; [|auto].
  assert (Hg : gate st = questions o) by (unfold gate; rewrite Ho; reflexivity).
  destruct a as [| | |ev].
  - destruct (_ && _); [|auto]. split.
    + apply (consistent_keep st _ [ACTIVATE]); simpl; auto;
        unfold gate; simpl; rewrite Ho; reflexivity.
    + rewrite (reports_sent st _ [ACTIVATE]) by reflexivity. apply app_nil_r.
  - destruct (negb _); [|auto]. split.
    + apply (consistent_keep st _ [STOP]); simpl; auto;
        unfold gate; simpl; rewrite Ho; reflexivity.
    + rewrite (reports_sent st _ [STOP]) by reflexivity. apply app_nil_r.
  - split; [|reflexivity].
    apply (consistent_keep st _ []); simpl; auto; try (rewrite app_nil_r; reflexivity).
  - match goal with |- consistent ?s /\ _ => set (st' := s) end.
    assert (Hg' : gate st' = Overlay.step (Overlay.Ui ev) (gate st)).
    { subst st'. unfold gate at 1. simpl. rewrite Hg. reflexivity. }
    assert (Hinv' : Spec.gate_invariant (gate st'))
      by (rewrite Hg'; apply step_invariant, Hgate).
    assert (Hasks' : asks_in_step st').
    { unfold asks_in_step. rewrite Hg'.
      change (Overlay.step (Overlay.Ui ev) (gate st)) with (Overlay.dispatch ev (gate st)).
      rewrite dispatch_promises. exact Hasks. }
    destruct (dispatch_resolved ev (questions o)) as [Hsame|(pr & Hq & Hnew)].
    + assert (Hsent : sent st' = (sent st ++ [])%list).
      { subst st'. simpl. rewrite Hsame, drop_all. reflexivity. }
      split.
      * split; [exact Hv|]. split; [exact Hasks'|]. split; [exact Hinv'|].
        rewrite (answers_sent_sent st st' [] Hsent), app_nil_r, Hans, Hg', Hg.
        change (Overlay.step (Overlay.Ui ev) (questions o))
          with (Overlay.dispatch ev (questions o)).
        rewrite Hsame. reflexivity.
      * rewrite (reports_sent st st' [] Hsent). apply app_nil_r.
    + assert (Hin : Overlay.gate pr ∈ (asking st).*1).
      { rewrite Hasks. apply elem_of_seq. split; [lia|]. simpl.
        destruct Hgate as (_ & _ & Hpr). rewrite Hg in Hpr |- *. apply (Hpr pr Hq). }
      destruct (waiting_session_defined _ _ Hin) as [sid Hsid].
      assert (Hsent : sent st'
                      = (sent st ++ [ANSWER_HUMAN sid (Js.trim (Overlay.input_value pr))])%list).
      { subst st'. simpl. rewrite Hnew, drop_app_length. simpl.
        unfold resume. simpl. rewrite Hsid. reflexivity. }
      split.
      * split; [exact Hv|]. split; [exact Hasks'|]. split; [exact Hinv'|].
        rewrite (answers_sent_sent st st' _ Hsent). simpl.
        rewrite fmap_app, Hans, Hg', Hg.
        change (Overlay.step (Overlay.Ui ev) (questions o))
          with (Overlay.dispatch ev (questions o)).
        rewrite Hnew, fmap_app. simpl. unfold answer_for at 3. simpl. rewrite Hsid.
        reflexivity.
      * rewrite (reports_sent st st' _ Hsent). apply app_nil_r.
Qed.

Lemma run_consistent (ins : list Input) :
  forall st, consistent st ->
    exists st', run ins st = Some st'
                /\ consistent st'
                /\ reports st' = (reports st ++ concat (owed_input <$> ins))%list.
Proof.
  induction ins as [|i ins IH]; intros st Hc; simpl.
  - exists st. rewrite app_nil_r. auto.
  - destruct i as [c|a]; simpl.
    + destruct (command_step c st Hc) as (r & st1 & -> & Hc1 & Hr1). simpl.
      destruct (IH st1 Hc1) as (st' & Hrun & Hc' & Hr').
      exists st'. split; [exact Hrun|]. split; [exact Hc'|].
      rewrite Hr', Hr1, <- app_assoc. reflexivity.
    + destruct (human_step a st Hc) as [Hc1 Hr1].
      destruct (IH _ Hc1) as (st' & Hrun & Hc' & Hr').
      exists st'. split; [exact Hrun|]. split; [exact Hc'|].
      rewrite Hr', Hr1. reflexivity.
Qed.

Lemma start_consistent (d : Dom.Document) : consistent (start d).
Proof.
  split; [intros ref p Hp; simpl in Hp; rewrite lookup_empty in Hp; discriminate|].
  split; [reflexivity|]. split; [apply init_invariant|reflexivity].
Qed.

(** X13. Whatever commands and acts of the human reach the content script
    of a page, in whatever order, every command is served, and the page
    data and action results sent are, in order, one page data for every
    scan command and one action result for every fill and every click
    command, each with the session id of its command; a fill or click
    that fails is reported like one that succeeds, and a command of an
    unknown type is answered with an error and reports nothing. *)
Theorem every_command_is_reported (d : Dom.Document) (ins : list Input) :
  exists st,
    run ins (start d) = Some st
    /\ reports st = concat (owed_input <$> ins)
    /\ (forall ref value sid r pg,
          Scanner.fillFieldByRef ref value (page st) = Some (r, pg) ->
          exists o, handleCommand (FILL_FIELD ref value sid) st
                    = Some (ReplyOk, mkState (Some o) pg (sent st ++ [ACTION_RESULT sid r])
                                       (asking st)))
    /\ (forall type, handleCommand (OTHER type) st
                     = Some (ReplyError ("Unknown command: " +:+ type), st)).
Proof.
  destruct (run_consistent ins (start d) (start_consistent d)) as (st & Hrun & _ & Hr).
  exists st. split; [exact Hrun|]. split; [exact Hr|]. split; [|reflexivity].
  intros ref value sid r pg Hf. simpl. rewrite Hf. eauto.
Qed.

(** X14. Whatever commands and acts of the human reach the content script,
    the answers it has sent are, in order, the resolutions of the
    question promises, each sent with the session id of the ask command
    that opened its question: no answer goes out under another session's
    id, none goes out twice, and none goes out for a question that was
    not asked. *)
Theorem answers_carry_the_asking_session (d : Dom.Document) (ins : list Input) :
  exists st,
    run ins (start d) = Some st
    /\ Some <$> answers_sent st = answer_for (asking st) <$> Overlay.resolved (gate st)
    /\ (asking st).*1 = seq 0 (Overlay.promises (gate st))
    /\ NoDup (Overlay.resolved (gate st)).*1
    /\ length (answers_sent st) = length (Overlay.resolved (gate st))
    /\ (length (answers_sent st) <= length (asking st))%nat.
Proof.
  destruct (run_consistent ins (start d) (start_consistent d))
    as (st & Hrun & (_ & Hasks & Hgate & Hans) & _).
  exists st. split; [exact Hrun|]. split; [exact Hans|]. split; [exact Hasks|].
  destruct Hgate as (Hnd & Hlt & _). split; [exact Hnd|].
  assert (Hlen : length (answers_sent st) = length (Overlay.resolved (gate st))).
  { apply (f_equal length) in Hans. rewrite !length_fmap in Hans. exact Hans. }
  split; [exact Hlen|]. rewrite Hlen.
  rewrite <- (length_fmap fst (Overlay.resolved (gate st))).
  rewrite <- (length_fmap fst (asking st)), Hasks, length_seq.
  assert (Hsub : (Overlay.resolved (gate st)).*1 ⊆ seq 0 (Overlay.promises (gate st))).
  { intros g Hg. apply elem_of_seq. split; [lia|]. simpl. apply Hlt, Hg. }
  pose proof (submseteq_length _ _ (NoDup_submseteq _ _ Hnd Hsub)) as Hle.
  rewrite length_seq in Hle. exact Hle.
Qed.

Example ask_then_answer :
  exists st,
    run [Cmd (ASK_HUMAN "Name?" "s1"); Act (Question (Overlay.Edit " Ada "));
         Act (Question (Overlay.KeyDown "Enter"))]
        (start Fixtures.form1) = Some st
    /\ sent st = [ANSWER_HUMAN "s1" "Ada"].
Proof. eexists. split; reflexivity. Qed.

Lemma run_app (ins1 ins2 : list Input) :
  forall st, run (ins1 ++ ins2) st = run ins1 st ≫= run ins2.
Proof.
  induction ins1 as [|i ins1 IH]; intros st; simpl; [reflexivity|].
  destruct (step i st) as [st1|]; simpl; [apply IH|reflexivity].
Qed.

Lemma ask_step (question sid : string) (st : State) :
  exists st',
    handleCommand (ASK_HUMAN question sid) st = Some (Awaiting (Overlay.promises (gate st)), st')
    /\ gate st' = Overlay.step (Overlay.Ask question) (gate st)
    /\ asking st' = (asking st ++ [(Overlay.promises (gate st), sid)])%list
    /\ sent st' = sent st.
Proof.
  simpl. unfold showQuestion. simpl. rewrite gate_ensureOverlay.
  eexists. split; [reflexivity|]. unfold gate at 1. simpl.
  rewrite ?gate_ensureOverlay. auto.
Qed.

Lemma step_gate_asking (i : Input) (st st' : State) :
  step i st = Some st' ->
  (gate st' = gate st \/ exists s, gate st' = Overlay.step s (gate st))
  /\ exists l, asking st' = (asking st ++ l)%list.
Proof.
  destruct i as [c|a]; simpl.
  - destruct c as [s m|sid|ref value sid|ref sid|question sid|type]; simpl.
    + intros [= <-]. split; [left|exists []; simpl; symmetry; apply app_nil_r].
      unfold gate at 1. simpl. apply gate_ensureOverlay.
    + destruct (Scanner.scanPage (page st)) as [snap pg]. simpl.
      intros [= <-]. split; [left|exists []; simpl; symmetry; apply app_nil_r].
      unfold gate at 1. simpl. apply gate_ensureOverlay.
    + destruct (Scanner.fillFieldByRef ref value (page st)) as [[r pg]|]; simpl; [|discriminate].
      intros [= <-]. split; [left|exists []; simpl; symmetry; apply app_nil_r].
      unfold gate at 1. simpl. apply gate_ensureOverlay.
    + destruct (Scanner.clickElementByRef ref (page st)) as [[r pg]|]; simpl; [|discriminate].
      intros [= <-]. split; [left|exists []; simpl; symmetry; apply app_nil_r].
      unfold gate at 1. simpl. apply gate_ensureOverlay.
    + intros [= <-]. split; [right; exists (Overlay.Ask question)|eexists; reflexivity].
      unfold gate at 1. simpl. rewrite ?gate_ensureOverlay. reflexivity.
    + intros [= <-]. split; [left; reflexivity|exists []; symmetry; apply app_nil_r].
  - intros [= <-]. unfold human.
    destruct (overlay st) as [o|] eqn:Ho;
      [|split; [left; reflexivity|exists []; symmetry; apply app_nil_r]].
    assert (Hg : gate st = questions o) by (unfold gate; rewrite Ho; reflexivity).
    destruct a as [| | |ev].
    + split; [left|exists []; destruct (_ && _); simpl; symmetry; apply app_nil_r].
      destruct (_ && _); [|reflexivity]. unfold gate. simpl. rewrite Ho. reflexivity.
    + split; [left|exists []; destruct (negb _); simpl; symmetry; apply app_nil_r].
      destruct (negb _); [|reflexivity]. unfold gate. simpl. rewrite Ho. reflexivity.
    + split; [left; rewrite Hg; reflexivity|exists []; simpl; symmetry; apply app_nil_r].
    + split; [right; exists (Overlay.Ui ev); rewrite Hg; reflexivity|].
      exists []. simpl. symmetry. apply app_nil_r.
Qed.

Lemma run_abandoned (p : nat) (x : nat * string) (ins : list Input) :
  forall st st',
    run ins st = Some st' ->
    Spec.abandoned p (gate st) -> asking st !! p = Some x ->
    Spec.abandoned p (gate st') /\ asking st' !! p = Some x.
Proof.
  induction ins as [|i ins IH]; intros st st' Hrun Hab Hx; simpl in Hrun.
  - injection Hrun as <-. auto.
  - destruct (step i st) as [st1|] eqn:Hstep; simpl in Hrun; [|discriminate].
    destruct (step_gate_asking i st st1 Hstep) as [Hg [l Hl]].
    apply (IH st1 st' Hrun).
    + destruct Hg as [->|[s ->]]; [exact Hab|apply abandoned_step, Hab].
    + rewrite Hl. apply lookup_app_l_Some, Hx.
Qed.

(** X15. A question that is asked while another is still on display
    replaces it, and the replaced one is lost for good: whatever came
    before the two ask commands and whatever comes after them, the
    promise of the first of the two is never resolved, so that the
    content script has sent fewer answers than it has received ask
    commands, and the handler of the first command, which waits with its
    session id for that promise, never sends its answer. *)
Theorem replaced_question_is_never_answered (d : Dom.Document) (before after : list Input)
    (q1 s1 q2 s2 : string) :
  exists st p,
    run (before ++ [Cmd (ASK_HUMAN q1 s1); Cmd (ASK_HUMAN q2 s2)] ++ after) (start d) = Some st
    /\ asking st !! p = Some (p, s1)
    /\ Overlay.settled p (gate st) = None
    /\ (length (answers_sent st) < length (asking st))%nat.
Proof.
  destruct (run_consistent before (start d) (start_consistent d)) as (st0 & Hrun0 & Hc0 & _).
  destruct (ask_step q1 s1 st0) as (st1 & Hh1 & Hg1 & Ha1 & _).
  destruct (command_step (ASK_HUMAN q1 s1) st0 Hc0) as (r1 & st1' & Hh1' & Hc1 & _).
  rewrite Hh1 in Hh1'. injection Hh1' as _ <-.
  destruct (ask_step q2 s2 st1) as (st2 & Hh2 & Hg2 & Ha2 & _).
  destruct (command_step (ASK_HUMAN q2 s2) st1 Hc1) as (r2 & st2' & Hh2' & Hc2 & _).
  rewrite Hh2 in Hh2'. injection Hh2' as _ <-.
  destruct (run_consistent after st2 Hc2) as (st & Hrun & Hc & _).
  set (p := Overlay.promises (gate st0)) in *.
  assert (Hlen0 : length (asking st0) = p).
  { destruct Hc0 as (_ & Hasks & _). rewrite <- (length_fmap fst), Hasks. apply length_seq. }
  assert (Hab2 : Spec.abandoned p (gate st2)).
  { rewrite Hg2, Hg1. split; [simpl; fold p; lia|]. split.
    - simpl. intros Hin. destruct Hc0 as (_ & _ & (_ & Hlt & _) & _).
      apply Hlt in Hin. fold p in Hin. lia.
    - simpl. intros pr [= <-]. simpl. fold p. lia. }
  assert (Hx2 : asking st2 !! p = Some (p, s1)).
  { rewrite Ha2, Ha1, <- app_assoc. rewrite lookup_app_r by lia.
    rewrite Hlen0, Nat.sub_diag. reflexivity. }
  destruct (run_abandoned p (p, s1) after st2 st Hrun Hab2 Hx2) as [Hab Hx].
  exists st, p. split.
  { assert (H1 : step (Cmd (ASK_HUMAN q1 s1)) st0 = Some st1)
      by (unfold step; rewrite Hh1; reflexivity).
    assert (H2 : step (Cmd (ASK_HUMAN q2 s2)) st1 = Some st2)
      by (unfold step; rewrite Hh2; reflexivity).
    rewrite run_app, Hrun0.
    change (step (Cmd (ASK_HUMAN q1 s1)) st0
              ≫= (fun s => step (Cmd (ASK_HUMAN q2 s2)) s ≫= run after) = Some st).
    rewrite H1. change (step (Cmd (ASK_HUMAN q2 s2)) st1 ≫= run after = Some st).
    rewrite H2. exact Hrun. }
  split; [exact Hx|].
  destruct Hab as (Hp & Hfresh & _).
  split; [unfold Overlay.settled, Overlay.answers; rewrite (answers_nil _ _ Hfresh); reflexivity|].
  destruct Hc as (_ & Hasks & (Hnd & Hlt & _) & Hans).
  apply (f_equal length) in Hans. rewrite !length_fmap in Hans. rewrite Hans.
  rewrite <- (length_fmap fst (asking st)), Hasks, length_seq.
  rewrite <- (length_fmap fst (Overlay.resolved (gate st))).
  assert (Hnd' : NoDup (p :: (Overlay.resolved (gate st)).*1))
    by (apply NoDup_cons; auto).
  assert (Hsub : p :: (Overlay.resolved (gate st)).*1 ⊆ seq 0 (Overlay.promises (gate st))).
  { intros g Hg. apply elem_of_seq. split; [lia|]. simpl.
    apply elem_of_cons in Hg as [->|Hg]; [exact Hp|apply Hlt, Hg]. }
  pose proof (submseteq_length _ _ (NoDup_submseteq _ _ Hnd' Hsub)) as Hle.
  rewrite length_seq in Hle. simpl in Hle. lia.
Qed.

End OrchestratorLaws.

(** ** The background worker: registry and streams over a run *)
Section BridgeLaws.
Import Relay Bridge.

Lemma well_formed_ext (st st' : State) :
  sessions st' = sessions st -> streams st' = streams st ->
  well_formed st -> well_formed st'.
Proof.
  intros Hs Hstr [Hro Hor]. split.
  - intros t s. rewrite Hs, Hstr. apply Hro.
  - intros i e. rewrite Hs, Hstr. apply Hor.
Qed.

Lemma teardown_well_formed (st st' : State) (t : Z) (s : Session) :
  well_formed st -> sessions st !! t = Some s ->
  sessions st' = delete t (sessions st) ->
  streams st' = alter close_stream (eventSource s) (streams st) ->
  well_formed st'.
Proof.
  intros [Hro Hor] Hts Hs Hstr. split.
  - intros t' s'. rewrite Hs, Hstr. intros Hl.
    apply lookup_delete_Some in Hl as [Hne Hl].
    rewrite list_lookup_alter_ne; [apply Hro, Hl|].
    intros Heq. pose proof (Hro _ _ Hl) as H1. pose proof (Hro _ _ Hts) as H2.
    rewrite <- Heq in H1. rewrite H1 in H2. congruence.
  - intros i e. rewrite Hs, Hstr. intros Hl Hopen.
    destruct (decide (i = eventSource s)) as [->|Hne].
    + rewrite list_lookup_alter_eq in Hl.
      destruct (streams st !! eventSource s); simpl in Hl; [|discriminate].
      injection Hl as <-. discriminate Hopen.
    + rewrite list_lookup_alter_ne in Hl by congruence.
      pose proof (Hor _ _ Hl Hopen) as Hreg.
      rewrite lookup_delete_ne; [exact Hreg|].
      intros Heq. rewrite <- Heq, Hts in Hreg. injection Hreg as ->. apply Hne. reflexivity.
Qed.

Lemma start_well_formed (st : State) (t : Z) (sid : string) :
  well_formed st -> sessions st !! t = None ->
  well_formed (mkState (<[t := mkSession sid (length (streams st))]> (sessions st))
                       (streams st ++ [mkEventSource sid t false])
                       (effects st ++ [CreateStatusStream sid (length (streams st))])).
Proof.
  intros [Hro Hor] Hnone. split.
  - intros t' s'. simpl. intros Hl. apply lookup_insert_Some in Hl as [[<- <-]|[Hne Hl]].
    + simpl. rewrite lookup_app_r by lia. rewrite Nat.sub_diag. reflexivity.
    + rewrite lookup_app_l by (eapply lookup_lt_Some, Hro, Hl). apply Hro, Hl.
  - intros i e. simpl. intros Hl Hopen. apply lookup_app_Some in Hl as [Hl|[Hge Hl]].
    + pose proof (Hor _ _ Hl Hopen) as Hreg.
      rewrite lookup_insert_ne; [exact Hreg|]. intros Heq. rewrite <- Heq in Hreg. congruence.
    + apply list_lookup_singleton_Some in Hl as [Hi <-]. simpl.
      replace i with (length (streams st)) by lia. apply lookup_insert_eq.
Qed.

Lemma activate_well_formed (sender_tab : option Z) (w : World) (st : State) :
  well_formed st -> well_formed (handleActivate sender_tab w st).2.
Proof.
  intros Hwf. unfold handleActivate.
  destruct (senderTab_effects sender_tab w st) as (Hs & Hstr & _).
  pose proof (well_formed_ext st _ Hs Hstr Hwf) as Hwf0.
  destruct (senderTab sender_tab w st) as [tabId st0]. simpl in Hwf0 |- *. clear Hs Hstr.
  destruct (truthy_tab tabId) as [t|]; [|exact Hwf0].
  set (st1 := match sessions st0 !! t with
              | Some existing =>
                  sessions_delete t
                    (emit (StopAutofill (sessionId existing)) (close (eventSource existing) st0))
              | None => st0
              end).
  assert (Hwf1 : well_formed st1 /\ sessions st1 !! t = None).
  { subst st1. destruct (sessions st0 !! t) as [existing|] eqn:Hex; [|auto].
    split; [|simpl; apply lookup_delete_eq].
    apply (teardown_well_formed st0 _ t existing Hwf0 Hex); reflexivity. }
  destruct Hwf1 as [Hwf1 Hnone].
  assert (Hwf2 : well_formed (emit StartAutofill st1))
    by (apply (well_formed_ext st1); [reflexivity|reflexivity|exact Hwf1]).
  destruct (start_reply w) as [sid|err]; simpl; [|exact Hwf2].
  apply (start_well_formed (emit StartAutofill st1) t sid Hwf2). exact Hnone.
Qed.

Lemma stop_well_formed (sender_tab : option Z) (w : World) (st : State) :
  well_formed st -> well_formed (handleStop sender_tab w st).2.
Proof.
  intros Hwf. unfold handleStop.
  destruct (senderTab_effects sender_tab w st) as (Hs & Hstr & _).
  pose proof (well_formed_ext st _ Hs Hstr Hwf) as Hwf0.
  destruct (senderTab sender_tab w st) as [tabId st0]. simpl in Hwf0 |- *. clear Hs Hstr.
  destruct (truthy_tab tabId) as [t|]; [|exact Hwf0].
  destruct (sessions st0 !! t) as [session|] eqn:Hex; [|exact Hwf0].
  simpl. apply (teardown_well_formed st0 _ t session Hwf0 Hex); reflexivity.
Qed.

Lemma onRemoved_well_formed (t : Z) (st : State) :
  well_formed st -> well_formed (onRemoved t st).
Proof.
  intros Hwf. unfold onRemoved.
  destruct (sessions st !! t) as [session|] eqn:Hex; [|exact Hwf].
  apply (teardown_well_formed st _ t session Hwf Hex); reflexivity.
Qed.

Lemma is_open_Some (es : nat) (st : State) :
  is_open es st = true <-> exists s, streams st !! es = Some s /\ es_closed s = false.
Proof.
  unfold is_open. destruct (streams st !! es) as [s|]; split.
  - intros H. exists s. split; [reflexivity|]. destruct (es_closed s); [discriminate|reflexivity].
  - intros (s' & [= <-] & ->). reflexivity.
  - discriminate.
  - intros (s' & [=] & _).
Qed.

Lemma onerror_well_formed (es : nat) (st : State) :
  well_formed st -> is_open es st = true -> well_formed (onerror es st).
Proof.
  intros Hwf Hopen. apply is_open_Some in Hopen as (s & Hs & Hop).
  unfold onerror. rewrite Hs.
  pose proof (proj2 Hwf _ _ Hs Hop) as Hreg.
  apply (teardown_well_formed st _ (es_tab s) _ Hwf Hreg); reflexivity.
Qed.

Lemma step_well_formed (ev : Event) (st : State) :
  well_formed st -> well_formed (step ev st).
Proof.
  intros Hwf. destruct ev as [m sender_tab w|es|t]; simpl.
  - destruct m; [apply activate_well_formed|apply stop_well_formed]; exact Hwf.
  - destruct (is_open es st) eqn:Hopen; [apply onerror_well_formed; assumption|exact Hwf].
  - apply onRemoved_well_formed, Hwf.
Qed.

Lemma init_well_formed : well_formed init.
Proof.
  split.
  - intros t s Hl. simpl in Hl. rewrite lookup_empty in Hl. discriminate.
  - intros i e Hl. destruct i; discriminate Hl.
Qed.

Lemma run_well_formed (evs : list Event) :
  forall st, well_formed st -> well_formed (run evs st).
Proof.
  induction evs as [|ev evs IH]; intros st Hwf; [exact Hwf|].
  simpl. apply IH, step_well_formed, Hwf.
Qed.

Lemma elem_of_open_streams (i : nat) (st : State) :
  i ∈ open_streams st <-> exists e, streams st !! i = Some e /\ es_closed e = false.
Proof.
  unfold open_streams. rewrite list_elem_of_filter, is_open_Some, elem_of_seq. split.
  - intros [H _]. exact H.
  - intros (e & He & Hop). split; [eauto|]. split; [lia|]. simpl. eapply lookup_lt_Some, He.
Qed.

Lemma one_open_stream_per_tab (st : State) (i j : nat) (e1 e2 : EventSource) :
  well_formed st ->
  streams st !! i = Some e1 -> streams st !! j = Some e2 ->
  es_closed e1 = false -> es_closed e2 = false ->
  es_tab e1 = es_tab e2 -> i = j.
Proof.
  intros [_ Hor] H1 H2 Ho1 Ho2 Htab.
  pose proof (Hor _ _ H1 Ho1) as R1. pose proof (Hor _ _ H2 Ho2) as R2.
  rewrite Htab, R2 in R1. congruence.
Qed.

Lemma open_streams_size (st : State) :
  well_formed st -> length (open_streams st) = size (sessions st).
Proof.
  intros Hwf. pose proof Hwf as [Hro Hor].
  set (f := fun i => default 0%Z (es_tab <$> streams st !! i)).
  assert (Hnd : NoDup (f <$> open_streams st)).
  { apply NoDup_fmap_2_strong; [|apply NoDup_filter, NoDup_seq].
    intros i j Hi Hj Hf.
    apply elem_of_open_streams in Hi as (e1 & H1 & Ho1).
    apply elem_of_open_streams in Hj as (e2 & H2 & Ho2).
    unfold f in Hf. rewrite H1, H2 in Hf. simpl in Hf.
    exact (one_open_stream_per_tab st i j e1 e2 Hwf H1 H2 Ho1 Ho2 Hf). }
  assert (Hset : list_to_set (f <$> open_streams st) =@{gset Z} dom (sessions st)).
  { apply set_eq. intros t. rewrite elem_of_list_to_set, list_elem_of_fmap, elem_of_dom. split.
    - intros (i & -> & Hi). apply elem_of_open_streams in Hi as (e & He & Hop).
      unfold f. rewrite He. simpl. rewrite (Hor _ _ He Hop). eauto.
    - intros [s Hs]. exists (eventSource s). pose proof (Hro _ _ Hs) as Hstr. split.
      + unfold f. rewrite Hstr. reflexivity.
      + apply elem_of_open_streams. eauto. }
  rewrite <- (length_fmap f), <- (size_list_to_set (C := gset Z)) by exact Hnd.
  rewrite Hset. apply size_dom.
Qed.

(** X16. As long as the worker handles one message, stream error or tab
    removal at a time, registry and streams agree after any run from
    its start: every entry names an open stream made for its tab and
    its session, every open stream is the stream of its tab's entry, so
    no tab has two open streams and there are as many open streams as
    entries. No stream is left open without an entry, no entry is left
    with a closed stream. *)
Theorem registry_and_streams_agree (evs : list Event) :
  let st := run evs init in
  (forall t s, sessions st !! t = Some s ->
     streams st !! eventSource s = Some (mkEventSource (sessionId s) t false))
  /\ (forall i e, streams st !! i = Some e -> es_closed e = false ->
        sessions st !! es_tab e = Some (mkSession (es_session e) i))
  /\ (forall i j e1 e2, streams st !! i = Some e1 -> streams st !! j = Some e2 ->
        es_closed e1 = false -> es_closed e2 = false -> es_tab e1 = es_tab e2 -> i = j)
  /\ length (open_streams st) = size (sessions st).
Proof.
  intros st. pose proof (run_well_formed evs init init_well_formed) as Hwf. fold st in Hwf.
  split; [exact (proj1 Hwf)|]. split; [exact (proj2 Hwf)|]. split.
  - intros i j e1 e2. apply one_open_stream_per_tab, Hwf.
  - apply open_streams_size, Hwf.
Qed.

Example two_tabs_agree :
  map_to_list (sessions Tabs.two_tabs) = [(7%Z, mkSession "s-7" 0); (9%Z, mkSession "s-9" 1)]
  /\ open_streams Tabs.two_tabs = [0; 1]%nat
  /\ open_streams (step (StreamError 0) Tabs.two_tabs) = [1%nat]
  /\ map_to_list (sessions (step (StreamError 0) Tabs.two_tabs)) = [(9%Z, mkSession "s-9" 1)].
Proof. repeat split; vm_compute; reflexivity. Qed.

Lemma teardown_frame (st st' : State) (t t' : Z) (s : Session) :
  well_formed st -> sessions st !! t = Some s ->
  sessions st' = delete t (sessions st) ->
  streams st' = alter close_stream (eventSource s) (streams st) ->
  t <> t' ->
  sessions st' !! t' = sessions st !! t'
  /\ forall s', sessions st !! t' = Some s' ->
       streams st' !! eventSource s' = streams st !! eventSource s'.
Proof.
  intros [Hro _] Hts -> -> Hne. split; [apply lookup_delete_ne, Hne|].
  intros s' Hs'. apply list_lookup_alter_ne. intros Heq.
  pose proof (Hro _ _ Hts) as H1. pose proof (Hro _ _ Hs') as H2.
  rewrite Heq, H2 in H1. congruence.
Qed.

(** X17. An event about one tab leaves every other tab's session alone:
    in a worker whose registry and streams agree, after a message from
    a tab (ACTIVATE or STOP), the error of a stream or the removal of a
    tab, every tab the event is not about has the entry it had, and the
    stream of that entry is as it was, open. An ACTIVATE or STOP for
    which no tab can be found changes no entry and no stream at all. *)
Theorem other_tabs_are_left_alone (ev : Event) (st : State) (t' : Z) :
  well_formed st ->
  target ev st <> Some t' ->
  sessions (step ev st) !! t' = sessions st !! t'
  /\ (forall s', sessions st !! t' = Some s' ->
        streams (step ev st) !! eventSource s' = streams st !! eventSource s')
  /\ (target ev st = None ->
        sessions (step ev st) = sessions st /\ streams (step ev st) = streams st).
Proof.
  intros Hwf Ht.
  destruct ev as [m sender_tab w|es|t]; simpl in Ht |- *.
  - destruct (senderTab_effects sender_tab w st) as (Hs & Hstr & _).
    pose proof (well_formed_ext st _ Hs Hstr Hwf) as Hwf0.
    destruct m; simpl; unfold handleActivate, handleStop;
      destruct (senderTab sender_tab w st) as [tabId st0]; simpl in Hs, Hstr, Hwf0, Ht |- *;
      rewrite <- Hs, <- Hstr;
      (destruct (truthy_tab tabId) as [t|]; [|split; [reflexivity|]; split; auto]).
    + assert (Hne : t <> t') by congruence.
      split; [|split; [|discriminate]].
      * destruct (sessions st0 !! t) as [existing|] eqn:Hex;
          destruct (start_reply w) as [sid|err]; simpl;
          rewrite ?lookup_insert_ne, ?lookup_delete_ne by exact Hne; reflexivity.
      * intros s' Hs'. pose proof (proj1 Hwf0 _ _ Hs') as Hstr'.
        destruct (sessions st0 !! t) as [existing|] eqn:Hex.
        -- destruct (teardown_frame st0
                       (sessions_delete t
                          (emit (StopAutofill (sessionId existing))
                                (close (eventSource existing) st0)))
                       t t' existing Hwf0 Hex eq_refl eq_refl Hne) as [_ Hfr].
           specialize (Hfr s' Hs'). simpl in Hfr.
           destruct (start_reply w) as [sid|err]; simpl; [|exact Hfr].
           rewrite lookup_app_l; [exact Hfr|].
           rewrite length_alter. eapply lookup_lt_Some, Hstr'.
        -- destruct (start_reply w) as [sid|err]; simpl; [|reflexivity].
           apply lookup_app_l. eapply lookup_lt_Some, Hstr'.
    + assert (Hne : t <> t') by congruence.
      split; [|split; [|discriminate]].
      * destruct (sessions st0 !! t) as [session|] eqn:Hex; simpl;
          rewrite ?lookup_delete_ne by exact Hne; reflexivity.
      * intros s' Hs'.
        destruct (sessions st0 !! t) as [session|] eqn:Hex; simpl; [|reflexivity].
        destruct (teardown_frame st0
                    (sessions_delete t
                       (close (eventSource session)
                              (emit (StopAutofill (sessionId session)) st0)))
                    t t' session Hwf0 Hex eq_refl eq_refl Hne) as [_ Hfr].
        exact (Hfr s' Hs').
  - destruct (is_open es st) eqn:Hopen; [|auto].
    apply is_open_Some in Hopen as (s & Hs & Hop). rewrite Hs in Ht. simpl in Ht.
    assert (Hne : es_tab s <> t') by congruence.
    pose proof (proj2 Hwf _ _ Hs Hop) as Hreg.
    unfold onerror. rewrite Hs.
    destruct (teardown_frame st (sessions_delete (es_tab s) (close es st))
                (es_tab s) t' _ Hwf Hreg eq_refl eq_refl Hne) as [Hfs Hfr].
    split; [exact Hfs|]. split; [exact Hfr|]. discriminate.
  - assert (Hne : t <> t') by congruence.
    unfold onRemoved. split; [|split; [|discriminate]].
    + destruct (sessions st !! t) as [session|] eqn:Hex; simpl;
        rewrite ?lookup_delete_ne by exact Hne; reflexivity.
    + intros s' Hs'.
      destruct (sessions st !! t) as [session|] eqn:Hex; simpl; [|reflexivity].
      destruct (teardown_frame st
                  (sessions_delete t
                     (emit (StopAutofill (sessionId session)) (close (eventSource session) st)))
                  t t' session Hwf Hex eq_refl eq_refl Hne) as [_ Hfr].
      exact (Hfr s' Hs').
Qed.

Lemma other_tabs_are_left_alone_witness :
  let st := step (Request STOP (Some 7%Z) Fixtures.world_ok) Tabs.two_tabs in
  sessions st !! 9%Z = Some (mkSession "s-9" 1)
  /\ streams st !! 1%nat = Some (mkEventSource "s-9" 9 false)
  /\ sessions st !! 7%Z = None.
Proof.
  intros st.
  destruct (other_tabs_are_left_alone (Request STOP (Some 7%Z) Fixtures.world_ok)
              Tabs.two_tabs 9%Z (run_well_formed _ _ init_well_formed)
              ltac:(discriminate)) as (H1 & H2 & _).
  split; [exact H1|]. split; [exact (H2 (mkSession "s-9" 1) eq_refl)|reflexivity].
Defined.

(** X18. The three ways a session of a tab ends, in a worker whose
    registry and streams agree. A STOP from the tab, the removal of the
    tab and an error of the session's stream all close the stream and
    drop the tab's entry, and touch no other entry or stream. They
    differ in what they tell the others: STOP asks the backend to stop
    the session, then closes, and tells the page that it stopped; the
    removal closes and asks the backend to stop; the stream error only
    closes, so that neither the backend nor the page hears of it. A
    second STOP from the tab then does nothing. *)
Theorem three_ways_to_end_a_session (st : State) (t : Z) (s : Session) (w : World) :
  well_formed st ->
  sessions st !! t = Some s ->
  t <> 0%Z ->
  let stopped := handleMessage STOP (Some t) w st in
  let removed := step (TabRemoved t) st in
  let errored := step (StreamError (eventSource s)) st in
  stopped.1 = ROk
  /\ (forall st', st' ∈ [stopped.2; removed; errored] ->
        sessions st' = delete t (sessions st)
        /\ streams st' = alter close_stream (eventSource s) (streams st))
  /\ effects stopped.2
     = (effects st ++ [StopAutofill (sessionId s); Close (eventSource s);
                       SendStatus t "stopped" "Stopped."])%list
  /\ effects removed = (effects st ++ [Close (eventSource s); StopAutofill (sessionId s)])%list
  /\ effects errored = (effects st ++ [Close (eventSource s)])%list
  /\ (forall w', handleMessage STOP (Some t) w' stopped.2 = (ROk, stopped.2)).
Proof.
  intros Hwf Hts Hne stopped removed errored.
  pose proof (proj1 Hwf _ _ Hts) as Hstr.
  assert (Hopen : is_open (eventSource s) st = true)
    by (apply is_open_Some; eexists; split; [exact Hstr|reflexivity]).
  assert (Hstop : forall w', handleMessage STOP (Some t) w' st
                  = (ROk, emit (SendStatus t "stopped" "Stopped.")
                            (sessions_delete t
                               (close (eventSource s)
                                      (emit (StopAutofill (sessionId s)) st))))).
  { intros w'. unfold handleMessage, handleStop, senderTab.
    rewrite (truthy_tab_Some t Hne). cbv beta iota zeta.
    rewrite (truthy_tab_Some t Hne), Hts. reflexivity. }
  assert (Hrem : removed = sessions_delete t
                             (emit (StopAutofill (sessionId s)) (close (eventSource s) st))).
  { subst removed. simpl. unfold onRemoved. rewrite Hts. reflexivity. }
  assert (Herr : errored = sessions_delete t (close (eventSource s) st)).
  { subst errored. simpl. rewrite Hopen. unfold onerror. rewrite Hstr. reflexivity. }
  subst stopped. rewrite (Hstop w), Hrem, Herr. simpl.
  split; [reflexivity|]. split.
  { intros st' Hin. repeat (apply elem_of_cons in Hin as [->|Hin]); simpl; auto.
    inversion Hin. }
  split; [rewrite <- !app_assoc; reflexivity|].
  split; [rewrite <- !app_assoc; reflexivity|]. split; [reflexivity|].
  intros w'. unfold handleStop, senderTab.
  rewrite (truthy_tab_Some t Hne). cbv beta iota zeta.
  rewrite (truthy_tab_Some t Hne). simpl. rewrite lookup_delete_eq.
  reflexivity.
Qed.

Lemma three_ways_to_end_a_session_witness :
  let stopped := handleMessage STOP (Some 7%Z) Fixtures.world_ok Tabs.two_tabs in
  effects stopped.2
  = (effects Tabs.two_tabs ++ [StopAutofill "s-7"; Close 0; SendStatus 7 "stopped" "Stopped."])%list
  /\ effects (step (StreamError 0) Tabs.two_tabs) = (effects Tabs.two_tabs ++ [Close 0])%list
  /\ handleMessage STOP (Some 7%Z) Fixtures.world_down stopped.2 = (ROk, stopped.2).
Proof.
  intros stopped.
  destruct (three_ways_to_end_a_session Tabs.two_tabs 7%Z (mkSession "s-7" 0) Fixtures.world_ok
              (run_well_formed _ _ init_well_formed) eq_refl ltac:(discriminate))
    as (_ & _ & Hs & _ & He & Hagain).
  split; [exact Hs|]. split; [exact He|exact (Hagain Fixtures.world_down)].
Defined.

Lemma command_sent (c : Orchestrator.Command) (cs cs' : Orchestrator.State)
    (r : Orchestrator.Reply) :
  Orchestrator.handleCommand c cs = Some (r, cs') ->
  exists new,
    Orchestrator.sent cs' = (Orchestrator.sent cs ++ new)%list
    /\ Orchestrator.tag_of <$> new = Orchestrator.owed c
    /\ forall sid, session_of c = Some sid ->
         session_id <$> omap forward new = replicate (length (Orchestrator.owed c)) sid.
Proof.
  destruct c as [st m|sid|ref value sid|ref sid|question sid|type]; simpl.
  - intros [= <- <-]. exists []. simpl. rewrite app_nil_r. split; [reflexivity|].
    split; [reflexivity|discriminate].
  - destruct (Scanner.scanPage (Orchestrator.page cs)) as [snap pg].
    intros [= <- <-]. exists [Orchestrator.PAGE_DATA sid snap]. simpl.
    split; [reflexivity|]. split; [reflexivity|]. intros ? [= <-]. reflexivity.
  - destruct (Scanner.fillFieldByRef ref value (Orchestrator.page cs)) as [[res pg]|];
      [|discriminate].
    intros [= <- <-]. exists [Orchestrator.ACTION_RESULT sid res]. simpl.
    split; [reflexivity|]. split; [reflexivity|]. intros ? [= <-]. reflexivity.
  - destruct (Scanner.clickElementByRef ref (Orchestrator.page cs)) as [[res pg]|];
      [|discriminate].
    intros [= <- <-]. exists [Orchestrator.ACTION_RESULT sid res]. simpl.
    split; [reflexivity|]. split; [reflexivity|]. intros ? [= <-]. reflexivity.
  - intros [= <- <-]. exists []. simpl. rewrite app_nil_r. split; [reflexivity|].
    split; [reflexivity|]. intros ? [= <-]. reflexivity.
  - intros [= <- <-]. exists []. simpl. rewrite app_nil_r. split; [reflexivity|].
    split; [reflexivity|discriminate].
Qed.

(** X19. The way of a backend event through the extension. In a worker
    whose registry and streams agree, an event that an open stream
    delivers (a scan request, a fill, a click or a question) is relayed
    to the tab the stream was opened for, under the session id of that
    very stream, never under an empty id or the id of another session.
    The content script of that tab serves the command, and what it
    sends back is forwarded to the backend under the same session id:
    one page data for a scan request, one action result for a fill or a
    click whether it worked or not, and for a question nothing yet, its
    handler waiting with that session id for the answer. *)
Theorem stream_event_round_trip (st : State) (es : nat) (s : EventSource) (data : ServerEvent)
    (cs : Orchestrator.State) :
  well_formed st ->
  streams st !! es = Some s ->
  es_closed s = false ->
  Orchestrator.consistent cs ->
  is_status data = false ->
  exists msg c r cs' new,
    onmessage es data st = Some (es_tab s, msg)
    /\ deliver msg = Some c
    /\ session_of c = Some (es_session s)
    /\ Orchestrator.handleCommand c cs = Some (r, cs')
    /\ Orchestrator.consistent cs'
    /\ Orchestrator.sent cs' = (Orchestrator.sent cs ++ new)%list
    /\ Orchestrator.tag_of <$> new = Orchestrator.owed c
    /\ session_id <$> omap forward new
       = replicate (length (Orchestrator.owed c)) (es_session s)
    /\ (forall question field_context,
          data = ask_human question field_context ->
          Orchestrator.asking cs'
          = (Orchestrator.asking cs
             ++ [(Overlay.promises (Orchestrator.gate cs), es_session s)])%list).
Proof.
  intros Hwf Hs Hop Hc Hdata.
  pose proof (proj2 Hwf _ _ Hs Hop) as Hreg.
  assert (Hmsg : exists msg c,
             onmessage es data st = Some (es_tab s, msg)
             /\ deliver msg = Some c /\ session_of c = Some (es_session s)
             /\ forall question field_context,
                  data = ask_human question field_context ->
                  c = Orchestrator.ASK_HUMAN question (es_session s)).
  { unfold onmessage, relayEventToContentScript. rewrite Hs, Hop, Hreg. simpl.
    destruct data as [|ref value|ref|message fc|state message]; [..|discriminate Hdata];
      eexists _, _; (split; [reflexivity|]); (split; [reflexivity|]);
      (split; [reflexivity|]); intros q fc'; try discriminate.
    intros [= <- <-]. reflexivity. }
  destruct Hmsg as (msg & c & Hon & Hdel & Hsid & Hask).
  destruct (command_step c cs Hc) as (r & cs' & Hh & Hc' & _).
  destruct (command_sent c cs cs' r Hh) as (new & Hsent & Htags & Hfw).
  exists msg, c, r, cs', new.
  split; [exact Hon|]. split; [exact Hdel|]. split; [exact Hsid|]. split; [exact Hh|].
  split; [exact Hc'|]. split; [exact Hsent|]. split; [exact Htags|].
  split; [exact (Hfw _ Hsid)|].
  intros question fc ->. rewrite (Hask question fc eq_refl) in Hh.
  destruct (ask_step question (es_session s) cs) as (cs1 & Hh1 & _ & Ha & _).
  rewrite Hh1 in Hh. injection Hh as _ <-. exact Ha.
Qed.

Lemma stream_event_round_trip_witness :
  exists msg c r cs' new,
    onmessage 1 (fill_field "f0" "ada@example.test") Tabs.two_tabs = Some (9%Z, msg)
    /\ deliver msg = Some c
    /\ session_of c = Some "s-9"
    /\ Orchestrator.handleCommand c (Orchestrator.start Fixtures.form1) = Some (r, cs')
    /\ Orchestrator.consistent cs'
    /\ Orchestrator.sent cs' = (Orchestrator.sent (Orchestrator.start Fixtures.form1) ++ new)%list
    /\ Orchestrator.tag_of <$> new = Orchestrator.owed c
    /\ session_id <$> omap forward new = replicate (length (Orchestrator.owed c)) "s-9"
    /\ (forall question field_context,
          fill_field "f0" "ada@example.test" = ask_human question field_context ->
          Orchestrator.asking cs'
          = (Orchestrator.asking (Orchestrator.start Fixtures.form1)
             ++ [(Overlay.promises (Orchestrator.gate (Orchestrator.start Fixtures.form1)),
                  "s-9")])%list).
Proof.
  exact (stream_event_round_trip Tabs.two_tabs 1 (mkEventSource "s-9" 9 false)
           (fill_field "f0" "ada@example.test") (Orchestrator.start Fixtures.form1)
           (run_well_formed _ _ init_well_formed) eq_refl eq_refl
           (start_consistent Fixtures.form1) eq_refl).
Defined.

Example late_event_has_no_session :
  relayEventToContentScript 7 scan_request
    (step (Request STOP (Some 7%Z) Fixtures.world_ok) Tabs.two_tabs)
  = (7%Z, SCAN_PAGE "")
  /\ onmessage 0 scan_request (step (Request STOP (Some 7%Z) Fixtures.world_ok) Tabs.two_tabs)
     = None.
Proof. split; reflexivity. Qed.

Example status_of_ex :
  status_of (Some "waiting_for_human") = Known Panel.waiting
  /\ status_of (Some "thinking") = Known Panel.running
  /\ status_of None = Known Panel.running
  /\ status_of (Some "toString") = Inherited "toString".
Proof. repeat split; reflexivity. Qed.

End BridgeLaws.
